(** * PIR to RIR lowering: SSA allocator, CSSA construction, verifier

    A shallow embedding of [rir/src/compiler/translations/pir_2_rir.cpp]
    (class [SSAAllocator], [Pir2Rir::toCSSA], the argument-loading prologue
    of [Pir2Rir::compileCode] and [Pir2RirCompiler::compile]) together with
    the properties the specification states about them.

    Conventions of the embedding.
    - A [Value*] is modelled by the inductive [Value]; an [Instruction*] is
      the [VInstr] case carrying the identity of the instruction object.
    - A [BB*] is the block's id; blocks live in a finite map from ids.
    - [assert(...)] failures, uncaught [std::out_of_range] exceptions and
      undefined behaviour are the three ways a run can fail; they are kept
      apart in the result type.
    - Unbounded loops and recursion take a fuel argument; running out of
      fuel is a fourth, separate outcome. *)

From Stdlib Require Import ZArith NArith List Bool Lia.
From stdpp Require Import base option list gmap sets.

Local Open Scope N_scope.

(** ** Outcomes *)

Inductive Failure :=
| AssertionFailed                  (* assert(cond) with cond false *)
| OutOfRange                       (* .at() on a missing key *)
| Undefined                        (* undefined behaviour in C++ *)
| PhiInputAllocation (phi input : nat)  (* "... have different allocations" *)
| NotAllocated (arg : nat)         (* "... but is not allocated" *)
| WrongValue (slot : N) (expected : nat)  (* "the stack has" / "was overridden by" *)
| ReturnWithStack (bb : nat) (residual : nat). (* "tries to return with n elements" *)

Inductive result (A : Type) :=
| Ok (a : A)
| Abort (f : Failure)
| OutOfFuel.
Arguments Ok {A} a.
Arguments Abort {A} f.
Arguments OutOfFuel {A}.

Global Instance result_ret : MRet result := fun A a => Ok a.
Global Instance result_bind : MBind result := fun A B k m =>
  match m with
  | Ok a => k a
  | Abort f => Abort f
  | OutOfFuel => OutOfFuel
  end.

(** [m.at(k)] of a C++ map: throws when the key is absent. *)
Definition at_ {K A} `{Countable K} (m : gmap K A) (k : K) : result A :=
  match m !! k with
  | Some a => Ok a
  | None => Abort OutOfRange
  end.

(** Monadic left fold: a [for] loop whose body can fail. *)
Fixpoint foldM {A B} (f : A -> B -> result A) (a : A) (l : list B) : result A :=
  match l with
  | [] => Ok a
  | b :: l' => a' ← f a b; foldM f a' l'
  end.

(** ** Liveness intervals *)

(** [struct BBLiveness { uint8_t live = false; unsigned begin = -1;
    unsigned end = -1; }]. The two positions are unsigned and are only
    compared and assigned, never computed with. *)
Record BBLiveness := mkBBLiveness {
  live : bool;
  begin : N;
  end_ : N
}.

Definition BBLiveness_default : BBLiveness :=
  {| live := false; begin := 4294967295; end_ := 4294967295 |}.

(** [struct Liveness : public std::vector<BBLiveness>], indexed by block id. *)
Definition Liveness := list BBLiveness.

(** The test inside the loop of [Liveness::interfere]. *)
Definition overlap (mine their : BBLiveness) : bool :=
  live mine && live their &&
  ((begin mine =? begin their) ||
   ((begin mine <? begin their) && (begin their <=? end_ mine)) ||
   ((begin their <? begin mine) && (begin mine <=? end_ their))).

(** The loop of [Liveness::interfere] over both vectors in step. *)
Fixpoint interfere_loop (mine their : Liveness) : bool :=
  match mine, their with
  | m :: mine', t :: their' =>
      if overlap m t then true else interfere_loop mine' their'
  | _, _ => false
  end.

(** [bool Liveness::interfere(const Liveness& other) const]. *)
Definition interfere (mine other : Liveness) : result bool :=
  if decide (length mine = length other)
  then Ok (interfere_loop mine other)
  else Abort AssertionFailed.

(** The condition of [overlap] as a proposition. *)
Definition overlapP (m t : BBLiveness) : Prop :=
  live m = true /\ live t = true /\
  (begin m = begin t \/
   (begin m < begin t /\ begin t <= end_ m) \/
   (begin t < begin m /\ begin m <= end_ t)).

(** ** The IR *)

Module Tag.
Inductive t :=
| LdConst | LdFun | LdVar | ForSeqSize | LdArg | StVarSuper | LdVarSuper
| StVar | Branch | Return | MkArg | MkFunCls | Is | Subassign2_1D
| PirCopy | CastType | LdFunctionEnv
| Identical | LOr | LAnd | Inc | Force | AsTest | Length | ChkMissing
| ChkClosure | Seq | MkCls | Subassign1_1D | IsObject | Int3
| Add | Sub | Mul | Div | IDiv | Mod | Pow | Lt | Gt | Lte | Gte | Eq | Neq
| Colon | AsLogical | Plus | Minus | Not
| Extract1_1D | Extract2_1D | Extract1_2D | Extract2_2D
| Call | StaticCall | CallBuiltin | CallSafeBuiltin | MkEnv | Phi | Deopt
| Missing | Env | Nil | _UNUSED_.
Global Instance eq_dec : EqDecision t.
Proof. solve_decision. Defined.
End Tag.

(** What a [Value*] can point to: an instruction object, or one of the
    values that are not instructions (tags [Env], [Missing], [Nil]); [VNull]
    is the null pointer. *)
Inductive Value :=
| VInstr (p : nat)       (* an Instruction object *)
| VEnv (rho : nat)       (* a static environment, [Env::isStaticEnv] *)
| VNotClosed             (* [Env::notClosed()] *)
| VMissing               (* [Missing::instance()] *)
| VNil                   (* [Nil::instance()] *)
| VNull.

Global Instance Value_eq_dec : EqDecision Value.
Proof. solve_decision. Defined.

Definition Value_encode (v : Value) : nat + nat :=
  match v with
  | VInstr p => inl p
  | VEnv rho => inr (4 + rho)%nat
  | VNotClosed => inr 0%nat
  | VMissing => inr 1%nat
  | VNil => inr 2%nat
  | VNull => inr 3%nat
  end.

Definition Value_decode (x : nat + nat) : Value :=
  match x with
  | inl p => VInstr p
  | inr 0%nat => VNotClosed
  | inr 1%nat => VMissing
  | inr 2%nat => VNil
  | inr 3%nat => VNull
  | inr (S (S (S (S rho)))) => VEnv rho
  end.

Global Instance Value_countable : Countable Value.
Proof.
  apply (inj_countable' Value_encode Value_decode). by intros [].
Defined.

(** [Instruction::Cast(v)]. *)
Definition Instruction_Cast (v : Value) : option nat :=
  match v with VInstr p => Some p | _ => None end.

(** The operands of an instruction that are not values: what the emitter
    reads from the subclass after [X::Cast(instr)]. R objects ([SEXP]),
    closures and promises are named by numbers. *)
Inductive Immediate :=
| NoImm
| ImmSexp (s : nat)                         (* [c], [varName], [sym], [sexpTag] *)
| ImmArg (id : nat)                         (* [LdArg::id] *)
| ImmProm (prom : nat)                      (* [MkArg::prom] *)
| ImmFunCls (cls fml code src : nat)        (* [MkFunCls] *)
| ImmCall (nCallArgs : nat)                 (* [Call] *)
| ImmStaticCall (nCallArgs cls origin : nat) (* [StaticCall] *)
| ImmBuiltin (nCallArgs blt : nat)          (* [CallBuiltin] *)
| ImmSafeBuiltin (blt : nat)                (* [CallSafeBuiltin] *)
| ImmLocals (names : list nat).             (* [MkEnv]: the local variables *)

Global Instance Immediate_eq_dec : EqDecision Immediate.
Proof. solve_decision. Defined.

(** The fields of an instruction object the lowering reads. [ptr] is the
    identity of the object (its address); [input] is [Phi::input] and is
    only meaningful for a phi. *)
Record Instruction := mkInstruction {
  ptr : nat;
  tag : Tag.t;
  args : list Value;
  input : list nat;
  voyd : bool;               (* [type == PirType::voyd()] *)
  envSlot : option nat;      (* [hasEnv()] and [envSlot()] *)
  srcIdx : nat;
  imm : Immediate
}.

Global Instance Instruction_eq_dec : EqDecision Instruction.
Proof. solve_decision. Defined.

(** An instruction seen as a [Value*]. *)
Definition val (i : Instruction) : Value := VInstr (ptr i).

(** [Phi::Cast(i)] is not null. *)
Definition isPhi (i : Instruction) : bool := bool_decide (tag i = Tag.Phi).

Definition nargs (i : Instruction) : nat := length (args i).

(** [Phi::eachArg]: the pairs [(input[k], arg(k).val())] for [k < nargs()]. *)
Definition phiEachArg (i : Instruction) : list (nat * Value) :=
  zip (input i) (args i).

(** [Instruction::eachArgRev]. *)
Definition eachArgRev (i : Instruction) : list Value := reverse (args i).

Record BB := mkBB {
  instrs : list Instruction;
  next0 : option nat;
  next1 : option nat
}.

Definition BB_empty : BB := {| instrs := []; next0 := None; next1 := None |}.

Record Code := mkCode {
  entry : nat;
  nextBBId : nat;
  bbs : gmap nat BB
}.

(** Dereferencing a [BB*]. An id outside the code names no block of the
    program and reads as the empty block. *)
Definition getBB (code : Code) (b : nat) : BB := default BB_empty (bbs code !! b).

Definition allInstrs (code : Code) : list Instruction :=
  flat_map (fun kb => instrs kb.2) (map_to_list (bbs code)).

(** Modelled from the spec: [Instruction::hasSingleUse()] is declared in the
    PIR headers, which are not part of the sources at hand; section 4.4 reads
    it as "is used exactly once in the IR". *)
Definition uses (code : Code) (v : Value) : nat :=
  length (filter (fun a => a = v) (flat_map args (allInstrs code))).

Definition hasSingleUse (code : Code) (i : Instruction) : bool :=
  bool_decide (uses code (val i) = 1%nat).

(** ** Pir2Rir::toCSSA *)

(** Modelled from the spec: [BB::isJmp()] is declared in the PIR headers,
    which are not part of the sources at hand. Section 3 gives a block zero,
    one or two successors, two exactly when it ends in a conditional branch;
    a jump is a block with the single successor [next0]. *)
Definition isJmp (b : BB) : bool :=
  bool_decide (is_Some (next0 b)) && bool_decide (next1 b = None).

(** [new] hands out the address of no live object: one past every pointer
    that occurs in the code, as an instruction or as an argument. *)
Definition ptrsOf (i : Instruction) : list nat :=
  ptr i :: omap Instruction_Cast (args i).

Definition freshPtr (code : Code) : nat :=
  S (foldr Nat.max 0%nat (allInstrs code ≫= ptrsOf)).

(** [new PirCopy(v)]: a copy has its source as only argument and a result
    (the constructor is not among the sources at hand). *)
Definition mkPirCopy (p : nat) (arg : Value) : Instruction :=
  {| ptr := p; tag := Tag.PirCopy; args := [arg]; input := [];
     voyd := false; envSlot := None; srcIdx := 0; imm := NoImm |}.

(** [bb->insert(it, i)] on the vector of instructions, [it] a position. *)
Definition insertAt {A} (pos : nat) (x : A) (l : list A) : list A :=
  take pos l ++ x :: drop pos l.

Definition withInstrs (f : list Instruction -> list Instruction) (b : BB) : BB :=
  {| instrs := f (instrs b); next0 := next0 b; next1 := next1 b |}.

Definition updateBB (bb : nat) (f : list Instruction -> list Instruction)
    (code : Code) : Code :=
  {| entry := entry code; nextBBId := nextBBId code;
     bbs := alter (withInstrs f) bb (bbs code) |}.

(** A write through an [Instruction*]: applied to the object with this
    identity wherever a block holds it. *)
Definition mapInstrs (f : Instruction -> Instruction) (code : Code) : Code :=
  {| entry := entry code; nextBBId := nextBBId code;
     bbs := withInstrs (fmap f) <$> bbs code |}.

Definition withArgs (f : list Value -> list Value) (i : Instruction) :
    Instruction :=
  {| ptr := ptr i; tag := tag i; args := f (args i); input := input i;
     voyd := voyd i; envSlot := envSlot i; srcIdx := srcIdx i;
     imm := imm i |}.

(** [phi->arg(k).val() = v] *)
Definition setArg (phi k : nat) (v : Value) (i : Instruction) : Instruction :=
  if decide (ptr i = phi) then withArgs (fun a => <[k := v]> a) i else i.

(** Modelled from the spec: [Instruction::replaceUsesWith] is declared in
    the PIR headers, which are not part of the sources at hand; section 4.2
    has it "rewrite all uses of p (other than p' itself) to p'". It runs
    before the copy [p'] is inserted, so every use in the code is rewritten. *)
Definition replaceUsesWith (p : nat) (r : Value) (code : Code) : Code :=
  mapInstrs (withArgs (fmap (fun a => if decide (a = VInstr p) then r else a)))
    code.

(** [Instruction::Cast(v)] passed on as a pointer, null when [v] is not an
    instruction. *)
Definition castOrNull (v : Value) : Value :=
  match v with VInstr _ => v | _ => VNull end.

(** Body of [for (size_t i = 0; i < phi->nargs(); ++i)]: [ka] is the index
    and [phi->arg(i).val()]. Reading [phi->input[k]] past its end and
    [pred->end() - 1] on an empty block are undefined, as is following a
    [BB*] that names no block. *)
Definition insertPhiInput (phi : Instruction) (code : Code)
    (ka : nat * Value) : result Code :=
  match input phi !! ka.1 with
  | None => Abort Undefined
  | Some pred =>
      match bbs code !! pred with
      | None => Abort Undefined
      | Some pb =>
          pos ← (if isJmp pb then Ok (length (instrs pb))
                 else if (length (instrs pb) =? 0)%nat then Abort Undefined
                 else Ok (length (instrs pb) - 1)%nat);
          let c := freshPtr code in
          let code1 := updateBB pred (insertAt pos (mkPirCopy c (castOrNull ka.2)))
                         code in
          Ok (mapInstrs (setArg (ptr phi) ka.1 (VInstr c)) code1)
      end
  end.

(** One of the blocks [phi->input[i]], [i < phi->nargs()], is the block
    [bb] the phi stands in: [pred->insert] then inserts into the vector that
    the iterator [it] of the outer loop walks. *)
Definition feedsItself (bb : nat) (phi : Instruction) : bool :=
  bool_decide (bb ∈ take (length (args phi)) (input phi)).

(** The body of [if (phi)] for the phi found at position [it] of [bb]; it
    leaves the copy of the phi at position [it + 1]. An insertion may move
    the storage of a vector, after which an iterator into it is invalid;
    whether it does so depends on the capacity of the vector, which is no
    part of the IR. So when the loop over the inputs has inserted into [bb]
    itself, the use of [it] in [bb->insert(it + 1, phiCopy)] is undefined. *)
Definition splitPhi (bb it : nat) (phi : Instruction) (code : Code) :
    result Code :=
  code1 ← foldM (insertPhiInput phi) code (imap pair (args phi));
  if feedsItself bb phi then Abort Undefined
  else
    let pc := freshPtr code1 in
    let code2 := replaceUsesWith (ptr phi) (VInstr pc) code1 in
    Ok (updateBB bb (insertAt (S it) (mkPirCopy pc (val phi))) code2).

(** [for (auto it = bb->begin(); it != bb->end(); ++it)]. The iterator is
    kept as a position in the block: the only insertion into the block that
    it survives is the one made through it, [it = bb->insert(it + 1, ...)],
    which returns it anew; the block is read at every turn. *)
Fixpoint cssaBlock (fuel : nat) (bb it : nat) (code : Code) : result Code :=
  match fuel with
  | O => OutOfFuel
  | S fuel' =>
      match instrs (getBB code bb) !! it with
      | None => Ok code
      | Some instr =>
          if isPhi instr then
            code' ← splitPhi bb it instr code;
            cssaBlock fuel' bb (S (S it)) code'
          else cssaBlock fuel' bb (S it) code
      end
  end.

(** [Pir2Rir::toCSSA]; [order] is the sequence of blocks in which
    [BreadthFirstVisitor::run(code->entry, ...)] calls the lambda. *)
Definition toCSSA (fuel : nat) (order : list nat) (code : Code) : result Code :=
  foldM (fun code bb => cssaBlock fuel bb 0 code) code order.

(** ** SSAAllocator: liveness *)

(** The queries of [CFG] ([util/cfg.h], not among the sources at hand) that
    [computeLiveness] uses, taken as data: the exit blocks, the immediate
    predecessors of a block and the test [isPredecessor(a, b)]. *)
Record CFG := mkCFG {
  exits : list nat;
  immediatePredecessors : nat -> list nat;
  isPredecessor : nat -> nat -> bool
}.

(** Modelled from the spec: the class [CFG] is defined in [util/cfg.h],
    which is not part of the sources at hand. Section 4.1: [exits()] are the
    blocks with no successor, [predecessors(bb)] the blocks with an edge to
    [bb], and [isPredecessor(a, b)] a transitive reachability test (is [b]
    reached from [a] along one or more edges). *)
Definition successors (code : Code) (b : nat) : list nat :=
  option_list (next0 (getBB code b)) ++ option_list (next1 (getBB code b)).

Fixpoint reaches (fuel : nat) (code : Code) (a b : nat) : bool :=
  match fuel with
  | O => false
  | S fuel' =>
      existsb (fun s => (s =? b)%nat || reaches fuel' code s b)
              (successors code a)
  end.

Definition cfgOf (code : Code) : CFG :=
  let ids := (map_to_list (bbs code)).*1 in
  {| exits := filter (fun b => successors code b = []) ids;
     immediatePredecessors := fun b =>
       filter (fun p => b ∈ successors code p) ids;
     isPredecessor := fun a b => reaches (length ids) code a b |}.

(** A [size_t] position stored into an [unsigned] field. *)
Definition to_unsigned (n : nat) : N := N.of_nat n mod 4294967296.

(** [livenessInterval.at(v)[bb]], the vector indexed without bounds check. *)
Definition rangeAt (li : gmap Value Liveness) (v : Value) (bb : nat) :
    result BBLiveness :=
  l ← at_ li v;
  match l !! bb with
  | Some r => Ok r
  | None => Abort Undefined
  end.

Definition setRange (li : gmap Value Liveness) (v : Value) (bb : nat)
    (r : BBLiveness) : gmap Value Liveness :=
  alter (fun l => <[bb := r]> l) v li.

(** What the three maps and the worklist of [computeLiveness] hold. *)
Record LivenessState := mkLivenessState {
  livenessInterval : gmap Value Liveness;
  liveAtEnd : gmap nat (gset Value);
  todo : gset nat
}.

(** "Mark all (backwards) incoming live variables": body of the loop over
    [liveAtEnd[bb]]. *)
Definition markLiveOut (bb size : nat)
    (st : gmap Value Liveness * gset Value) (v : Value) :
    result (gmap Value Liveness * gset Value) :=
  match st.1 !! v with
  | None => Abort AssertionFailed
  | Some _ =>
      r ← rangeAt st.1 v bb;
      if negb (live r) || (end_ r <? N.of_nat size) then
        Ok (setRange st.1 v bb
              {| live := true; begin := begin r; end_ := to_unsigned size |},
            {[v]} ∪ st.2)
      else Ok st
  end.

(** The lambda [markIfNotSeen]. *)
Definition markIfNotSeen (bbsSize bb pos : nat) (li : gmap Value Liveness)
    (v : Value) : result (gmap Value Liveness * bool) :=
  let li1 := match li !! v with
             | None => <[v := replicate bbsSize BBLiveness_default]> li
             | Some _ => li
             end in
  r ← rangeAt li1 v bb;
  if negb (live r) then
    Ok (setRange li1 v bb
          {| live := true; begin := begin r; end_ := to_unsigned pos |}, true)
  else Ok (li1, false).

(** The state of the backwards walk over one block: the liveness map,
    [accumulated] and [accumulatedPhiInput]. *)
Definition WalkState : Type :=
  gmap Value Liveness * gset Value * gmap nat (gset Value).

Definition markArg (bbsSize bb pos : nat) (st : WalkState) (v : Value) :
    result WalkState :=
  lb ← markIfNotSeen bbsSize bb pos st.1.1 v;
  Ok (lb.1, if lb.2 : bool then {[v]} ∪ st.1.2 else st.1.2, st.2).

Definition markPhiArg (bbsSize bb pos : nat) (st : WalkState)
    (a : nat * Value) : result WalkState :=
  lb ← markIfNotSeen bbsSize bb pos st.1.1 a.2;
  Ok (lb.1, st.1.2,
      if lb.2 : bool
      then <[a.1 := {[a.2]} ∪ default ∅ (st.2 !! a.1)]> st.2 else st.2).

(** "Mark the end of the current instructions liveness". *)
Definition markDefinition (bb pos : nat) (i : Instruction) (st : WalkState) :
    result WalkState :=
  if bool_decide (val i ∈ st.1.2) then
    match st.1.1 !! val i with
    | None => Abort AssertionFailed
    | Some _ =>
        r ← rangeAt st.1.1 (val i) bb;
        if negb (live r) then Abort AssertionFailed
        else Ok (setRange st.1.1 (val i) bb
                   {| live := true; begin := to_unsigned pos; end_ := end_ r |},
                 st.1.2 ∖ {[val i]}, st.2)
    end
  else Ok st.

(** Body of the [do ... while] loop running a block in reverse. *)
Definition walkInstr (bbsSize bb : nat) (st : WalkState)
    (pi : nat * Instruction) : result WalkState :=
  let '(pos, i) := pi in
  st1 ← (if isPhi i then foldM (markPhiArg bbsSize bb pos) st (phiEachArg i)
         else foldM (markArg bbsSize bb pos) st (args i));
  markDefinition bb pos i st1.

(** The lambda [markLiveEntry]. *)
Definition markLiveEntry (bb : nat) (li : gmap Value Liveness) (v : Value) :
    result (gmap Value Liveness) :=
  match li !! v with
  | None => Abort AssertionFailed
  | Some _ =>
      r ← rangeAt li v bb;
      if negb (live r) then Abort AssertionFailed
      else Ok (setRange li v bb
                 {| live := true; begin := 0; end_ := end_ r |})
  end.

(** The lambda [merge]: [liveAtEnd[bb]] creates the entry it reads. *)
Definition merge (st : gmap nat (gset Value) * gset nat) (bb : nat)
    (live : gset Value) : gmap nat (gset Value) * gset nat :=
  let liveOut := default ∅ (st.1 !! bb) in
  if bool_decide (live ⊆ liveOut) then (<[bb := liveOut]> st.1, st.2)
  else (<[bb := liveOut ∪ live]> st.1, {[bb]} ∪ st.2).

(** The lambda [mergePhiInp]. *)
Definition mergePhiInp (cfg : CFG) (accumulatedPhiInput : gmap nat (gset Value))
    (st : gmap nat (gset Value) * gset nat) (bb : nat) :
    gmap nat (gset Value) * gset nat :=
  foldl (fun st in_ =>
           if (bb =? in_.1)%nat || isPredecessor cfg in_.1 bb
           then merge st bb in_.2 else st)
        st (map_to_list accumulatedPhiInput).

(** Body of [for (auto pre : cfg.immediatePredecessors(bb))]. *)
Definition propagateTo (cfg : CFG) (accumulated : gset Value)
    (accumulatedPhiInput : gmap nat (gset Value))
    (st : gmap nat (gset Value) * gset nat) (pre : nat) :
    gmap nat (gset Value) * gset nat :=
  let firstTime := negb (bool_decide (is_Some (st.1 !! pre))) in
  if firstTime then
    let st1 := mergePhiInp cfg accumulatedPhiInput
                 (<[pre := accumulated]> st.1, st.2) pre in
    (st1.1, {[pre]} ∪ st1.2)
  else
    mergePhiInp cfg accumulatedPhiInput (merge st pre accumulated) pre.

Definition propagate (cfg : CFG) (bb : nat) (accumulated : gset Value)
    (accumulatedPhiInput : gmap nat (gset Value))
    (st : gmap nat (gset Value) * gset nat) :
    gmap nat (gset Value) * gset nat :=
  foldl (propagateTo cfg accumulated accumulatedPhiInput) st
        (immediatePredecessors cfg bb).

(** [*todo.begin()]: the first block of the ordered set (ordered here by
    block id, in C++ by address). *)
Definition firstTodo (todo : gset nat) : option nat :=
  match elements todo with
  | [] => None
  | x :: xs => Some (foldr Nat.min x xs)
  end.

(** One turn of [while (!todo.empty())] for the block [bb] taken from the
    worklist. *)
Definition processBB (cfg : CFG) (code : Code) (bb : nat)
    (st : LivenessState) : result LivenessState :=
  let b := getBB code bb in
  let size := length (instrs b) in
  let liveOut := default ∅ (liveAtEnd st !! bb) in
  let lae := <[bb := liveOut]> (liveAtEnd st) in
  la ← foldM (markLiveOut bb size) (livenessInterval st, ∅) (elements liveOut);
  w ← foldM (walkInstr (nextBBId code) bb) (la.1, la.2, ∅)
        (reverse (imap pair (instrs b)));
  li1 ← foldM (markLiveEntry bb) w.1.1 (elements w.1.2);
  li2 ← foldM (markLiveEntry bb) li1
         (map_to_list w.2 ≫= (fun pi => elements pi.2));
  let lt := propagate cfg bb w.1.2 w.2 (lae, todo st) in
  Ok {| livenessInterval := li2; liveAtEnd := lt.1; todo := lt.2 |}.

Fixpoint livenessLoop (fuel : nat) (cfg : CFG) (code : Code)
    (st : LivenessState) : result LivenessState :=
  match firstTodo (todo st) with
  | None => Ok st
  | Some bb =>
      match fuel with
      | O => OutOfFuel
      | S fuel' =>
          st' ← processBB cfg code bb
                  {| livenessInterval := livenessInterval st;
                     liveAtEnd := liveAtEnd st;
                     todo := todo st ∖ {[bb]} |};
          livenessLoop fuel' cfg code st'
      end
  end.

(** [computeLiveness]: the resulting [livenessInterval]. *)
Definition computeLiveness (fuel : nat) (cfg : CFG) (code : Code) :
    result (gmap Value Liveness) :=
  st ← livenessLoop fuel cfg code
         {| livenessInterval := ∅; liveAtEnd := ∅;
            todo := list_to_set (exits cfg) |};
  Ok (livenessInterval st).

(** ** SSAAllocator: stack pre-colouring *)

(** [typedef size_t SlotNumber] *)
Abbreviation SlotNumber := N.
Definition unassignedSlot : SlotNumber := 0.
Definition stackSlot : SlotNumber := 18446744073709551615. (* (size_t)-1 *)

(** The test of the phi sweep of [computeStackAllocation], negated:
    [in->next0 != bb || in->size() < pos || *(in->end() - pos) != v]. *)
Definition argInRightOrder (code : Code) (bb pos : nat) (a : nat * Value) : bool :=
  let inbb := getBB code a.1 in
  negb (negb (bool_decide (next0 inbb = Some bb))
        || (length (instrs inbb) <? pos)%nat
        || negb (bool_decide
                   (val <$> instrs inbb !! (length (instrs inbb) - pos)%nat
                    = Some a.2))).

Definition markStack (alloc : gmap Value SlotNumber) (v : Value) :
    gmap Value SlotNumber :=
  <[v := stackSlot]> alloc.

(** First block of the per-BB lambda of [computeStackAllocation]:
    [for (auto i : *bb)] from [pos = 1]. *)
Fixpoint phiSweep (code : Code) (bb pos : nat) (ins : list Instruction)
    (alloc : gmap Value SlotNumber) : gmap Value SlotNumber :=
  match ins with
  | [] => alloc
  | i :: rest =>
      if negb (isPhi i) then alloc
      else if negb (forallb (argInRightOrder code bb pos) (phiEachArg i))
      then alloc
      else
        let alloc1 := foldl markStack alloc (phiEachArg i).*2 in
        phiSweep code bb (S pos) rest (markStack alloc1 (val i))
  end.

(** The [while] loop of [tryLoadingArgsFromStack]: [check] is what the
    reverse iterator has still to visit, top of the deque first. *)
Fixpoint skipTo (arg : Value) (check : list Instruction) (newStackSize : nat) :
    list Instruction * nat :=
  match check with
  | [] => ([], newStackSize)
  | c :: check' =>
      if decide (val c = arg) then (check, newStackSize)
      else skipTo arg check' (newStackSize - 1)%nat
  end.

(** Body of the [eachArgRev] lambda of [tryLoadingArgsFromStack]. *)
Definition matchArg (st : list Instruction * nat * bool) (arg : Value) :
    list Instruction * nat * bool :=
  let '(check, newStackSize, foundAll) := st in
  let '(check1, n1) := skipTo arg check newStackSize in
  match check1 with
  | [] => (check1, n1, false)
  | _ :: check2 => (check2, (n1 - 1)%nat, foundAll)
  end.

(** The deque [stack] is a list with the top ([back()]) last. *)
Definition tryLoadingArgsFromStack (i : Instruction)
    (st : list Instruction * gmap Value SlotNumber) :
    list Instruction * gmap Value SlotNumber :=
  let '(stack, alloc) := st in
  if (nargs i =? 0)%nat || (length stack <? nargs i)%nat then st
  else
    let '(_, newStackSize, foundAll) :=
      foldl matchArg (reverse stack, length stack, true) (eachArgRev i) in
    if negb foundAll then st
    else (take newStackSize stack, foldl markStack alloc (eachArgRev i)).

(** The guard of [stack.push_back(i)]. *)
Definition recorded (code : Code) (alloc : gmap Value SlotNumber)
    (i : Instruction) : bool :=
  negb (bool_decide (is_Some (alloc !! val i))) && negb (voyd i)
  && negb (isPhi i) && hasSingleUse code i.

(** Body of the second [for (auto i : *bb)] loop. *)
Definition stackWindowStep (code : Code)
    (st : list Instruction * gmap Value SlotNumber) (i : Instruction) :
    list Instruction * gmap Value SlotNumber :=
  let st1 := tryLoadingArgsFromStack i st in
  if recorded code st1.2 i then (st1.1 ++ [i], st1.2) else st1.

Definition stackWindow (code : Code) (ins : list Instruction)
    (st : list Instruction * gmap Value SlotNumber) :
    list Instruction * gmap Value SlotNumber :=
  foldl (stackWindowStep code) st ins.

(** The lambda [computeStackAllocation] runs on every block. *)
Definition computeStackAllocationBB (code : Code)
    (alloc : gmap Value SlotNumber) (bb : nat) : gmap Value SlotNumber :=
  let ins := instrs (getBB code bb) in
  (stackWindow code ins ([], phiSweep code bb 1 ins alloc)).2.

(** [computeStackAllocation]; [order] is the sequence of blocks in which
    [Visitor::run(code->entry, ...)] calls the lambda. *)
Definition computeStackAllocation (code : Code) (order : list nat)
    (alloc : gmap Value SlotNumber) : gmap Value SlotNumber :=
  foldl (computeStackAllocationBB code) alloc order.

(** ** SSAAllocator: slot allocation *)

(** [reverseAlloc[slot]] of
    [std::unordered_map<SlotNumber, std::unordered_set<Value*>>]; the set is
    kept as a duplicate-free list (its iteration order is unspecified in
    C++; here it is insertion order). *)
Definition slotMembers (ra : gmap SlotNumber (list Value)) (slot : SlotNumber) :
    list Value :=
  default [] (ra !! slot).

(** [reverseAlloc[slot].insert(v)] *)
Definition reverseInsert (ra : gmap SlotNumber (list Value))
    (slot : SlotNumber) (v : Value) : gmap SlotNumber (list Value) :=
  let members := slotMembers ra slot in
  <[slot := if decide (v ∈ members) then members else members ++ [v]]> ra.

(** The loop of the lambda [slotIsAvailable]. *)
Fixpoint availableAgainst (li : gmap Value Liveness) (i : Value)
    (others : list Value) : result bool :=
  match others with
  | [] => Ok true
  | other :: rest =>
      lo ← at_ li other;
      l ← at_ li i;
      b ← interfere lo l;
      if b : bool then Ok false else availableAgainst li i rest
  end.

Definition slotIsAvailable (li : gmap Value Liveness)
    (ra : gmap SlotNumber (list Value)) (slot : SlotNumber) (i : Value) :
    result bool :=
  availableAgainst li i (slotMembers ra slot).

(** [++slot] on a [size_t]. *)
Definition slotIncr (slot : SlotNumber) : SlotNumber :=
  (slot + 1) mod 18446744073709551616.

(** [p->eachArg(... if (!slotIsAvailable(slot, v)) success = false; ...)]:
    every argument is tested, also after a failed one. *)
Fixpoint allAvailable (li : gmap Value Liveness)
    (ra : gmap SlotNumber (list Value)) (slot : SlotNumber)
    (vs : list Value) (success : bool) : result bool :=
  match vs with
  | [] => Ok success
  | v :: vs' =>
      b ← slotIsAvailable li ra slot v;
      allAvailable li ra slot vs' (if b : bool then success else false)
  end.

(** The [while (true)] loop of the phi pre-colouring; [slot] is the value
    before [++slot]. *)
Fixpoint findPhiSlot (fuel : nat) (li : gmap Value Liveness)
    (ra : gmap SlotNumber (list Value)) (p : Value) (inputs : list Value)
    (slot : SlotNumber) : result SlotNumber :=
  match fuel with
  | O => OutOfFuel
  | S fuel' =>
      let slot := slotIncr slot in
      success ← slotIsAvailable li ra slot p;
      success ← (if success : bool then allAvailable li ra slot inputs true
                 else Ok false);
      if success : bool then Ok slot
      else findPhiSlot fuel' li ra p inputs slot
  end.

(** [allocation[v] = slot; reverseAlloc[slot].insert(v);] *)
Definition assignSlot (slot : SlotNumber)
    (st : gmap Value SlotNumber * gmap SlotNumber (list Value)) (v : Value) :
    gmap Value SlotNumber * gmap SlotNumber (list Value) :=
  (<[v := slot]> st.1, reverseInsert st.2 slot v).

(** The lambda of "Precolor Phi" in [computeAllocation]. *)
Definition precolorPhi (fuel : nat) (li : gmap Value Liveness)
    (st : gmap Value SlotNumber * gmap SlotNumber (list Value))
    (i : Instruction) :
    result (gmap Value SlotNumber * gmap SlotNumber (list Value)) :=
  if negb (isPhi i) || bool_decide (is_Some (st.1 !! val i)) then Ok st
  else
    slot ← findPhiSlot fuel li st.2 (val i) (phiEachArg i).*2 unassignedSlot;
    Ok (foldl (assignSlot slot) (assignSlot slot st (val i)) (phiEachArg i).*2).

(** The [for (;;)] loop of [findFreeSlot]. *)
Fixpoint findFreeSlotFrom (fuel : nat) (li : gmap Value Liveness)
    (ra : gmap SlotNumber (list Value)) (i : Value) (slot : SlotNumber) :
    result SlotNumber :=
  match fuel with
  | O => OutOfFuel
  | S fuel' =>
      let slot := slotIncr slot in
      b ← slotIsAvailable li ra slot i;
      if b : bool then Ok slot else findFreeSlotFrom fuel' li ra i slot
  end.

Definition findFreeSlot (fuel : nat) (li : gmap Value Liveness)
    (st : gmap Value SlotNumber * gmap SlotNumber (list Value))
    (i : Instruction) :
    result (gmap Value SlotNumber * gmap SlotNumber (list Value)) :=
  slot ← findFreeSlotFrom fuel li st.2 (val i) unassignedSlot;
  Ok (assignSlot slot st (val i)).

(** "Try to reuse input slot": the slot of the first argument when that is
    an allocated instruction. *)
Definition slotHint (alloc : gmap Value SlotNumber) (i : Instruction) :
    SlotNumber :=
  if (0 <? nargs i)%nat then
    match args i !! 0%nat with
    | Some (VInstr o) => default unassignedSlot (alloc !! VInstr o)
    | _ => unassignedSlot
    end
  else unassignedSlot.

(** Body of the loop over a block in the dominance-order pass. *)
Definition allocateInstr (fuel : nat) (li : gmap Value Liveness)
    (st : gmap Value SlotNumber * gmap SlotNumber (list Value))
    (i : Instruction) :
    result (gmap Value SlotNumber * gmap SlotNumber (list Value)) :=
  if negb (bool_decide (is_Some (st.1 !! val i)))
     && bool_decide (is_Some (li !! val i)) then
    let hint := slotHint st.1 i in
    if negb (hint =? unassignedSlot) && negb (hint =? stackSlot) then
      b ← slotIsAvailable li st.2 hint (val i);
      if b : bool then Ok (assignSlot hint st (val i))
      else findFreeSlot fuel li st i
    else findFreeSlot fuel li st i
  else Ok st.

(** The instructions a visitor over the blocks [order] passes by. *)
Definition visited (code : Code) (order : list nat) : list Instruction :=
  order ≫= (fun b => instrs (getBB code b)).

(** [computeAllocation]. [order] is the block order of
    [Visitor::run(code->entry, ...)], [domOrder] that of
    [DominatorTreeVisitor<>(dom).run(code, ...)]; [fuel] bounds the number of
    iterations of each slot search. *)
Definition computeAllocation (fuel : nat) (li : gmap Value Liveness)
    (code : Code) (order domOrder : list nat)
    (alloc : gmap Value SlotNumber) :
    result (gmap Value SlotNumber * gmap SlotNumber (list Value)) :=
  st ← foldM (precolorPhi fuel li) (alloc, ∅) (visited code order);
  foldM (allocateInstr fuel li) st (visited code domOrder).

(** The two allocation passes of the constructor of [SSAAllocator], on a
    given liveness map. *)
Definition allocate (fuel : nat) (li : gmap Value Liveness) (code : Code)
    (order domOrder : list nat) : result (gmap Value SlotNumber) :=
  st ← computeAllocation fuel li code order domOrder
         (computeStackAllocation code order ∅);
  Ok st.1.

(** ** SSAAllocator: the verifier *)

(** [allocation[v]] read through [operator[]]: a missing key reads as the
    default-constructed [SlotNumber]. *)
Definition allocOrDefault (alloc : gmap Value SlotNumber) (v : Value) :
    SlotNumber :=
  default unassignedSlot (alloc !! v).

(** [allocation[v]] as an lvalue expression: it also inserts the missing key. *)
Definition touch (alloc : gmap Value SlotNumber) (v : Value) :
    gmap Value SlotNumber :=
  match alloc !! v with
  | Some _ => alloc
  | None => <[v := unassignedSlot]> alloc
  end.

(** [stack.back()] followed by [stack.pop_back()] on a deque whose back is
    the last element of the list; both are undefined on an empty deque. *)
Definition pop_back {A} (stack : list A) : result (A * list A) :=
  match reverse stack with
  | [] => Abort Undefined
  | x :: rest => Ok (x, reverse rest)
  end.

(** The state the verifier threads through a block: the allocation (which
    [operator[]] can extend), the register file and the stack. *)
Definition VerifyState : Type :=
  gmap Value SlotNumber * gmap SlotNumber nat * list nat.

(** Body of the [phi->eachArg] lambda in [verifyBB]. *)
Definition verifyPhiArg (phi : nat) (slot : SlotNumber)
    (alloc : gmap Value SlotNumber) (arg : Value) :
    result (gmap Value SlotNumber) :=
  match Instruction_Cast arg with
  | None => Ok alloc
  | Some i =>
      if decide (allocOrDefault alloc arg <> slot)
      then Abort (PhiInputAllocation phi i)
      else Ok (touch alloc arg)
  end.

(** Body of the [i->eachArgRev] lambda in [verifyBB]. *)
Definition verifyArg (alloc : gmap Value SlotNumber)
    (reg : gmap SlotNumber nat) (stack : list nat) (a : Value) :
    result (list nat) :=
  match Instruction_Cast a with
  | None => Ok stack
  | Some i =>
      match alloc !! a with
      | None => Abort (NotAllocated i)
      | Some slot =>
          gs ← (if slot =? stackSlot then pop_back stack
                else given ← at_ reg slot; Ok (given, stack));
          if decide (gs.1 <> i) then Abort (WrongValue slot i) else Ok gs.2
      end
  end.

(** "Remember this instruction if it writes to a slot". *)
Definition writeResult (i : Instruction) (st : VerifyState) : VerifyState :=
  let '(alloc, reg, stack) := st in
  match alloc !! val i with
  | None => st
  | Some slot =>
      if slot =? stackSlot then (alloc, reg, stack ++ [ptr i])
      else (alloc, <[slot := ptr i]> reg, stack)
  end.

(** Body of [for (auto i : *bb)] in [verifyBB]. *)
Definition verifyInstr (st : VerifyState) (i : Instruction) :
    result VerifyState :=
  let '(alloc, reg, stack) := st in
  if isPhi i then
    slot ← at_ alloc (val i);
    alloc' ← foldM (verifyPhiArg (ptr i) slot) alloc (phiEachArg i).*2;
    stack' ← (if slot =? stackSlot then gs ← pop_back stack; Ok gs.2
              else Ok stack);
    Ok (writeResult i (alloc', reg, stack'))
  else
    stack' ← foldM (verifyArg alloc reg) stack (eachArgRev i);
    Ok (writeResult i (alloc, reg, stack')).

(** The check after the loop: a block without successors must leave the
    stack empty. *)
Definition terminalCheck (bb : nat) (b : BB) (stack : list nat) : result unit :=
  if bool_decide (next0 b = None) && bool_decide (next1 b = None) then
    if negb (length stack =? 0)%nat
    then Abort (ReturnWithStack bb (length stack))
    else Ok tt
  else Ok tt.

(** [verifyBB]. [branchTaken] and [allocation] are shared by all calls and
    threaded through; the register file and stack are passed down only (no
    caller reads them after a call returns). Both recursive calls receive
    the state at the end of this block: the first one gets copies when a
    second successor exists, and is the last use otherwise. *)
Fixpoint verifyBB (fuel : nat) (code : Code) (bb : nat)
    (shared : gmap Value SlotNumber * gset (nat * nat))
    (reg : gmap SlotNumber nat) (stack : list nat) :
    result (gmap Value SlotNumber * gset (nat * nat)) :=
  match fuel with
  | O => OutOfFuel
  | S fuel' =>
      let b := getBB code bb in
      st ← foldM verifyInstr (shared.1, reg, stack) (instrs b);
      _ ← terminalCheck bb b st.2;
      let shared0 := (st.1.1, shared.2) in
      shared1 ←
        match next0 b with
        | Some n0 =>
            if bool_decide ((bb, n0) ∈ shared0.2) then Ok shared0
            else verifyBB fuel' code n0 (shared0.1, {[(bb, n0)]} ∪ shared0.2)
                   st.1.2 st.2
        | None => Ok shared0
        end;
      match next1 b with
      | Some n1 =>
          if bool_decide ((bb, n1) ∈ shared1.2) then Ok shared1
          else verifyBB fuel' code n1 (shared1.1, {[(bb, n1)]} ∪ shared1.2)
                 st.1.2 st.2
      | None => Ok shared1
      end
  end.

(** [SSAAllocator::verify]. *)
Definition verify (fuel : nat) (code : Code) (alloc : gmap Value SlotNumber) :
    result (gmap Value SlotNumber * gset (nat * nat)) :=
  verifyBB fuel code (entry code) (alloc, ∅) ∅ [].

(** ** The emitter of Pir2Rir::compileCode and Pir2RirCompiler::compile *)

(** The bytecodes the emitter writes, named by their [BC::] factories;
    [label] stands for [cs << bbLabels[bb]] and [srcIdx] for
    [cs.addSrcIdx(i)]. *)
Module BC.
Inductive t :=
| push (c : nat) | parentEnv | ldloc (n : N) | stloc (n : N)
| setEnv | getEnv | pop | swap
| ldfun (name : nat) | ldvarNoForce (name : nat)
| ldvarNoForceSuper (name : nat) | stvar (name : nat) | stvarSuper (name : nat)
| forSeqSize | ldarg (id : nat)
| brfalse (l : nat) | br (l : nat) | ret
| promise (idx : nat) | close | is_ (tag : nat)
| subassign2 (sym : nat) | subassign1 | makeEnv
| identical | lglOr | lglAnd | inc | force | asbool | length | checkMissing
| isfun | seq | isObj | int3
| add | sub | mul | div | idiv | mod_ | pow | lt | gt | ge | le | eq | ne
| colon | asLogical | uplus | uminus | Not
| extract1_1 | extract2_1 | extract1_2 | extract2_2
| call (nargs : nat) (ast : nat)
| staticCall (nargs : nat) (ast : nat) (target : nat)
| label (l : nat) | srcIdx (i : nat).
End BC.

Definition R_NilValue : nat := 0%nat.
Definition R_UnboundValue : nat := 1%nat.

Inductive DebugFlag :=
| PrintCSSA | DebugAllocator | PrintLivenessIntervals | PrintFinalPir
| PrintFinalRir | DryRun.

Global Instance DebugFlag_eq_dec : EqDecision DebugFlag.
Proof. solve_decision. Defined.

(** [debug.includes(flag)] *)
Definition includes (debug : list DebugFlag) (f : DebugFlag) : bool :=
  bool_decide (f ∈ debug).

(** [CodeStream]: the bytecode written so far and the next label of
    [mkLabel()]. *)
Record CodeStream := mkCodeStream {
  ast : nat;
  bcs : list BC.t;
  nextLabel : nat
}.

Definition emit (cs : CodeStream) (b : list BC.t) : CodeStream :=
  {| ast := ast cs; bcs := bcs cs ++ b; nextLabel := nextLabel cs |}.

(** A finalized code object of the function being written. *)
Record CodeObject := mkCodeObject {
  co_ast : nat;
  co_bytecode : list BC.t;
  co_isDefaultArg : bool;
  co_localsCnt : N
}.

(** [rir::Function]: its code objects and the fields [compile] copies. *)
Record RirFunction := mkRirFunction {
  codeObjects : list CodeObject;
  invocationCount : nat;
  envLeaked : bool;
  envChanged : bool;
  signature : nat
}.

(** Modelled from the spec: [DispatchTable] is declared in the runtime
    headers, which are not part of the sources at hand. Section 6: it
    "exposes capacity(), available(tier), first(), put(tier, function)";
    tier 0 is the baseline. *)
Record DispatchTable := mkDispatchTable {
  capacity : nat;
  tiers : gmap nat RirFunction
}.

Definition available (dt : DispatchTable) (tier : nat) : bool :=
  bool_decide (is_Some (tiers dt !! tier)).

Definition first (dt : DispatchTable) : option RirFunction := tiers dt !! 0%nat.

Definition put (tier : nat) (f : RirFunction) (dt : DispatchTable) :
    DispatchTable :=
  {| capacity := capacity dt; tiers := <[tier := f]> (tiers dt) |}.

(** A [Code*] with the block orders of the three visitors that walk it
    ([Visitor], [BreadthFirstVisitor], [DominatorTreeVisitor]; they are
    defined in [util/visitor.h], not among the sources at hand). *)
Record CodeUnit := mkCodeUnit {
  ucode : Code;
  visitOrder : list nat;
  bfsOrder : list nat;
  domOrder : list nat
}.

Record Closure := mkClosure {
  cbody : CodeUnit;
  defaultArgs : list (option nat);   (* [Promise*], null for no default *)
  argNames : list nat
}.

Record Promise := mkPromise {
  pbody : CodeUnit;
  srcPoolIdx : nat
}.

Inductive CodeRef := ClosureRef (c : nat) | PromiseRef (p : nat).

(** Everything outside one [Pir2Rir] object that lowering reads or writes:
    the IR of closures and promises (which [toCSSA] rewrites in place), the
    compiler's [done] set, the dispatch tables (named by their [SEXP]) and
    the number of function objects [FunctionWriter::create] has allocated. *)
Record World := mkWorld {
  closures : gmap nat Closure;
  promises : gmap nat Promise;
  done : gset nat;
  tables : gmap nat DispatchTable;
  allocated : nat
}.

(** The members of one [Pir2Rir] object and of its [FunctionWriter]. *)
Record Pir2Rir := mkPir2Rir {
  written : list CodeObject;
  promIdx : gmap nat nat;            (* [promises] *)
  promNames : gmap nat nat           (* [argNames] *)
}.

(** Constant data of the runtime: [BODY(origin)] names the dispatch table
    of a closure object, [Pool::get] and [src_pool_at] read the pools. *)
Record Runtime := mkRuntime {
  BODY : nat -> nat;
  Pool_get : nat -> nat;
  src_pool_at : nat -> nat
}.

Definition getUnit (w : World) (r : CodeRef) : result CodeUnit :=
  match r with
  | ClosureRef c =>
      match closures w !! c with
      | Some cl => Ok (cbody cl)
      | None => Abort Undefined
      end
  | PromiseRef p =>
      match promises w !! p with
      | Some pr => Ok (pbody pr)
      | None => Abort Undefined
      end
  end.

Definition withCode (code : Code) (u : CodeUnit) : CodeUnit :=
  {| ucode := code; visitOrder := visitOrder u; bfsOrder := bfsOrder u;
     domOrder := domOrder u |}.

(** The IR object behind [r] after [toCSSA] has rewritten it. *)
Definition setCode (r : CodeRef) (code : Code) (w : World) : World :=
  match r with
  | ClosureRef c =>
      {| closures := alter (fun cl => {| cbody := withCode code (cbody cl);
                                         defaultArgs := defaultArgs cl;
                                         argNames := argNames cl |})
                           c (closures w);
         promises := promises w; done := done w; tables := tables w;
         allocated := allocated w |}
  | PromiseRef p =>
      {| closures := closures w;
         promises := alter (fun pr => {| pbody := withCode code (pbody pr);
                                         srcPoolIdx := srcPoolIdx pr |})
                           p (promises w);
         done := done w; tables := tables w; allocated := allocated w |}
  end.

Definition withTables (f : gmap nat DispatchTable -> gmap nat DispatchTable)
    (w : World) : World :=
  {| closures := closures w; promises := promises w; done := done w;
     tables := f (tables w); allocated := allocated w |}.

Definition withDone (d : gset nat) (w : World) : World :=
  {| closures := closures w; promises := promises w; done := d;
     tables := tables w; allocated := allocated w |}.

Definition withAllocated (n : nat) (w : World) : World :=
  {| closures := closures w; promises := promises w; done := done w;
     tables := tables w; allocated := n |}.

(** [SSAAllocator::hasSlot], [onStack], [operator[]] and [slots]. *)
Definition hasSlot (alloc : gmap Value SlotNumber) (v : Value) : bool :=
  bool_decide (is_Some (alloc !! v)).

Definition onStack (alloc : gmap Value SlotNumber) (v : Value) : result bool :=
  s ← at_ alloc v; Ok (s =? stackSlot).

Definition localOf (alloc : gmap Value SlotNumber) (v : Value) : result N :=
  s ← at_ alloc v;
  if s =? stackSlot then Abort AssertionFailed
  else Ok ((s + 18446744073709551615) mod 18446744073709551616).

Definition slots (alloc : gmap Value SlotNumber) : N :=
  foldl (fun max a =>
           if negb (a.2 =? stackSlot) && (max <? a.2)
           then a.2 mod 4294967296 else max)
        0 (map_to_list alloc).

(** The lambda [explicitEnvValue]. *)
Definition explicitEnvValue (i : Instruction) : bool :=
  bool_decide (tag i = Tag.MkEnv) || bool_decide (tag i = Tag.Deopt).

Definition hasEnv (i : Instruction) : bool := bool_decide (is_Some (envSlot i)).

(** [instr->envSlot() == instr->nargs() - 1], in [size_t] arithmetic. *)
Definition envIsLastArg (i : Instruction) : bool :=
  match envSlot i with
  | Some k =>
      N.of_nat k =? (N.of_nat (nargs i) + 18446744073709551615)
                    mod 18446744073709551616
  | None => false
  end.

(** [instr->env()]: the argument at [envSlot()]. *)
Definition env (i : Instruction) : result Value :=
  match envSlot i with
  | Some k => match args i !! k with
              | Some v => Ok v
              | None => Abort Undefined
              end
  | None => Abort Undefined
  end.

(** The lambda [loadEnv]. *)
Definition loadEnv (alloc : gmap Value SlotNumber) (cs : CodeStream)
    (what : Value) : result CodeStream :=
  match what with
  | VEnv rho => Ok (emit cs [BC.push rho])
  | VNotClosed => Ok (emit cs [BC.parentEnv])
  | _ =>
      if negb (hasSlot alloc what) then Abort AssertionFailed
      else
        s ← onStack alloc what;
        if negb s then n ← localOf alloc what; Ok (emit cs [BC.ldloc n])
        else Ok cs
  end.

(** The lambda [loadArg]. *)
Definition loadArg (alloc : gmap Value SlotNumber) (i : Instruction)
    (cs : CodeStream) (what : Value) : result CodeStream :=
  if decide (what = VMissing) then
    if bool_decide (tag i = Tag.MkArg) then Ok (emit cs [BC.push R_UnboundValue])
    else Abort AssertionFailed
  else if negb (hasSlot alloc what) then Abort AssertionFailed
  else
    s ← onStack alloc what;
    if negb s then n ← localOf alloc what; Ok (emit cs [BC.ldloc n])
    else Ok cs.

(** "Step one: load and set env". The state is the stream and
    [currentEnv] ([VNull] for [nullptr]). *)
Definition loadAndSetEnv (alloc : gmap Value SlotNumber) (i : Instruction)
    (st : CodeStream * Value) : result (CodeStream * Value) :=
  if negb (isPhi i) then
    if hasEnv i && negb (explicitEnvValue i) then
      if negb (envIsLastArg i) then Abort AssertionFailed
      else
        e ← env i;
        if decide (st.2 <> e) then
          cs ← loadEnv alloc st.1 e;
          Ok (emit cs [BC.setEnv], e)
        else if hasSlot alloc e then
          s ← onStack alloc e;
          Ok (if s : bool then emit st.1 [BC.pop] else st.1, st.2)
        else Ok st
    else Ok st
  else Ok st.

(** "Step two: load the rest": body of the [eachArg] lambda. *)
Definition loadRestArg (alloc : gmap Value SlotNumber) (i : Instruction)
    (cs : CodeStream) (what : Value) : result CodeStream :=
  if hasEnv i then
    e ← env i;
    if decide (e = what) then
      if explicitEnvValue i then loadEnv alloc cs what else Ok cs
    else loadArg alloc i cs what
  else loadArg alloc i cs what.

(** The block "Load Arguments to the stack". *)
Definition loadArguments (alloc : gmap Value SlotNumber) (i : Instruction)
    (st : CodeStream * Value) : result (CodeStream * Value) :=
  st1 ← loadAndSetEnv alloc i st;
  if negb (isPhi i) then
    cs ← foldM (loadRestArg alloc i) st1.1 (args i);
    Ok (cs, st1.2)
  else Ok st1.

(** The cases [SIMPLE(Name, Factory)] of the opcode switch. *)
Definition simpleBC (t : Tag.t) : option BC.t :=
  match t with
  | Tag.Identical => Some BC.identical | Tag.LOr => Some BC.lglOr
  | Tag.LAnd => Some BC.lglAnd | Tag.Inc => Some BC.inc
  | Tag.Force => Some BC.force | Tag.AsTest => Some BC.asbool
  | Tag.Length => Some BC.length | Tag.ChkMissing => Some BC.checkMissing
  | Tag.ChkClosure => Some BC.isfun | Tag.Seq => Some BC.seq
  | Tag.MkCls => Some BC.close | Tag.Subassign1_1D => Some BC.subassign1
  | Tag.IsObject => Some BC.isObj | Tag.Int3 => Some BC.int3
  | _ => None
  end.

(** The cases [SIMPLE_WITH_SRCIDX(Name, Factory)]. *)
Definition srcIdxBC (t : Tag.t) : option BC.t :=
  match t with
  | Tag.Add => Some BC.add | Tag.Sub => Some BC.sub | Tag.Mul => Some BC.mul
  | Tag.Div => Some BC.div | Tag.IDiv => Some BC.idiv
  | Tag.Mod => Some BC.mod_ | Tag.Pow => Some BC.pow
  | Tag.Lt => Some BC.lt | Tag.Gt => Some BC.gt
  | Tag.Lte => Some BC.ge | Tag.Gte => Some BC.le
  | Tag.Eq => Some BC.eq | Tag.Neq => Some BC.ne
  | Tag.Colon => Some BC.colon | Tag.AsLogical => Some BC.asLogical
  | Tag.Plus => Some BC.uplus | Tag.Minus => Some BC.uminus
  | Tag.Not => Some BC.Not
  | Tag.Extract1_1D => Some BC.extract1_1
  | Tag.Extract2_1D => Some BC.extract2_1
  | Tag.Extract1_2D => Some BC.extract1_2
  | Tag.Extract2_2D => Some BC.extract2_2
  | _ => None
  end.

(** "jump through empty blocks": [while (next->isEmpty()) next = next->next0]. *)
Fixpoint skipEmpty (fuel : nat) (code : Code) (next : option nat) : result nat :=
  match next with
  | None => Abort Undefined
  | Some n =>
      match instrs (getBB code n) with
      | _ :: _ => Ok n
      | [] =>
          match fuel with
          | O => OutOfFuel
          | S fuel' => skipEmpty fuel' code (next0 (getBB code n))
          end
      end
  end.

(** [bbLabels[bb]] *)
Definition labelOf (bbLabels : gmap nat nat) (bb : nat) : nat :=
  default 0%nat (bbLabels !! bb).

(** What the emitter holds while it walks a block: the stream of the code
    being written, [currentEnv], the enclosing [Pir2Rir] object and the
    world. *)
Record EmitState := mkEmitState {
  es_cs : CodeStream;
  es_env : Value;
  es_p2r : Pir2Rir;
  es_world : World
}.

Definition emitBC (st : EmitState) (b : list BC.t) : EmitState :=
  {| es_cs := emit (es_cs st) b; es_env := es_env st; es_p2r := es_p2r st;
     es_world := es_world st |}.

(** The three ways the emitter re-enters the lowering. *)
Record Lowering := mkLowering {
  lowerPromise : nat -> Pir2Rir * World -> result (nat * (Pir2Rir * World));
  lowerClosure : nat -> World -> result (RirFunction * World);
  compileClosure : nat -> nat -> World -> result World
}.

(** The assertion in the case [Tag::Phi] for one argument. *)
Definition phiInOneSlot (alloc : gmap Value SlotNumber) (phi arg : Value) :
    result unit :=
  sp ← onStack alloc phi;
  both ← (if sp : bool then onStack alloc arg else Ok false);
  if both : bool then Ok tt
  else
    a ← localOf alloc phi;
    b ← localOf alloc arg;
    if a =? b then Ok tt else Abort AssertionFailed.

(** [switch (instr->tag)]. The boolean says that the case ended in
    [return], which ends the block. A subclass read through a cast that does
    not fit the object is undefined. *)
Definition emitOpcode (rec : Lowering) (rt : Runtime) (debug : list DebugFlag)
    (fuel : nat) (code : Code) (bb : nat) (bbLabels : gmap nat nat)
    (alloc : gmap Value SlotNumber) (i : Instruction) (st : EmitState) :
    result (EmitState * bool) :=
  match tag i, imm i with
  | Tag.LdConst, ImmSexp c => Ok (emitBC st [BC.push c], false)
  | Tag.LdFun, ImmSexp n => Ok (emitBC st [BC.ldfun n], false)
  | Tag.LdVar, ImmSexp n => Ok (emitBC st [BC.ldvarNoForce n], false)
  | Tag.ForSeqSize, _ =>
      Ok (emitBC st [BC.forSeqSize; BC.swap; BC.pop], false)
  | Tag.LdArg, ImmArg id => Ok (emitBC st [BC.ldarg id], false)
  | Tag.StVarSuper, ImmSexp n => Ok (emitBC st [BC.stvarSuper n], false)
  | Tag.LdVarSuper, ImmSexp n => Ok (emitBC st [BC.ldvarNoForceSuper n], false)
  | Tag.StVar, ImmSexp n => Ok (emitBC st [BC.stvar n], false)
  | Tag.Branch, _ =>
      n0 ← skipEmpty fuel code (next0 (getBB code bb));
      n1 ← skipEmpty fuel code (next1 (getBB code bb));
      Ok (emitBC st [BC.brfalse (labelOf bbLabels n0);
                     BC.br (labelOf bbLabels n1)], true)
  | Tag.Return, _ => Ok (emitBC st [BC.ret], true)
  | Tag.MkArg, ImmProm prom =>
      r ← lowerPromise rec prom (es_p2r st, es_world st);
      Ok ({| es_cs := emit (es_cs st) [BC.promise r.1]; es_env := es_env st;
             es_p2r := r.2.1; es_world := r.2.2 |}, false)
  | Tag.MkFunCls, ImmFunCls cls fml dtSexp src =>
      match tables (es_world st) !! dtSexp with
      | None => Abort Undefined
      | Some dt =>
          w ← (if (1 <? capacity dt)%nat && negb (available dt 1) then
                 r ← lowerClosure rec cls (es_world st);
                 if negb (includes debug DryRun)
                 then Ok (withTables (alter (put 1 r.1) dtSexp) r.2)
                 else Ok r.2
               else Ok (es_world st));
          Ok ({| es_cs := emit (es_cs st)
                            [BC.push fml; BC.push dtSexp; BC.push src; BC.close];
                 es_env := es_env st; es_p2r := es_p2r st; es_world := w |},
              false)
      end
  | Tag.Is, ImmSexp t => Ok (emitBC st [BC.is_ t], false)
  | Tag.Subassign2_1D, ImmSexp sym => Ok (emitBC st [BC.subassign2 sym], false)
  | Tag.PirCopy, _ | Tag.CastType, _ => Ok (st, false)
  | Tag.LdFunctionEnv, _ => Ok (emitBC st [BC.getEnv], false)
  | Tag.Call, ImmCall n =>
      Ok (emitBC st [BC.call n (Pool_get rt (srcIdx i))], false)
  | Tag.StaticCall, ImmStaticCall n cls origin =>
      w ← compileClosure rec cls origin (es_world st);
      Ok ({| es_cs := emit (es_cs st)
                        [BC.staticCall n (Pool_get rt (srcIdx i)) origin];
             es_env := es_env st; es_p2r := es_p2r st; es_world := w |}, false)
  | Tag.CallBuiltin, ImmBuiltin n blt =>
      Ok (emitBC st [BC.staticCall n (Pool_get rt (srcIdx i)) blt], false)
  | Tag.CallSafeBuiltin, ImmSafeBuiltin blt =>
      Ok (emitBC st [BC.staticCall (nargs i) (Pool_get rt (srcIdx i)) blt], false)
  | Tag.MkEnv, ImmLocals names =>
      if (0 <? length names)%nat then
        Ok ({| es_cs := emit (es_cs st)
                          ([BC.makeEnv; BC.setEnv]
                           ++ (BC.stvar <$> reverse names) ++ [BC.getEnv]);
               es_env := val i; es_p2r := es_p2r st;
               es_world := es_world st |}, false)
      else Ok (emitBC st [BC.makeEnv], false)
  | Tag.Phi, _ =>
      _ ← foldM (fun _ arg => phiInOneSlot alloc (val i) arg) tt
            (phiEachArg i).*2;
      Ok (st, false)
  | Tag.Deopt, _ =>
      Ok (emitBC st (((fun _ => BC.pop) <$> args i)
                     ++ [BC.int3; BC.push R_NilValue; BC.ret]), true)
  | Tag.Missing, _ | Tag.Env, _ | Tag.Nil, _ | Tag._UNUSED_, _ =>
      Ok (st, false)
  | t, _ =>
      match simpleBC t, srcIdxBC t with
      | Some b, _ => Ok (emitBC st [b], false)
      | None, Some b => Ok (emitBC st [b; BC.srcIdx (srcIdx i)], false)
      | None, None => Abort Undefined
      end
  end.

(** "Store the result". *)
Definition storeResult (alloc : gmap Value SlotNumber) (i : Instruction)
    (cs : CodeStream) : result CodeStream :=
  if negb (voyd i) && negb (isPhi i) then
    if negb (hasSlot alloc (val i)) then Ok (emit cs [BC.pop])
    else
      s ← onStack alloc (val i);
      if negb s then n ← localOf alloc (val i); Ok (emit cs [BC.stloc n])
      else Ok cs
  else Ok cs.

(** Body of [for (auto it = bb->begin(); it != bb->end(); ++it)] in the
    emitter. *)
Definition emitInstr (rec : Lowering) (rt : Runtime) (debug : list DebugFlag)
    (fuel : nat) (code : Code) (bb : nat) (bbLabels : gmap nat nat)
    (alloc : gmap Value SlotNumber) (i : Instruction) (st : EmitState) :
    result (EmitState * bool) :=
  ce ← loadArguments alloc i (es_cs st, es_env st);
  r ← emitOpcode rec rt debug fuel code bb bbLabels alloc i
        {| es_cs := ce.1; es_env := ce.2; es_p2r := es_p2r st;
           es_world := es_world st |};
  if r.2 : bool then Ok r
  else
    cs ← storeResult alloc i (es_cs r.1);
    Ok ({| es_cs := cs; es_env := es_env r.1; es_p2r := es_p2r r.1;
           es_world := es_world r.1 |}, false).

(** The instructions of a block in turn, until one ends the block. *)
Fixpoint emitInstrs (rec : Lowering) (rt : Runtime) (debug : list DebugFlag)
    (fuel : nat) (code : Code) (bb : nat) (bbLabels : gmap nat nat)
    (alloc : gmap Value SlotNumber) (ins : list Instruction) (st : EmitState) :
    result (EmitState * bool) :=
  match ins with
  | [] => Ok (st, false)
  | i :: rest =>
      r ← emitInstr rec rt debug fuel code bb bbLabels alloc i st;
      if r.2 : bool then Ok r
      else emitInstrs rec rt debug fuel code bb bbLabels alloc rest r.1
  end.

(** The lambda of the second [BreadthFirstVisitor::run] of [compileCode]. *)
Definition emitBB (rec : Lowering) (rt : Runtime) (debug : list DebugFlag)
    (fuel : nat) (code : Code) (bbLabels : gmap nat nat)
    (alloc : gmap Value SlotNumber)
    (st : CodeStream * (Pir2Rir * World)) (bb : nat) :
    result (CodeStream * (Pir2Rir * World)) :=
  let b := getBB code bb in
  match instrs b with
  | [] => Ok st
  | _ :: _ =>
      r ← emitInstrs rec rt debug fuel code bb bbLabels alloc (instrs b)
            {| es_cs := emit st.1 [BC.label (labelOf bbLabels bb)];
               es_env := VNull; es_p2r := st.2.1; es_world := st.2.2 |};
      if r.2 : bool then Ok (es_cs r.1, (es_p2r r.1, es_world r.1))
      else
        match next0 b with
        | None => Abort AssertionFailed
        | Some _ =>
            next ← skipEmpty fuel code (next0 b);
            Ok (emit (es_cs r.1) [BC.br (labelOf bbLabels next)],
                (es_p2r r.1, es_world r.1))
        end
  end.

(** "create labels for all bbs" *)
Definition mkLabels (code : Code) (st : CodeStream * gmap nat nat) (bb : nat) :
    CodeStream * gmap nat nat :=
  match instrs (getBB code bb) with
  | [] => st
  | _ :: _ =>
      ({| ast := ast st.1; bcs := bcs st.1; nextLabel := S (nextLabel st.1) |},
       <[bb := nextLabel st.1]> st.2)
  end.

(** [Pir2Rir::compileCode] on the IR behind [r], writing to the stream
    [cs]. [fuel] bounds each of the loops of the passes. *)
Definition compileCode (rec : Lowering) (rt : Runtime) (debug : list DebugFlag)
    (fuel : nat) (r : CodeRef) (cs : CodeStream) (pw : Pir2Rir * World) :
    result (N * CodeStream * (Pir2Rir * World)) :=
  u ← getUnit pw.2 r;
  code ← toCSSA fuel (bfsOrder u) (ucode u);
  let w := setCode r code pw.2 in
  li ← computeLiveness fuel (cfgOf code) code;
  alloc0 ← allocate fuel li code (visitOrder u) (domOrder u);
  v ← verify fuel code alloc0;
  let alloc := v.1 in
  let lb := foldl (mkLabels code) (cs, ∅) (bfsOrder u) in
  out ← foldM (emitBB rec rt debug fuel code lb.2 alloc) (lb.1, (pw.1, w))
          (bfsOrder u);
  Ok (slots alloc, out.1, out.2).

(** Modelled from the spec: [CodeStream::finalize] is declared in
    [ir/CodeStream.h], which is not part of the sources at hand. Section 6:
    a stream is "finalized with a locals count and a flag indicating whether
    it is a default-argument body" and yields an index; the index is the
    position of the code object in the function. *)
Definition finalizeCode (isDefaultArg : bool) (localsCnt : N) (cs : CodeStream)
    (p : Pir2Rir) : nat * Pir2Rir :=
  (length (written p),
   {| written := written p ++ [{| co_ast := ast cs; co_bytecode := bcs cs;
                                  co_isDefaultArg := isDefaultArg;
                                  co_localsCnt := localsCnt |}];
      promIdx := promIdx p; promNames := promNames p |}).

Definition newStream (a : nat) : CodeStream :=
  {| ast := a; bcs := []; nextLabel := 0 |}.

(** [Pir2Rir::getPromiseIdx]. *)
Definition getPromiseIdx (rec : Lowering) (rt : Runtime)
    (debug : list DebugFlag) (fuel : nat) (p : nat) (pw : Pir2Rir * World) :
    result (nat * (Pir2Rir * World)) :=
  match promIdx pw.1 !! p with
  | Some idx => Ok (idx, pw)
  | None =>
      match promises pw.2 !! p with
      | None => Abort Undefined
      | Some pr =>
          c ← compileCode rec rt debug fuel (PromiseRef p)
                (newStream (src_pool_at rt (srcPoolIdx pr))) pw;
          let f := finalizeCode false c.1.1 c.1.2 c.2.1 in
          let p2r := {| written := written f.2;
                        promIdx := <[p := f.1]> (promIdx f.2);
                        promNames := promNames f.2 |} in
          Ok (f.1, (p2r, c.2.2))
      end
  end.

(** The loop over [cls->defaultArgs] in [Pir2Rir::finalize]; [k] is the
    counter [i]. *)
Definition finalizeDefaultArg (rec : Lowering) (rt : Runtime)
    (debug : list DebugFlag) (fuel : nat) (names : list nat)
    (st : nat * (Pir2Rir * World)) (arg : option nat) :
    result (nat * (Pir2Rir * World)) :=
  match arg with
  | None => Ok st
  | Some a =>
      r ← getPromiseIdx rec rt debug fuel a st.2;
      match names !! st.1 with
      | None => Abort Undefined
      | Some name =>
          Ok (S st.1,
              ({| written := written r.2.1; promIdx := promIdx r.2.1;
                  promNames := <[a := name]> (promNames r.2.1) |}, r.2.2))
      end
  end.

(** [Pir2Rir::finalize] for the closure [cls]. *)
Definition finalize (rec : Lowering) (rt : Runtime) (debug : list DebugFlag)
    (fuel : nat) (cls : nat) (w : World) : result (RirFunction * World) :=
  match closures w !! cls with
  | None => Abort Undefined
  | Some cl =>
      let w0 := withAllocated (S (allocated w)) w in
      d ← foldM (finalizeDefaultArg rec rt debug fuel (argNames cl))
            (0%nat, ({| written := []; promIdx := ∅; promNames := ∅ |}, w0))
            (defaultArgs cl);
      c ← compileCode rec rt debug fuel (ClosureRef cls) (newStream R_NilValue)
            d.2;
      let f := finalizeCode false c.1.1 c.1.2 c.2.1 in
      Ok ({| codeObjects := written f.2; invocationCount := 0;
             envLeaked := false; envChanged := false; signature := 0 |},
          c.2.2)
  end.

(** [Pir2RirCompiler::compile(cls, origin)], with the call of
    [Pir2Rir::finalize] passed as [lower]. *)
Definition compileWith (lower : nat -> World -> result (RirFunction * World))
    (rt : Runtime) (debug : list DebugFlag) (cls origin : nat) (w : World) :
    result World :=
  if bool_decide (cls ∈ done w) then Ok w
  else
    let w1 := withDone ({[cls]} ∪ done w) w in
    match tables w1 !! BODY rt origin with
    | None => Abort Undefined
    | Some table =>
        if available table 1 then Ok w1
        else
          r ← lower cls w1;
          if includes debug DryRun then Ok r.2
          else
            match tables r.2 !! BODY rt origin with
            | None => Abort Undefined
            | Some table' =>
                match first table' with
                | None => Abort Undefined
                | Some oldFun =>
                    let fun_ := {| codeObjects := codeObjects r.1;
                                   invocationCount := invocationCount oldFun;
                                   envLeaked := envLeaked oldFun;
                                   envChanged := envChanged oldFun;
                                   signature := signature oldFun |} in
                    Ok (withTables (alter (put 1 fun_) (BODY rt origin)) r.2)
                end
            end
    end.

(** The recursion through nested closures, promises and static calls;
    [depth] bounds its depth, [fuel] the loops of the passes. *)
Fixpoint lowering (depth : nat) (rt : Runtime) (debug : list DebugFlag)
    (fuel : nat) : Lowering :=
  match depth with
  | O => {| lowerPromise := fun _ _ => OutOfFuel;
            lowerClosure := fun _ _ => OutOfFuel;
            compileClosure := fun _ _ _ => OutOfFuel |}
  | S depth' =>
      let rec := lowering depth' rt debug fuel in
      {| lowerPromise := getPromiseIdx rec rt debug fuel;
         lowerClosure := finalize rec rt debug fuel;
         compileClosure := compileWith (finalize rec rt debug fuel) rt debug |}
  end.

(** [Pir2RirCompiler::compile]. *)
Definition compile (depth : nat) (rt : Runtime) (debug : list DebugFlag)
    (fuel : nat) (cls origin : nat) (w : World) : result World :=
  compileClosure (lowering (S depth) rt debug fuel) cls origin w.

(** *** The stack pre-colouring in the words of the specification *)

(** A phi together with its incoming values. *)
Definition phiGroup (p : Instruction) : list Value :=
  val p :: (phiEachArg p).*2.

(** What the sweep writes for one accepted phi. *)
Definition markGroup (alloc : gmap Value SlotNumber) (p : Instruction) :
    gmap Value SlotNumber :=
  markStack (foldl markStack alloc (phiEachArg p).*2) (val p).

(** The incoming value [a.2] is the [j]-th instruction from the end of its
    predecessor [a.1], and that predecessor falls through ([next0]) to [bb]. *)
Definition onTopOfPred (code : Code) (bb j : nat) (a : nat * Value) : Prop :=
  let inbb := getBB code a.1 in
  next0 inbb = Some bb /\ (j <= length (instrs inbb))%nat /\
  val <$> instrs inbb !! (length (instrs inbb) - j)%nat = Some a.2.

Definition phiPasses (code : Code) (bb j : nat) (p : Instruction) : Prop :=
  Forall (onTopOfPred code bb j) (phiEachArg p).

(** [Matched ras deque remaining]: scanning [deque] from its top, the values
    [ras] (the arguments, last one first) are found in this order, each at
    its first occurrence after the previous match; [remaining] is what lies
    below the deepest match. *)
Inductive Matched : list Value -> list Instruction -> list Instruction -> Prop :=
| Matched_nil deque : Matched [] deque deque
| Matched_cons a ras skipped c below remaining :
    Forall (fun x => val x <> a) skipped ->
    val c = a ->
    Matched ras below remaining ->
    Matched (a :: ras) (skipped ++ c :: below) remaining.

(** *** Slot safety *)

(** Both values have a liveness record and [Liveness::interfere] says no. *)
Definition noInterference (li : gmap Value Liveness) (v1 v2 : Value) : Prop :=
  exists l1 l2, li !! v1 = Some l1 /\ li !! v2 = Some l2 /\
                interfere l1 l2 = Ok false.

(** Both values belong to the group of one phi among [phis]: the phi itself
    or one of its incoming values. *)
Definition samePhiGroup (phis : list Instruction) (v1 v2 : Value) : Prop :=
  exists p, p ∈ phis /\ isPhi p = true /\ v1 ∈ phiGroup p /\ v2 ∈ phiGroup p.

(** The claim of slot safety as the specification words it. *)
Definition slotSafety (li : gmap Value Liveness)
    (alloc : gmap Value SlotNumber) : Prop :=
  forall v1 v2 s, v1 <> v2 -> alloc !! v1 = Some s -> alloc !! v2 = Some s ->
                  s <> stackSlot -> noInterference li v1 v2.

(** The invariant of [computeAllocation]: [reverseAlloc] covers the numbered
    part of [allocation], and two members of a slot are either free of
    interference or were put there as one phi group. *)
Definition allocInv (li : gmap Value Liveness) (phis : list Instruction)
    (st : gmap Value SlotNumber * gmap SlotNumber (list Value)) : Prop :=
  (forall v s, st.1 !! v = Some s -> s <> stackSlot -> v ∈ slotMembers st.2 s) /\
  (forall s v1 v2, v1 ∈ slotMembers st.2 s -> v2 ∈ slotMembers st.2 s ->
     v1 <> v2 -> noInterference li v1 v2 \/ samePhiGroup phis v1 v2).

(** [alloc'] extends [alloc] by entries for the stack slot only. *)
Definition onlyStackAdded (alloc alloc' : gmap Value SlotNumber) : Prop :=
  forall v s, alloc' !! v = Some s -> s = stackSlot \/ alloc !! v = Some s.

(** ** Example programs *)

Definition getOk {A} (d : A) (r : result A) : A :=
  match r with Ok a => a | _ => d end.

Definition instr (p : nat) (t : Tag.t) (a : list Value) : Instruction :=
  {| ptr := p; tag := t; args := a; input := []; voyd := false;
     envSlot := None; srcIdx := 0; imm := NoImm |}.

Definition voidInstr (p : nat) (t : Tag.t) (a : list Value) : Instruction :=
  {| ptr := p; tag := t; args := a; input := []; voyd := true;
     envSlot := None; srcIdx := 0; imm := NoImm |}.

Definition phiInstr (p : nat) (ins : list nat) (a : list Value) : Instruction :=
  {| ptr := p; tag := Tag.Phi; args := a; input := ins; voyd := false;
     envSlot := None; srcIdx := 0; imm := NoImm |}.

(** A counting loop.
<<
  BB0:  %1 = LdArg              -> BB1
  BB1:  %2 = Phi(BB0:%1, BB1:%3)
        %3 = Inc %2
        %4 = AsTest %3
        Branch %4               -> BB1 (next0) | BB2 (next1)
  BB2:  Return %3
>> *)
Definition loop : Code :=
  {| entry := 0; nextBBId := 3;
     bbs := list_to_map
       [ (0%nat, {| instrs := [instr 1 Tag.LdArg []];
                    next0 := Some 1%nat; next1 := None |});
         (1%nat, {| instrs := [phiInstr 2 [0; 1]%nat [VInstr 1; VInstr 3];
                               instr 3 Tag.Inc [VInstr 2];
                               instr 4 Tag.AsTest [VInstr 3];
                               voidInstr 5 Tag.Branch [VInstr 4]];
                    next0 := Some 1%nat; next1 := Some 2%nat |});
         (2%nat, {| instrs := [voidInstr 6 Tag.Return [VInstr 3]];
                    next0 := None; next1 := None |}) ] |}.

Definition loop_order : list nat := [0; 1; 2]%nat.

(** The loop with the copies of [toCSSA] in place: the copies %7 and %8
    feed the phi, the copy %9 stands for it. The phi of the loop is fed from
    its own block, so this is what the pass makes of the loop when the
    vector of BB1 has room for the copy %8.
<<
  BB0:  %1 = LdArg
        %7 = PirCopy %1         -> BB1
  BB1:  %2 = Phi(BB0:%7, BB1:%8)
        %9 = PirCopy %2
        %3 = Inc %9
        %4 = AsTest %3
        %8 = PirCopy %3
        Branch %4               -> BB1 (next0) | BB2 (next1)
  BB2:  Return %3
>> *)
Definition loop_cssa : Code :=
  {| entry := 0; nextBBId := 3;
     bbs := list_to_map
       [ (0%nat, {| instrs := [instr 1 Tag.LdArg [];
                               instr 7 Tag.PirCopy [VInstr 1]];
                    next0 := Some 1%nat; next1 := None |});
         (1%nat, {| instrs := [phiInstr 2 [0; 1]%nat [VInstr 7; VInstr 8];
                               instr 9 Tag.PirCopy [VInstr 2];
                               instr 3 Tag.Inc [VInstr 9];
                               instr 4 Tag.AsTest [VInstr 3];
                               instr 8 Tag.PirCopy [VInstr 3];
                               voidInstr 5 Tag.Branch [VInstr 4]];
                    next0 := Some 1%nat; next1 := Some 2%nat |});
         (2%nat, {| instrs := [voidInstr 6 Tag.Return [VInstr 3]];
                    next0 := None; next1 := None |}) ] |}.

(** The liveness and the allocation of the loop. *)
Definition loop_liveness : gmap Value Liveness :=
  getOk ∅ (computeLiveness 20 (cfgOf loop_cssa) loop_cssa).

Definition loop_allocation : gmap Value SlotNumber :=
  getOk ∅ (allocate 10 loop_liveness loop_cssa loop_order loop_order).

(** Two branches that meet in a phi; no block feeds a phi of its own.
<<
  BB0:  %1 = LdArg 0
        %2 = AsTest %1
        Branch %2               -> BB1 (next0) | BB2 (next1)
  BB1:  %3 = Inc %1             -> BB3
  BB2:  %4 = Force %1           -> BB3
  BB3:  %5 = Phi(BB1:%3, BB2:%4)
        Return %5
>> *)
Definition diamond : Code :=
  {| entry := 0; nextBBId := 4;
     bbs := list_to_map
       [ (0%nat, {| instrs := [{| ptr := 1; tag := Tag.LdArg; args := [];
                                  input := []; voyd := false; envSlot := None;
                                  srcIdx := 0; imm := ImmArg 0 |};
                               instr 2 Tag.AsTest [VInstr 1];
                               voidInstr 3 Tag.Branch [VInstr 2]];
                    next0 := Some 1%nat; next1 := Some 2%nat |});
         (1%nat, {| instrs := [instr 4 Tag.Inc [VInstr 1]];
                    next0 := Some 3%nat; next1 := None |});
         (2%nat, {| instrs := [instr 5 Tag.Force [VInstr 1]];
                    next0 := Some 3%nat; next1 := None |});
         (3%nat, {| instrs := [phiInstr 6 [1; 2]%nat [VInstr 4; VInstr 5];
                               voidInstr 7 Tag.Return [VInstr 6]];
                    next0 := None; next1 := None |}) ] |}.

Definition diamond_order : list nat := [0; 1; 2; 3]%nat.

(** The diamond after [toCSSA]. *)
Definition diamond_cssa : Code :=
  getOk diamond (toCSSA 10 diamond_order diamond).

(** A branch around a block; the phi takes one input from the block that
    branches.
<<
  BB0:  %1 = LdArg 0
        %2 = AsTest %1
        Branch %2               -> BB1 (next0) | BB2 (next1)
  BB1:  %4 = Inc %1             -> BB2
  BB2:  %5 = Phi(BB0:%1, BB1:%4)
        Return %5
>> *)
Definition triangle : Code :=
  {| entry := 0; nextBBId := 3;
     bbs := list_to_map
       [ (0%nat, {| instrs := [{| ptr := 1; tag := Tag.LdArg; args := [];
                                  input := []; voyd := false; envSlot := None;
                                  srcIdx := 0; imm := ImmArg 0 |};
                               instr 2 Tag.AsTest [VInstr 1];
                               voidInstr 3 Tag.Branch [VInstr 2]];
                    next0 := Some 1%nat; next1 := Some 2%nat |});
         (1%nat, {| instrs := [instr 4 Tag.Inc [VInstr 1]];
                    next0 := Some 2%nat; next1 := None |});
         (2%nat, {| instrs := [phiInstr 5 [0; 1]%nat [VInstr 1; VInstr 4];
                               voidInstr 6 Tag.Return [VInstr 5]];
                    next0 := None; next1 := None |}) ] |}.

(** The triangle after [toCSSA], its liveness and its allocation. *)
Definition triangle_cssa : Code :=
  getOk triangle (toCSSA 10 loop_order triangle).

Definition triangle_liveness : gmap Value Liveness :=
  getOk ∅ (computeLiveness 20 (cfgOf triangle_cssa) triangle_cssa).

Definition triangle_allocation : gmap Value SlotNumber :=
  getOk ∅ (allocate 10 triangle_liveness triangle_cssa loop_order loop_order).

(** A block that returns while a value is still on the stack: %1 is
    coloured for the stack and never consumed. *)
Definition leak : Code :=
  {| entry := 0; nextBBId := 1;
     bbs := {[ 0%nat := {| instrs := [instr 1 Tag.LdArg [];
                                      voidInstr 2 Tag.Return [VNil]];
                           next0 := None; next1 := None |} ]} |}.

Definition leak_allocation : gmap Value SlotNumber :=
  {[ VInstr 1 := stackSlot ]}.

(** *** Propagation of liveness into predecessors *)

(** [liveAtEnd[b]] read as a set, empty when the block has no entry yet. *)
Definition liveOutOf (lae : gmap nat (gset Value)) (b : nat) : gset Value :=
  default ∅ (lae !! b).

(** The phi inputs that may flow into [pre]: those accumulated for an input
    block that is [pre] itself or from which [pre] is reached according to
    [isPredecessor]. *)
Definition phiInputsFor (cfg : CFG) (accumulatedPhiInput : gmap nat (gset Value))
    (pre : nat) : gset Value :=
  ⋃ (filter (fun in_ => pre = in_.1 \/ isPredecessor cfg in_.1 pre = true)
            (map_to_list accumulatedPhiInput)).*2.

(** Under [DryRun] no part of the lowering writes a dispatch table. *)
Definition keepsTables (rec : Lowering) : Prop :=
  (forall p pw r, lowerPromise rec p pw = Ok r -> tables r.2.2 = tables pw.2) /\
  (forall c w r, lowerClosure rec c w = Ok r -> tables r.2 = tables w) /\
  (forall c o w w', compileClosure rec c o w = Ok w' -> tables w' = tables w).

(** An instruction with the operand [m] of its subclass. *)
Definition withImm (m : Immediate) (i : Instruction) : Instruction :=
  {| ptr := ptr i; tag := tag i; args := args i; input := input i;
     voyd := voyd i; envSlot := envSlot i; srcIdx := srcIdx i; imm := m |}.

(** The diamond as the body of closure 0, whose closure object 100 has a
    dispatch table with the baseline only. *)
Definition diamond_unit : CodeUnit :=
  {| ucode := diamond;
     visitOrder := diamond_order; bfsOrder := diamond_order;
     domOrder := diamond_order |}.

Definition plain_runtime : Runtime :=
  {| BODY := fun o => o; Pool_get := fun i => i; src_pool_at := fun i => i |}.

Definition baseline : RirFunction :=
  {| codeObjects := []; invocationCount := 7; envLeaked := true;
     envChanged := false; signature := 3 |}.

Definition diamond_world : World :=
  {| closures := {[ 0%nat := {| cbody := diamond_unit; defaultArgs := [];
                                argNames := [] |} ]};
     promises := ∅; done := ∅;
     tables := {[ 100%nat := {| capacity := 2;
                                tiers := {[ 0%nat := baseline ]} |} ]};
     allocated := 0 |}.

(** A store whose environment is the first of its two arguments.
<<
  BB0:  %1 = LdConst 7
        StVar x, env=E5, %1     (envSlot 0)
        Return %1
>> *)
Definition envFirstStore : Instruction :=
  {| ptr := 2; tag := Tag.StVar; args := [VEnv 5; VInstr 1]; input := [];
     voyd := true; envSlot := Some 0%nat; srcIdx := 0; imm := ImmSexp 9 |}.

Definition envFirst_world : World :=
  {| closures :=
       {[ 0%nat :=
            {| cbody :=
                 {| ucode :=
                      {| entry := 0; nextBBId := 1;
                         bbs := {[ 0%nat :=
                           {| instrs := [withImm (ImmSexp 7) (instr 1 Tag.LdConst []);
                                         envFirstStore;
                                         voidInstr 3 Tag.Return [VInstr 1]];
                              next0 := None; next1 := None |} ]} |};
                    visitOrder := [0%nat]; bfsOrder := [0%nat];
                    domOrder := [0%nat] |};
               defaultArgs := []; argNames := [] |} ]};
     promises := ∅; done := ∅;
     tables := {[ 100%nat := {| capacity := 2;
                                tiers := {[ 0%nat := baseline ]} |} ]};
     allocated := 0 |}.

(** *** Phi coalescing *)

(** What the allocator relies on after [toCSSA] ("every phi input is only
    used exactly once (by the phi)"), for the instructions [ins] it visits:
    one object per identity, no phi among the inputs of a phi, and no value
    feeding two phis. *)
Definition conventional (ins : list Instruction) : Prop :=
  Forall (fun i => Forall (fun j => ptr i = ptr j -> i = j) ins) ins /\
  Forall (fun p => isPhi p = true ->
     Forall (fun q => isPhi q = true -> val q ∉ (phiEachArg p).*2) ins) ins /\
  Forall (fun p => isPhi p = true ->
     Forall (fun q => isPhi q = true ->
        Forall (fun v => v ∈ (phiEachArg q).*2 -> p = q) (phiEachArg p).*2)
       ins) ins.

Global Instance conventional_dec ins : Decision (conventional ins).
Proof. unfold conventional. apply _. Defined.

(** A phi and all its incoming values sit in one slot. *)
Definition coalesced (alloc : gmap Value SlotNumber) (p : Instruction) : Prop :=
  exists s, forall v, v ∈ phiGroup p -> alloc !! v = Some s.

(** The slot [s] is free for the phi [p] and for each of its inputs. *)
Definition freeForPhi (li : gmap Value Liveness)
    (ra : gmap SlotNumber (list Value)) (p : Instruction) (s : SlotNumber) :
    Prop :=
  forall v, v ∈ phiGroup p -> slotIsAvailable li ra s v = Ok true.

(** The slot [s] was found occupied for the phi or for one of its inputs. *)
Definition takenForPhi (li : gmap Value Liveness)
    (ra : gmap SlotNumber (list Value)) (p : Instruction) (s : SlotNumber) :
    Prop :=
  exists v, v ∈ phiGroup p /\ slotIsAvailable li ra s v = Ok false.

(** Some input of the phi [p] that is an instruction has another allocation
    than [p], both read the way the verifier reads them. *)
Definition phiMismatch (alloc : gmap Value SlotNumber) (p : Instruction) : Prop :=
  isPhi p = true /\
  exists a i, a ∈ (phiEachArg p).*2 /\ Instruction_Cast a = Some i /\
              allocOrDefault alloc a <> allocOrDefault alloc (val p).

(** The blocks reached from the entry along [next0] and [next1]. *)
Definition reachable (code : Code) (b : nat) : Prop :=
  rtc (fun x y => y ∈ successors code x) (entry code) b.

(** All edges of the code. *)
Definition edges (code : Code) : gset (nat * nat) :=
  list_to_set ((map_to_list (bbs code)).*1 ≫=
                 (fun b => (fun n => (b, n)) <$> successors code b)).

(** After the stack pre-colouring: only stack slots, and an allocated phi
    has all its inputs on the stack. *)
Definition stackInv (V : list Instruction) (alloc : gmap Value SlotNumber) :
    Prop :=
  (forall v s, alloc !! v = Some s -> s = stackSlot) /\
  (forall p, p ∈ V -> isPhi p = true -> is_Some (alloc !! val p) ->
     forall v, v ∈ (phiEachArg p).*2 -> alloc !! v = Some stackSlot).

(** During [computeAllocation]: an allocated phi is coalesced. *)
Definition coalescedInv (V : list Instruction)
    (alloc : gmap Value SlotNumber) : Prop :=
  forall p, p ∈ V -> isPhi p = true -> is_Some (alloc !! val p) ->
            coalesced alloc p.

(** Two allocations that the verifier cannot tell apart: they read the same
    through [operator[]]. *)
Definition sameDefault (a b : gmap Value SlotNumber) : Prop :=
  forall v, allocOrDefault b v = allocOrDefault a v.

(** No phi of the block has an input allocated elsewhere. *)
Definition blockOk (code : Code) (alloc0 : gmap Value SlotNumber) (b : nat) :
    Prop :=
  forall p, p ∈ instrs (getBB code b) -> ~ phiMismatch alloc0 p.

(** The block was walked and all its out-edges are in [taken]. *)
Definition explored (code : Code) (alloc0 : gmap Value SlotNumber)
    (taken : gset (nat * nat)) (b : nat) : Prop :=
  blockOk code alloc0 b /\ forall n, n ∈ successors code b -> (b, n) ∈ taken.

(** *** Conventional SSA *)

(** One object per identity: two instructions of the code with the same
    address are the same object. *)
Definition objIdent (code : Code) : Prop :=
  forall i j, i ∈ allInstrs code -> j ∈ allInstrs code -> ptr i = ptr j -> i = j.

(** Every instruction of [code] is still there in [code'], possibly with
    other arguments. *)
Definition persists (code code' : Code) : Prop :=
  forall i, i ∈ allInstrs code ->
            exists j, j ∈ allInstrs code' /\ ptr j = ptr i /\ tag j = tag i.

(** The value [a] is used once in the code: as argument [k] of the
    instruction at address [p]. *)
Definition soleUse (code : Code) (a : Value) (p k : nat) : Prop :=
  forall j k', j ∈ allInstrs code -> args j !! k' = Some a ->
               ptr j = p /\ k' = k.

(** The operand [a], argument [k] of the phi at address [p], is a copy that
    was not in [code0] and that only this phi uses. *)
Definition convArg (code0 code : Code) (p k : nat) (a : Value) : Prop :=
  (exists c, c ∈ allInstrs code /\ val c = a /\ tag c = Tag.PirCopy /\
             forall i, i ∈ allInstrs code0 -> ptr i <> ptr c) /\
  soleUse code a p k.

Definition conventionalPhi (code0 code : Code) (q : Instruction) : Prop :=
  forall k a, args q !! k = Some a -> convArg code0 code (ptr q) k a.

(** The phis of [code'] come from phis of [code] in the same block, and in
    block [bb] the positions below [it] hold the same objects. *)
Definition phisFrom (bb it : nat) (code code' : Code) : Prop :=
  forall b n q', instrs (getBB code' b) !! n = Some q' -> isPhi q' = true ->
    exists n0 q, instrs (getBB code b) !! n0 = Some q /\ ptr q = ptr q' /\
                 isPhi q = true /\ (b = bb -> (n < it)%nat -> n0 = n).

(** The invariant of the loop over the inputs of [phi] in [toCSSA], before
    input [k] is treated; [start] is the code when the loop was entered,
    [code0] the code [toCSSA] was called on. *)
Definition splitInv (code0 : Code) (bb it : nat) (phi : Instruction)
    (start : Code) (k : nat) (code : Code) : Prop :=
  objIdent code /\
  persists code0 code /\
  persists start code /\
  phisFrom bb it start code /\
  (forall q, q ∈ allInstrs start -> ptr q <> ptr phi -> q ∈ allInstrs code) /\
  (forall q, q ∈ allInstrs start -> ptr q <> ptr phi ->
     conventionalPhi code0 start q -> conventionalPhi code0 code q) /\
  (exists phi', phi' ∈ allInstrs code /\ ptr phi' = ptr phi /\
     tag phi' = Tag.Phi /\ length (args phi') = length (args phi) /\
     (forall k', (k <= k')%nat -> args phi' !! k' = args phi !! k') /\
     (forall k' a, (k' < k)%nat -> args phi' !! k' = Some a ->
        convArg code0 code (ptr phi) k' a)) /\
  (exists q, instrs (getBB code bb) !! it = Some q /\
             (ptr q = ptr phi \/ isPhi q = false)).

(** The invariant of the walk of [toCSSA]: the blocks of [visitedBlocks] and
    the positions below [it] of block [bb] have been treated. *)
Definition cssaInv (code0 : Code) (visitedBlocks : list nat) (bb it : nat)
    (code : Code) : Prop :=
  objIdent code /\ persists code0 code /\
  forall b n q, instrs (getBB code b) !! n = Some q -> isPhi q = true ->
    b ∈ visitedBlocks \/ (b = bb /\ (n < it)%nat) ->
    conventionalPhi code0 code q.

(** What [toCSSA] needs to run through: every input of a phi names a block
    of the code that can take a copy (a block that is not a jump has a last
    instruction to insert before), and a block that is not a jump does not
    end in a phi. *)
Definition cssaReady (code : Code) : Prop :=
  (forall phi k, phi ∈ allInstrs code -> isPhi phi = true ->
     (k < length (args phi))%nat ->
     exists pred, input phi !! k = Some pred /\ is_Some (bbs code !! pred) /\
                  (isJmp (getBB code pred) = false ->
                   instrs (getBB code pred) <> [])) /\
  (forall b i, isJmp (getBB code b) = false ->
               last (instrs (getBB code b)) = Some i -> isPhi i = false).

(** No phi takes an input from the block it stands in, so that the pass
    never inserts into the vector it is walking but through its iterator. *)
Definition selfFree (code : Code) : Prop :=
  forall b phi, phi ∈ instrs (getBB code b) -> isPhi phi = true ->
                feedsItself b phi = false.

(** The blocks of [code] are blocks of [code'], as long or longer and with
    the same successors, and the phis of [code'] are phis of [code] with the
    same inputs. *)
Definition grows (code code' : Code) : Prop :=
  (forall b, is_Some (bbs code !! b) -> is_Some (bbs code' !! b)) /\
  (forall b, isJmp (getBB code' b) = isJmp (getBB code b)) /\
  (forall b, (length (instrs (getBB code b)) <=
              length (instrs (getBB code' b)))%nat) /\
  (forall i', i' ∈ allInstrs code' -> isPhi i' = true ->
     exists i, i ∈ allInstrs code /\ isPhi i = true /\ input i = input i' /\
               length (args i) = length (args i')).

(** A bound on the turns the loop over a block has left at position [it]: a
    phi stands for its own turn, the copies it brings into the block and the
    copy of itself. *)
Definition weight (i : Instruction) : nat :=
  if isPhi i then (length (args i) + 3)%nat else 1%nat.

Definition remaining (code : Code) (bb it : nat) : nat :=
  sum_list (weight <$> drop it (instrs (getBB code bb))).

(** The loop over the inputs of [phi] before input [k], for the run to go
    on: the phi is still at position [it] of [bb], and at most [k] copies
    came into [bb] behind it. *)
Definition splitReady (bb it : nat) (phi : Instruction) (start : Code)
    (k : nat) (code : Code) : Prop :=
  cssaReady code /\ grows start code /\
  (exists q, instrs (getBB code bb) !! it = Some q /\ ptr q = ptr phi /\
             tag q = tag phi) /\
  ((S it < length (instrs (getBB code bb)))%nat \/
   isJmp (getBB code bb) = true) /\
  (remaining code bb (S it) <= remaining start bb (S it) + k)%nat.

(** *** The range of the slots *)

(** Every slot of the allocation is the stack or a number from 1 to
    [bound]: never [unassignedSlot]. *)
Definition slotsWithin (bound : N) (alloc : gmap Value SlotNumber) : Prop :=
  forall v s, alloc !! v = Some s -> s = stackSlot \/ 1 <= s <= bound.

(** [alloc'] is [alloc] with keys added by [operator[]], each reading as the
    default-constructed slot. *)
Definition touched (alloc alloc' : gmap Value SlotNumber) : Prop :=
  forall v, alloc' !! v = alloc !! v \/
            (alloc !! v = None /\ alloc' !! v = Some unassignedSlot).

(** No value is allocated to [unassignedSlot]. *)
Definition noZeroSlot (alloc : gmap Value SlotNumber) : Prop :=
  forall v, alloc !! v <> Some unassignedSlot.

(** The verifier walked block [b] to its end without failure, from some
    register file and stack, under an allocation that [alloc0] became by
    reads through [operator[]] (and that is [alloc0] when that holds no slot
    0); a block without successors left the stack empty. *)
Definition blockWalked (code : Code) (alloc0 : gmap Value SlotNumber)
    (b : nat) : Prop :=
  exists alloc reg stack st',
    touched alloc0 alloc /\ (noZeroSlot alloc0 -> alloc = alloc0) /\
    foldM verifyInstr (alloc, reg, stack) (instrs (getBB code b)) = Ok st' /\
    terminalCheck b (getBB code b) st'.2 = Ok tt.

(** *** What [toCSSA] leaves as it is *)

(** [code'] is [code] with copies put into its blocks: the same entry and
    blocks with the same successors, in every block the instructions of
    [code] in their order (as objects: address and tag), and nothing new
    but [PirCopy] instructions. *)
Definition copiesAdded (code code' : Code) : Prop :=
  entry code' = entry code /\ nextBBId code' = nextBBId code /\
  (forall b, is_Some (bbs code' !! b) <-> is_Some (bbs code !! b)) /\
  (forall b, next0 (getBB code' b) = next0 (getBB code b) /\
             next1 (getBB code' b) = next1 (getBB code b)) /\
  (forall b, (fun i => (ptr i, tag i)) <$> instrs (getBB code b)
             `sublist_of` (fun i => (ptr i, tag i)) <$> instrs (getBB code' b)) /\
  (forall b i', i' ∈ instrs (getBB code' b) ->
     tag i' = Tag.PirCopy \/
     exists i, i ∈ instrs (getBB code b) /\ ptr i = ptr i' /\ tag i = tag i').

(** *** What the emitter writes *)

(** The labels a piece of bytecode defines, the labels it jumps to and the
    locals it reads or writes. *)
Definition labelsOf (l : list BC.t) : list nat :=
  omap (fun b => match b with BC.label l => Some l | _ => None end) l.

Definition jumpsOf (l : list BC.t) : list nat :=
  omap (fun b => match b with
                 | BC.br l | BC.brfalse l => Some l
                 | _ => None
                 end) l.

Definition localsOf (l : list BC.t) : list N :=
  omap (fun b => match b with
                 | BC.ldloc n | BC.stloc n => Some n
                 | _ => None
                 end) l.

(** A bytecode of the body of a block: a local that [operator[]] gave for
    some value, a jump to a label that satisfies [T], or anything else but a
    label. *)
Definition bodyBC (alloc : gmap Value SlotNumber) (T : nat -> Prop)
    (b : BC.t) : Prop :=
  match b with
  | BC.ldloc n | BC.stloc n => exists v, localOf alloc v = Ok n
  | BC.br l | BC.brfalse l => T l
  | BC.label _ => False
  | _ => True
  end.

(** The stream [cs'] is [cs] with bytecodes of block bodies written behind;
    no label was minted. *)
Definition appends (alloc : gmap Value SlotNumber) (T : nat -> Prop)
    (cs cs' : CodeStream) : Prop :=
  exists new, bcs cs' = bcs cs ++ new /\ Forall (bodyBC alloc T) new /\
              ast cs' = ast cs /\ nextLabel cs' = nextLabel cs.

(** The visitor's blocks include the successors of each of them. *)
Definition closedOrder (code : Code) (order : list nat) : Prop :=
  forall b n, b ∈ order -> n ∈ successors code b -> n ∈ order.

(** The blocks of [order] the emitter writes: those that hold
    instructions. *)
Definition emittedBlocks (code : Code) (order : list nat) : list nat :=
  filter (fun b => (0 < length (instrs (getBB code b)))%nat) order.

(** The diamond lowered into a fresh stream. *)
Definition diamond_lowered : N * CodeStream * (Pir2Rir * World) :=
  getOk (0, newStream 0, ({| written := []; promIdx := ∅; promNames := ∅ |},
                          diamond_world))
    (compileCode (lowering 0 plain_runtime [] 20) plain_runtime [] 20
       (ClosureRef 0) (newStream 0)
       ({| written := []; promIdx := ∅; promNames := ∅ |}, diamond_world)).

(** What the emitter has written behind [cs] for the blocks [blocks]. *)
Definition emitted (alloc : gmap Value SlotNumber) (T : nat -> Prop)
    (code : Code) (bbLabels : gmap nat nat) (blocks : list nat)
    (cs cs' : CodeStream) : Prop :=
  exists new, bcs cs' = bcs cs ++ new /\
    labelsOf new = labelOf bbLabels <$> emittedBlocks code blocks /\
    Forall T (jumpsOf new) /\
    Forall (fun n => exists v, localOf alloc v = Ok n) (localsOf new) /\
    ast cs' = ast cs /\ nextLabel cs' = nextLabel cs.

(** *** What lowering leaves of the world *)

(** From [w] to [w']: closures were added to [done] and function objects
    allocated, none taken back; the dispatch tables are the same objects
    with the same capacity and the same baseline function. *)
Definition worldGrows (w w' : World) : Prop :=
  done w ⊆ done w' /\ (allocated w <= allocated w')%nat /\
  forall k, (fun t => (capacity t, first t)) <$> tables w' !! k
            = (fun t => (capacity t, first t)) <$> tables w !! k.

Definition growsWorld (rec : Lowering) : Prop :=
  (forall p pw r, lowerPromise rec p pw = Ok r -> worldGrows pw.2 r.2.2) /\
  (forall c w r, lowerClosure rec c w = Ok r -> worldGrows w r.2) /\
  (forall c o w w', compileClosure rec c o w = Ok w' -> worldGrows w w').

(** *** The slot searches return *)

(** The liveness of every value of [vs] and of every value that holds a
    slot is on record, all of one length: no lookup in [slotIsAvailable]
    fails for these values, and no size assertion of [interfere]. *)
Definition livenessKnown (li : gmap Value Liveness)
    (ra : gmap SlotNumber (list Value)) (vs : list Value) : Prop :=
  exists n,
    (forall v, v ∈ vs -> exists l, li !! v = Some l /\ length l = n) /\
    (forall s v, v ∈ slotMembers ra s ->
                 exists l, li !! v = Some l /\ length l = n).

(** * Properties *)

Section Interference.

Lemma overlap_spec m t : overlap m t = true <-> overlapP m t.
Proof.
  unfold overlap, overlapP.
  rewrite !andb_true_iff, !orb_true_iff, !andb_true_iff.
  rewrite N.eqb_eq, !N.ltb_lt, !N.leb_le. tauto.
Qed.

Lemma interfere_loop_spec (mine their : Liveness) :
  length mine = length their ->
  interfere_loop mine their = true <->
  exists (bb : nat) m t,
    mine !! bb = Some m /\ their !! bb = Some t /\ overlapP m t.
Proof.
  revert their. induction mine as [|m mine IH]; intros [|t their] Hlen;
    simpl in Hlen; try discriminate.
  - simpl. split; [discriminate|]. intros (bb & m & t & Hm & _). by destruct bb.
  - simpl. destruct (overlap m t) eqn:Hov.
    + split; [intros _|done]. exists 0%nat, m, t. by rewrite <- overlap_spec.
    + rewrite IH by lia. split.
      * intros (bb & m' & t' & ? & ? & ?). by exists (S bb), m', t'.
      * intros ([|bb] & m' & t' & Hm & Ht & Hp); simpl in *.
        -- simplify_eq. apply overlap_spec in Hp. congruence.
        -- by exists bb, m', t'.
Qed.

(** C5. Two values interfere iff some basic block has both marked live with
    equal begin positions, or with the interval of the one beginning earlier
    reaching the begin position of the other. *)
Theorem interfere_iff_overlap (mine other : Liveness) :
  length mine = length other ->
  (exists b, interfere mine other = Ok b) /\
  (interfere mine other = Ok true <->
   exists (bb : nat) m t,
     mine !! bb = Some m /\ other !! bb = Some t /\
     live m = true /\ live t = true /\
     (begin m = begin t \/
      (begin m < begin t /\ begin t <= end_ m) \/
      (begin t < begin m /\ begin m <= end_ t))).
Proof.
  intros Hlen. unfold interfere. rewrite decide_True by done. split; [eauto|].
  rewrite <- (interfere_loop_spec _ _ Hlen).
  split; [by intros [= ->]|by intros ->].
Qed.

Lemma interfere_iff_overlap_witness :
  let mine := [mkBBLiveness true 0 3; BBLiveness_default] in
  let other := [mkBBLiveness true 2 5; mkBBLiveness true 0 1] in
  (exists b, interfere mine other = Ok b) /\
  (interfere mine other = Ok true <->
   exists (bb : nat) m t,
     mine !! bb = Some m /\ other !! bb = Some t /\
     live m = true /\ live t = true /\
     (begin m = begin t \/
      (begin m < begin t /\ begin t <= end_ m) \/
      (begin t < begin m /\ begin m <= end_ t))).
Proof. intros mine other. apply interfere_iff_overlap. reflexivity. Defined.

End Interference.

Section StackPrecolouring.

Lemma argInRightOrder_spec code bb pos a :
  argInRightOrder code bb pos a = true <-> onTopOfPred code bb pos a.
Proof.
  unfold argInRightOrder, onTopOfPred; simpl.
  rewrite negb_true_iff, !orb_false_iff, !negb_false_iff, !bool_decide_eq_true.
  rewrite Nat.ltb_ge. tauto.
Qed.

Lemma phiPasses_spec code bb pos p :
  forallb (argInRightOrder code bb pos) (phiEachArg p) = true <->
  phiPasses code bb pos p.
Proof.
  unfold phiPasses. rewrite forallb_forall, Forall_forall.
  setoid_rewrite <- list_elem_of_In.
  by setoid_rewrite argInRightOrder_spec.
Qed.

Lemma phiSweep_prefix code bb ins : forall pos alloc,
  exists k : nat,
    (k <= length ins)%nat /\
    (forall j, (j < k)%nat ->
       exists p, ins !! j = Some p /\ isPhi p = true /\
                 phiPasses code bb (pos + j) p) /\
    (k = length ins \/
     exists p, ins !! k = Some p /\
               (isPhi p = false \/ ~ phiPasses code bb (pos + k) p)) /\
    phiSweep code bb pos ins alloc = foldl markGroup alloc (take k ins).
Proof.
  induction ins as [|i rest IH]; intros pos alloc.
  - exists 0%nat. simpl. repeat split; auto; intros; lia.
  - simpl. destruct (isPhi i) eqn:Hphi; simpl.
    2:{ exists 0%nat. simpl. repeat split; [lia|intros; lia|].
        right. exists i. auto. }
    destruct (forallb _ _) eqn:Hall; simpl.
    2:{ exists 0%nat. simpl. repeat split; [lia|intros; lia|].
        right. exists i. split; [done|]. right.
        rewrite Nat.add_0_r, <- phiPasses_spec. congruence. }
    destruct (IH (S pos) (markGroup alloc i)) as (k & Hk & Hpre & Hstop & Heq).
    exists (S k). simpl. repeat split.
    + lia.
    + intros [|j] Hj; simpl.
      * exists i. rewrite Nat.add_0_r. by rewrite <- phiPasses_spec.
      * destruct (Hpre j) as (p & ? & ? & ?); [lia|].
        exists p. by replace (pos + S j)%nat with (S pos + j)%nat by lia.
    + destruct Hstop as [->|(p & ? & ?)]; [by left|right].
      exists p. by replace (pos + S k)%nat with (S pos + k)%nat by lia.
    + exact Heq.
Qed.

Lemma foldl_markStack_lookup (vs : list Value) alloc v :
  foldl markStack alloc vs !! v =
  if decide (v ∈ vs) then Some stackSlot else alloc !! v.
Proof.
  revert alloc. induction vs as [|x vs IH]; intros alloc.
  - case_decide; [set_solver|done].
  - cbn [foldl]. rewrite IH. unfold markStack.
    repeat case_decide; try done; try set_solver.
    + destruct (decide (v = x)) as [->|]; [by rewrite lookup_insert_eq|set_solver].
    + rewrite lookup_insert_ne; [done|set_solver].
Qed.

Lemma markGroup_lookup p alloc v :
  markGroup alloc p !! v =
  if decide (v ∈ phiGroup p) then Some stackSlot else alloc !! v.
Proof.
  unfold markGroup, markStack at 1, phiGroup.
  destruct (decide (v = val p)) as [->|Hne].
  - rewrite lookup_insert_eq. rewrite decide_True; [done|set_solver].
  - rewrite lookup_insert_ne, foldl_markStack_lookup by done.
    destruct (decide (v ∈ (phiEachArg p).*2)).
    + rewrite decide_True; [done|set_solver].
    + rewrite decide_False; [done|set_solver].
Qed.

Lemma foldl_markGroup_lookup (ps : list Instruction) alloc v :
  foldl markGroup alloc ps !! v =
  if decide (v ∈ ps ≫= phiGroup) then Some stackSlot else alloc !! v.
Proof.
  revert alloc. induction ps as [|p ps IH]; intros alloc.
  - rewrite decide_False; [done|set_solver].
  - cbn [foldl]. rewrite IH, bind_cons, markGroup_lookup.
    destruct (decide (v ∈ ps ≫= phiGroup)), (decide (v ∈ phiGroup p)).
    + rewrite decide_True; [done|set_solver].
    + rewrite decide_True; [done|set_solver].
    + rewrite decide_True; [done|set_solver].
    + rewrite decide_False; [done|set_solver].
Qed.

(** C4. The phi sweep at block entry accepts exactly the first [k] leading
    phis, where the [j]-th one has every incoming value [j]-th from the end of
    a fall-through predecessor; it stops at the first instruction that is not
    a phi or fails the test; the accepted phis and their incoming values are
    set to the stack slot and nothing else changes. *)
Theorem phi_at_entry_sweep code bb alloc :
  let ins := instrs (getBB code bb) in
  let alloc' := phiSweep code bb 1 ins alloc in
  exists k : nat,
    (k <= length ins)%nat /\
    (forall j, (1 <= j <= k)%nat ->
       exists p, ins !! (j - 1)%nat = Some p /\ isPhi p = true /\
                 phiPasses code bb j p) /\
    (k = length ins \/
     exists p, ins !! k = Some p /\
               (isPhi p = false \/ ~ phiPasses code bb (k + 1) p)) /\
    (forall v, alloc' !! v =
               if decide (v ∈ take k ins ≫= phiGroup)
               then Some stackSlot else alloc !! v).
Proof.
  intros ins alloc'.
  destruct (phiSweep_prefix code bb ins 1 alloc) as (k & Hk & Hpre & Hstop & Heq).
  exists k. repeat split; [done| | |].
  - intros j Hj. destruct (Hpre (j - 1)%nat) as (p & ? & ? & ?); [lia|].
    exists p. by replace (1 + (j - 1))%nat with j in * by lia.
  - destruct Hstop as [->|(p & ? & ?)]; [by left|right].
    exists p. by replace (k + 1)%nat with (1 + k)%nat by lia.
  - intros v. subst alloc'. rewrite Heq. apply foldl_markGroup_lookup.
Qed.

End StackPrecolouring.
Section StackWindow.

Lemma skipTo_found arg skipped c below n :
  Forall (fun x => val x <> arg) skipped -> val c = arg ->
  skipTo arg (skipped ++ c :: below) n = (c :: below, (n - length skipped)%nat).
Proof.
  intros Hsk Hc. revert n. induction Hsk as [|x skipped Hx _ IH]; intros n; simpl.
  - rewrite decide_True by done. f_equal. lia.
  - rewrite decide_False by done. rewrite IH. f_equal. lia.
Qed.

Lemma skipTo_inv arg check n c rest n1 :
  skipTo arg check n = (c :: rest, n1) ->
  exists skipped, check = skipped ++ c :: rest /\
    Forall (fun x => val x <> arg) skipped /\ val c = arg /\
    n1 = (n - length skipped)%nat.
Proof.
  revert n. induction check as [|x check IH]; intros n; simpl; [done|].
  destruct (decide (val x = arg)) as [Hx|Hx].
  - intros [= -> -> ->]. exists []. simpl. repeat split; auto. lia.
  - intros H. destruct (IH _ H) as (skipped & -> & Hsk & Hc & ->).
    exists (x :: skipped). simpl. repeat split; auto. lia.
Qed.

Lemma Matched_suffix ras deque remaining :
  Matched ras deque remaining ->
  exists scanned, deque = scanned ++ remaining /\
                  (length ras <= length scanned)%nat.
Proof.
  induction 1 as [deque|a ras skipped c below remaining _ _ _ (sc & -> & Hl)].
  - by exists [].
  - exists (skipped ++ c :: sc). rewrite <- app_assoc. simpl. split; [done|].
    rewrite length_app. simpl. lia.
Qed.

Lemma foldl_matchArg_Matched ras : forall check remaining n b,
  Matched ras check remaining ->
  foldl matchArg (check, n, b) ras =
    (remaining, (n - (length check - length remaining))%nat, b).
Proof.
  induction ras as [|a ras IH]; intros check remaining n b HM; inversion HM; subst.
  - simpl. do 2 f_equal. lia.
  - simpl. rewrite skipTo_found by done.
    rewrite (IH _ _ _ _ H5).
    destruct (Matched_suffix _ _ _ H5) as (sc & -> & _).
    do 2 f_equal. rewrite !length_app. simpl. rewrite !length_app. lia.
Qed.

Lemma foldl_matchArg_false ras : forall check n,
  (foldl matchArg (check, n, false) ras).2 = false.
Proof.
  induction ras as [|a ras IH]; intros check n; simpl; [done|].
  destruct (skipTo a check n) as [[|c check2] n1]; apply IH.
Qed.

Lemma foldl_matchArg_inv ras : forall check n check' n',
  foldl matchArg (check, n, true) ras = (check', n', true) ->
  Matched ras check check'.
Proof.
  induction ras as [|a ras IH]; intros check n check' n'; simpl.
  - intros [= -> _]. constructor.
  - destruct (skipTo a check n) as [[|c check2] n1] eqn:Hsk.
    + intros H. pose proof (foldl_matchArg_false ras [] n1) as Hf.
      rewrite H in Hf. discriminate.
    + intros H. apply skipTo_inv in Hsk as (skipped & -> & ? & ? & _).
      econstructor; eauto.
Qed.

Lemma tryLoadingArgsFromStack_matched i stack alloc remaining :
  Matched (eachArgRev i) (reverse stack) remaining ->
  tryLoadingArgsFromStack i (stack, alloc) =
    (reverse remaining, foldl markStack alloc (eachArgRev i)).
Proof.
  intros HM. unfold tryLoadingArgsFromStack.
  destruct (Matched_suffix _ _ _ HM) as (sc & Hsc & Hlen).
  assert (Hst : stack = reverse remaining ++ reverse sc).
  { rewrite <- reverse_app, <- Hsc. by rewrite reverse_involutive. }
  destruct (nargs i =? 0)%nat eqn:H0; simpl.
  { apply Nat.eqb_eq in H0. unfold eachArgRev, nargs in *.
    destruct (args i); [|done]. inversion HM; subst.
    by rewrite reverse_involutive. }
  assert (length (reverse stack) = length stack) as Hrl by apply length_reverse.
  destruct (length stack <? nargs i)%nat eqn:H1; simpl.
  { apply Nat.ltb_lt in H1. rewrite Hsc, length_app in Hrl.
    unfold eachArgRev in Hlen. rewrite length_reverse in Hlen.
    unfold nargs in H1. lia. }
  rewrite (foldl_matchArg_Matched _ _ _ _ _ HM). simpl. f_equal.
  rewrite Hrl. rewrite Hst at 3.
  assert (length remaining <= length stack)%nat.
  { rewrite <- Hrl, Hsc, length_app. lia. }
  replace (length stack - (length stack - length remaining))%nat
    with (length (reverse remaining)) by (rewrite length_reverse; lia).
  by rewrite take_app_length.
Qed.

Lemma tryLoadingArgsFromStack_unmatched i stack alloc :
  (forall remaining, ~ Matched (eachArgRev i) (reverse stack) remaining) ->
  tryLoadingArgsFromStack i (stack, alloc) = (stack, alloc).
Proof.
  intros HM. unfold tryLoadingArgsFromStack.
  destruct (_ || _); [done|].
  destruct (foldl matchArg _ _) as [[check' n'] [|]] eqn:Hf; [|done].
  apply foldl_matchArg_inv in Hf. by apply HM in Hf.
Qed.

Lemma tryLoadingArgsFromStack_take i stack alloc :
  exists n, (tryLoadingArgsFromStack i (stack, alloc)).1 = take n stack.
Proof.
  unfold tryLoadingArgsFromStack.
  destruct (_ || _); [exists (length stack); by rewrite firstn_all|].
  destruct (foldl matchArg _ _) as [[check' n'] [|]]; simpl.
  - by exists n'.
  - exists (length stack). by rewrite firstn_all.
Qed.

Lemma recorded_spec code alloc i :
  recorded code alloc i = true ->
  alloc !! val i = None /\ voyd i = false /\ isPhi i = false /\
  uses code (val i) = 1%nat.
Proof.
  unfold recorded, hasSingleUse.
  rewrite !andb_true_iff, !negb_true_iff, bool_decide_eq_false,
    bool_decide_eq_true.
  intros [[[Ha ?] ?] ?]. repeat split; auto.
  destruct (alloc !! val i); [|done]. exfalso; eauto.
Qed.

(** Everything ever held by the simulated deque is a single-use, non-void,
    non-phi instruction of the block walked so far. *)
Lemma stackWindow_deque code ins : forall st,
  Forall (fun x => voyd x = false /\ isPhi x = false /\
                   uses code (val x) = 1%nat) st.1 ->
  Forall (fun x => voyd x = false /\ isPhi x = false /\
                   uses code (val x) = 1%nat) (stackWindow code ins st).1.
Proof.
  unfold stackWindow. induction ins as [|i ins IH]; intros [stack alloc] Hst;
    [done|]. cbn [foldl]. apply IH.
  unfold stackWindowStep.
  destruct (tryLoadingArgsFromStack_take i stack alloc) as [n Hn].
  assert (Forall (fun x => voyd x = false /\ isPhi x = false /\
                   uses code (val x) = 1%nat)
            (tryLoadingArgsFromStack i (stack, alloc)).1) as Ht.
  { rewrite Hn. by apply Forall_take. }
  destruct (recorded _ _ _) eqn:Hrec; [|done]. simpl.
  apply Forall_app. split; [done|]. constructor; [|done].
  apply recorded_spec in Hrec. tauto.
Qed.

(** C7. In the in-block stack window an instruction is pushed on the deque
    only if it has a non-void result, is not a phi and is used exactly once;
    when all arguments of an instruction are matched on the deque, scanning
    from the top in reverse argument order, every argument is set to the stack
    slot and the deque keeps only what lies below the deepest match (the
    entries scanned over are dropped); when they are not, nothing changes. *)
Theorem stack_window_step code i stack alloc :
  let st1 := tryLoadingArgsFromStack i (stack, alloc) in
  let st2 := stackWindowStep code (stack, alloc) i in
  ((st2 = (st1.1 ++ [i], st1.2) /\
    voyd i = false /\ isPhi i = false /\ uses code (val i) = 1%nat)
   \/ st2 = st1) /\
  (forall remaining,
     Matched (eachArgRev i) (reverse stack) remaining ->
     (forall a, a ∈ args i -> st1.2 !! a = Some stackSlot) /\
     (forall v, v ∉ args i -> st1.2 !! v = alloc !! v) /\
     st1.1 = reverse remaining /\
     exists scanned, stack = reverse remaining ++ reverse scanned /\
                     (nargs i <= length scanned)%nat) /\
  ((forall remaining, ~ Matched (eachArgRev i) (reverse stack) remaining) ->
   st1 = (stack, alloc)) /\
  (forall ins alloc0,
     Forall (fun x => voyd x = false /\ isPhi x = false /\
                      uses code (val x) = 1%nat)
       (stackWindow code ins ([], alloc0)).1).
Proof.
  intros st1 st2. split; [|split; [|split]].
  - subst st1 st2. unfold stackWindowStep.
    destruct (recorded _ _ _) eqn:Hrec; [left|by right].
    apply recorded_spec in Hrec. tauto.
  - intros remaining HM. subst st1.
    rewrite (tryLoadingArgsFromStack_matched _ _ _ _ HM). simpl.
    split; [|split; [|split]].
    + intros a Ha. rewrite foldl_markStack_lookup. unfold eachArgRev.
      rewrite decide_True; [done|]. by apply elem_of_reverse.
    + intros v Hv. rewrite foldl_markStack_lookup. unfold eachArgRev.
      rewrite decide_False; [done|]. by rewrite elem_of_reverse.
    + done.
    + destruct (Matched_suffix _ _ _ HM) as (sc & Hsc & Hlen).
      exists sc. split.
      * rewrite <- reverse_app, <- Hsc. by rewrite reverse_involutive.
      * unfold eachArgRev in Hlen. by rewrite length_reverse in Hlen.
  - apply tryLoadingArgsFromStack_unmatched.
  - intros ins alloc0. by apply stackWindow_deque.
Qed.

End StackWindow.

Section Verifier.

(** C3. When the verifier has walked a block without successors, the
    symbolic stack has to be empty: otherwise the run aborts, reporting the
    block and the number of entries left on the stack. *)
Theorem terminal_block_stack fuel code bb shared reg stack st :
  next0 (getBB code bb) = None ->
  next1 (getBB code bb) = None ->
  foldM verifyInstr (shared.1, reg, stack) (instrs (getBB code bb)) = Ok st ->
  verifyBB (S fuel) code bb shared reg stack =
    if decide (st.2 = []) then Ok (st.1.1, shared.2)
    else Abort (ReturnWithStack bb (length st.2)).
Proof.
  intros H0 H1 Hwalk. cbn [verifyBB]. rewrite Hwalk. cbn [mbind result_bind].
  unfold terminalCheck. rewrite H0, H1. simpl.
  by destruct (st.2) as [|x rest].
Qed.

Lemma terminal_block_stack_witness :
  verifyBB 1 leak 0 (leak_allocation, ∅) ∅ [] = Abort (ReturnWithStack 0 1).
Proof.
  exact (terminal_block_stack 0 leak 0 (leak_allocation, ∅) ∅ []
           (leak_allocation, ∅, [1%nat]) eq_refl eq_refl eq_refl).
Defined.

End Verifier.

Section Allocation.

Lemma overlap_sym m t : overlap m t = overlap t m.
Proof.
  unfold overlap. rewrite (N.eqb_sym (begin m)). 
  destruct (live m), (live t); simpl; try done.
  destruct (begin t =? begin m); simpl; [done|]. apply orb_comm.
Qed.

Lemma interfere_loop_sym a b : interfere_loop a b = interfere_loop b a.
Proof.
  revert b. induction a as [|m a IH]; intros [|t b]; simpl; try done.
  rewrite overlap_sym, IH. done.
Qed.

Lemma interfere_sym a b : interfere a b = interfere b a.
Proof.
  unfold interfere. rewrite interfere_loop_sym.
  destruct (decide (length a = length b)) as [H|H].
  - by rewrite decide_True.
  - by rewrite decide_False.
Qed.

Lemma noInterference_sym li v1 v2 :
  noInterference li v1 v2 -> noInterference li v2 v1.
Proof.
  intros (l1 & l2 & ? & ? & ?). exists l2, l1. by rewrite interfere_sym.
Qed.

Lemma bind_Ok {A B} (m : result A) (k : A -> result B) b :
  m ≫= k = Ok b -> exists a, m = Ok a /\ k a = Ok b.
Proof. destruct m; simpl; [eauto|done|done]. Qed.

Lemma at_Ok {K A} `{Countable K} (m : gmap K A) k a :
  at_ m k = Ok a -> m !! k = Some a.
Proof. unfold at_. destruct (m !! k); [by intros [= ->]|done]. Qed.

Lemma availableAgainst_true li i others :
  availableAgainst li i others = Ok true ->
  forall o, o ∈ others -> noInterference li o i.
Proof.
  induction others as [|x others IH]; simpl; [set_solver|].
  intros H o Ho.
  apply bind_Ok in H as (lo & Hlo & H). apply bind_Ok in H as (l & Hl & H).
  apply bind_Ok in H as (b & Hb & H). destruct b; [done|].
  apply at_Ok in Hlo, Hl.
  apply elem_of_cons in Ho as [->|Ho]; [by exists lo, l|by apply IH].
Qed.

Lemma allAvailable_true li ra slot vs b :
  allAvailable li ra slot vs b = Ok true ->
  b = true /\ forall v, v ∈ vs -> slotIsAvailable li ra slot v = Ok true.
Proof.
  revert b. induction vs as [|x vs IH]; intros b; simpl.
  - intros [= ->]. split; [done|set_solver].
  - intros H. apply bind_Ok in H as (bx & Hx & H).
    apply IH in H as [Hb Hvs]. destruct bx; [|done]. split; [done|].
    intros v [->|Hv]%elem_of_cons; auto.
Qed.

Lemma findPhiSlot_available fuel li ra p inputs : forall slot s,
  findPhiSlot fuel li ra p inputs slot = Ok s ->
  slotIsAvailable li ra s p = Ok true /\
  forall v, v ∈ inputs -> slotIsAvailable li ra s v = Ok true.
Proof.
  induction fuel as [|fuel IH]; intros slot s; simpl; [done|].
  intros H. apply bind_Ok in H as (b & Hb & H).
  apply bind_Ok in H as (b' & Hb' & H).
  destruct b'; [|by eapply IH]. injection H as <-.
  destruct b; [|done]. apply allAvailable_true in Hb' as [_ ?]. done.
Qed.

Lemma findFreeSlotFrom_available fuel li ra i : forall slot s,
  findFreeSlotFrom fuel li ra i slot = Ok s ->
  slotIsAvailable li ra s i = Ok true.
Proof.
  induction fuel as [|fuel IH]; intros slot s; simpl; [done|].
  intros H. apply bind_Ok in H as (b & Hb & H).
  destruct b; [by injection H as <-|by eapply IH].
Qed.

Lemma slotMembers_reverseInsert ra s v s' v' :
  v' ∈ slotMembers (reverseInsert ra s v) s' <->
  v' ∈ slotMembers ra s' \/ (s' = s /\ v' = v).
Proof.
  unfold reverseInsert, slotMembers at 1.
  destruct (decide (s' = s)) as [->|Hne].
  - rewrite lookup_insert_eq. simpl.
    destruct (decide (v ∈ slotMembers ra s)); [|rewrite elem_of_app];
      set_solver.
  - rewrite lookup_insert_ne by done. fold (slotMembers ra s'). naive_solver.
Qed.

Lemma foldl_assignSlot_members s vs : forall st s' v',
  v' ∈ slotMembers (foldl (assignSlot s) st vs).2 s' <->
  v' ∈ slotMembers st.2 s' \/ (s' = s /\ v' ∈ vs).
Proof.
  induction vs as [|x vs IH]; intros st s' v'; simpl; [set_solver|].
  rewrite IH. simpl. rewrite slotMembers_reverseInsert. set_solver.
Qed.

Lemma foldl_assignSlot_alloc s vs : forall st v,
  (foldl (assignSlot s) st vs).1 !! v =
  if decide (v ∈ vs) then Some s else st.1 !! v.
Proof.
  induction vs as [|x vs IH]; intros st v; cbn [foldl].
  - rewrite decide_False; [done|set_solver].
  - rewrite IH. cbn [assignSlot fst]. destruct (decide (v ∈ vs)).
    + rewrite decide_True; [done|set_solver].
    + destruct (decide (v = x)) as [->|].
      * rewrite lookup_insert_eq. rewrite decide_True; [done|set_solver].
      * rewrite lookup_insert_ne by done. rewrite decide_False; [done|set_solver].
Qed.

Lemma allocInv_assign li phis st s (vs : list Value) :
  allocInv li phis st ->
  (forall v, v ∈ vs -> slotIsAvailable li st.2 s v = Ok true) ->
  (forall v1 v2, v1 ∈ vs -> v2 ∈ vs -> v1 <> v2 -> samePhiGroup phis v1 v2) ->
  allocInv li phis (foldl (assignSlot s) st vs).
Proof.
  intros [Hcov Hsafe] Hav Hgrp. split.
  - intros v s' Hv Hs'. rewrite foldl_assignSlot_alloc in Hv.
    apply foldl_assignSlot_members.
    destruct (decide (v ∈ vs)); [injection Hv as <-; auto|left; auto].
  - intros s' v1 v2 H1 H2 Hne.
    apply foldl_assignSlot_members in H1, H2.
    destruct H1 as [H1|[-> H1]], H2 as [H2|[? H2]]; subst.
    + eauto.
    + left. eapply availableAgainst_true; [by apply Hav|done].
    + left. apply noInterference_sym.
      eapply availableAgainst_true; [by apply Hav|done].
    + right. auto.
Qed.


Lemma foldM_inv {A B} (P : A -> Prop) (f : A -> B -> result A) l : forall a a',
  (forall a b a', b ∈ l -> P a -> f a b = Ok a' -> P a') ->
  P a -> foldM f a l = Ok a' -> P a'.
Proof.
  induction l as [|b l IH]; intros a a' Hf Ha; simpl.
  - by intros [= <-].
  - intros H. apply bind_Ok in H as (a1 & H1 & H).
    eapply (IH a1); [|by eapply Hf; [left| |]|done].
    intros ????. apply Hf. by right.
Qed.

Lemma precolorPhi_inv fuel li phis st i st' :
  i ∈ phis -> allocInv li phis st ->
  precolorPhi fuel li st i = Ok st' -> allocInv li phis st'.
Proof.
  intros Hi Hinv. unfold precolorPhi.
  destruct (isPhi i) eqn:Hphi; simpl; [|by intros [= <-]].
  destruct (bool_decide _); [by intros [= <-]|].
  intros H. apply bind_Ok in H as (slot & Hslot & [= <-]).
  apply findPhiSlot_available in Hslot as [Hp Hin].
  change (allocInv li phis (foldl (assignSlot slot) st (phiGroup i))).
  apply allocInv_assign; [done| |].
  - intros v [->|Hv]%elem_of_cons; auto.
  - intros v1 v2 ? ? _. by exists i.
Qed.

Lemma findFreeSlot_inv fuel li phis st i st' :
  allocInv li phis st ->
  findFreeSlot fuel li st i = Ok st' -> allocInv li phis st'.
Proof.
  intros Hinv H. unfold findFreeSlot in H.
  apply bind_Ok in H as (slot & Hslot & [= <-]).
  apply findFreeSlotFrom_available in Hslot.
  change (allocInv li phis (foldl (assignSlot slot) st [val i])).
  apply allocInv_assign; [done|set_solver|set_solver].
Qed.

Lemma allocateInstr_inv fuel li phis st i st' :
  allocInv li phis st ->
  allocateInstr fuel li st i = Ok st' -> allocInv li phis st'.
Proof.
  intros Hinv. unfold allocateInstr.
  destruct (_ && _); [|by intros [= <-]].
  destruct (_ && _); [|by apply findFreeSlot_inv].
  intros H. apply bind_Ok in H as ([|] & Hb & H); [|by eapply findFreeSlot_inv].
  injection H as <-.
  change (allocInv li phis (foldl (assignSlot (slotHint st.1 i)) st [val i])).
  apply allocInv_assign; [done|set_solver|set_solver].
Qed.

Lemma onlyStackAdded_refl alloc : onlyStackAdded alloc alloc.
Proof. intros v s. auto. Qed.

Lemma onlyStackAdded_trans a b c :
  onlyStackAdded a b -> onlyStackAdded b c -> onlyStackAdded a c.
Proof. intros Hab Hbc v s Hv. destruct (Hbc v s Hv) as [|]; auto. Qed.

Lemma onlyStackAdded_markStack alloc vs :
  onlyStackAdded alloc (foldl markStack alloc vs).
Proof.
  intros v s. rewrite foldl_markStack_lookup.
  destruct (decide _); [intros [= <-]|]; auto.
Qed.

Lemma onlyStackAdded_phiSweep code bb pos ins alloc :
  onlyStackAdded alloc (phiSweep code bb pos ins alloc).
Proof.
  destruct (phiSweep_prefix code bb ins pos alloc) as (k & _ & _ & _ & ->).
  intros v s. rewrite foldl_markGroup_lookup.
  destruct (decide _); [intros [= <-]|]; auto.
Qed.

Lemma onlyStackAdded_tryLoading i stack alloc :
  onlyStackAdded alloc (tryLoadingArgsFromStack i (stack, alloc)).2.
Proof.
  unfold tryLoadingArgsFromStack.
  destruct (_ || _); [apply onlyStackAdded_refl|].
  destruct (foldl matchArg _ _) as [[? ?] [|]]; simpl;
    [apply onlyStackAdded_markStack|apply onlyStackAdded_refl].
Qed.

Lemma onlyStackAdded_stackWindow code ins : forall st,
  onlyStackAdded st.2 (stackWindow code ins st).2.
Proof.
  unfold stackWindow.
  induction ins as [|i ins IH]; intros [stack alloc]; cbn [foldl];
    [apply onlyStackAdded_refl|].
  eapply onlyStackAdded_trans; [|apply IH].
  unfold stackWindowStep.
  destruct (recorded _ _ _); apply onlyStackAdded_tryLoading.
Qed.

Lemma onlyStackAdded_computeStackAllocation code order : forall alloc,
  onlyStackAdded alloc (computeStackAllocation code order alloc).
Proof.
  unfold computeStackAllocation.
  induction order as [|bb order IH]; intros alloc; cbn [foldl];
    [apply onlyStackAdded_refl|].
  eapply onlyStackAdded_trans; [|apply IH].
  unfold computeStackAllocationBB.
  eapply onlyStackAdded_trans; [apply onlyStackAdded_phiSweep|].
  apply (onlyStackAdded_stackWindow code _ ([], _)).
Qed.

Lemma computeAllocation_inv fuel li code order domOrder alloc st :
  (forall v s, alloc !! v = Some s -> s = stackSlot) ->
  computeAllocation fuel li code order domOrder alloc = Ok st ->
  allocInv li (visited code order) st.
Proof.
  intros Hstack H. unfold computeAllocation in H.
  apply bind_Ok in H as (st1 & H1 & H2).
  eapply foldM_inv in H2; [exact H2| |].
  - intros ???? Ha Hf. eapply allocateInstr_inv; eauto.
  - eapply foldM_inv in H1; [exact H1| |].
    + intros ???? Ha Hf. eapply precolorPhi_inv; eauto.
    + split; simpl.
      * intros v s Hv Hs. apply Hstack in Hv. done.
      * intros s v1 v2 Hv1. unfold slotMembers in Hv1.
        rewrite lookup_empty in Hv1. simpl in Hv1. set_solver.
Qed.

(** C1, as the code has it. Two distinct values that the allocator puts in
    one numbered slot do not interfere, unless both belong to the group of
    one phi (the phi and its incoming values), which the phi pre-colouring
    places together without testing its members against each other. *)
Theorem slot_safety_up_to_phi_groups fuel li code order domOrder alloc :
  allocate fuel li code order domOrder = Ok alloc ->
  forall v1 v2 s,
    v1 <> v2 -> alloc !! v1 = Some s -> alloc !! v2 = Some s ->
    s <> stackSlot ->
    noInterference li v1 v2 \/ samePhiGroup (visited code order) v1 v2.
Proof.
  unfold allocate. intros H v1 v2 s Hne H1 H2 Hs.
  apply bind_Ok in H as (st & Hst & [= <-]).
  apply computeAllocation_inv in Hst as [Hcov Hsafe].
  - eapply Hsafe; eauto.
  - intros v s' Hv.
    destruct (onlyStackAdded_computeStackAllocation code order ∅ v s' Hv);
      [done|]. by rewrite lookup_empty in *.
Qed.

End Allocation.

Section LoopExample.

(** The phi of the loop is fed from BB1, the block it stands in: the pass
    inserts the copy %8 into the vector it is walking, and what it does with
    its iterator afterwards is undefined. *)
Example loop_feeds_itself : toCSSA 10 loop_order loop = Abort Undefined.
Proof. vm_compute. reflexivity. Qed.

(** The loop with its copies is in conventional form. *)
Example loop_cssa_blocks :
  conventional (visited loop_cssa loop_order) /\
  instrs (getBB loop_cssa 0) =
    [instr 1 Tag.LdArg []; instr 7 Tag.PirCopy [VInstr 1]] /\
  instrs (getBB loop_cssa 1) =
    [phiInstr 2 [0; 1]%nat [VInstr 7; VInstr 8];
     instr 9 Tag.PirCopy [VInstr 2];
     instr 3 Tag.Inc [VInstr 9];
     instr 4 Tag.AsTest [VInstr 3];
     instr 8 Tag.PirCopy [VInstr 3];
     voidInstr 5 Tag.Branch [VInstr 4]] /\
  instrs (getBB loop_cssa 2) = [voidInstr 6 Tag.Return [VInstr 3]].
Proof.
  split; [apply (bool_decide_unpack _); vm_compute; reflexivity|].
  repeat split; vm_compute; reflexivity.
Qed.

Example loop_liveness_ok :
  computeLiveness 20 (cfgOf loop_cssa) loop_cssa = Ok loop_liveness /\
  loop_liveness !! VInstr 2 =
    Some [BBLiveness_default; mkBBLiveness true 0 1; BBLiveness_default] /\
  loop_liveness !! VInstr 7 =
    Some [mkBBLiveness true 1 2; mkBBLiveness true 0 6; BBLiveness_default] /\
  loop_liveness !! VInstr 8 =
    Some [BBLiveness_default; mkBBLiveness true 4 6; BBLiveness_default].
Proof. repeat split; vm_compute; reflexivity. Qed.

Example loop_allocation_ok :
  allocate 10 loop_liveness loop_cssa loop_order loop_order
    = Ok loop_allocation /\
  map_to_list loop_allocation =
    [(VInstr 8, 1); (VInstr 4, stackSlot); (VInstr 2, 1);
     (VInstr 9, stackSlot); (VInstr 7, 1); (VInstr 3, 2);
     (VInstr 1, stackSlot)].
Proof. split; vm_compute; reflexivity. Qed.

(** The verifier accepts this allocation. *)
Example loop_verify_ok :
  exists shared, verify 10 loop_cssa loop_allocation = Ok shared.
Proof. eexists. vm_compute. reflexivity. Qed.

(** C1 fails as stated: in the loop the phi %2 and its incoming copy %7
    share slot 1 although both are live from position 0 of BB1, which
    [Liveness::interfere] counts as interference. *)
Lemma slot_safety_counterexample :
  conventional (visited loop_cssa loop_order) /\
  computeLiveness 20 (cfgOf loop_cssa) loop_cssa = Ok loop_liveness /\
  allocate 10 loop_liveness loop_cssa loop_order loop_order
    = Ok loop_allocation /\
  ~ slotSafety loop_liveness loop_allocation.
Proof.
  split; [apply (bool_decide_unpack _); vm_compute; reflexivity|].
  split; [vm_compute; reflexivity|].
  split; [vm_compute; reflexivity|].
  intros Hsafe.
  destruct (Hsafe (VInstr 2) (VInstr 7) 1) as (l1 & l2 & H1 & H2 & Hi);
    [discriminate|vm_compute; reflexivity|vm_compute; reflexivity
    |discriminate|].
  vm_compute in H1, H2. injection H1 as <-. injection H2 as <-.
  vm_compute in Hi. discriminate.
Qed.

(** The same on the triangle, from [toCSSA] on: the copy %7 of %1 stands
    before the branch of BB0, the copy %8 of %4 ends BB1, and the phi %5
    shares slot 1 with %7 although both are live from position 0 of BB2. *)
Example slot_safety_fails_on_triangle :
  toCSSA 10 loop_order triangle = Ok triangle_cssa /\
  instrs (getBB triangle_cssa 2) =
    [phiInstr 5 [0; 1]%nat [VInstr 7; VInstr 8];
     instr 9 Tag.PirCopy [VInstr 5];
     voidInstr 6 Tag.Return [VInstr 9]] /\
  computeLiveness 20 (cfgOf triangle_cssa) triangle_cssa
    = Ok triangle_liveness /\
  allocate 10 triangle_liveness triangle_cssa loop_order loop_order
    = Ok triangle_allocation /\
  (exists shared, verify 10 triangle_cssa triangle_allocation = Ok shared) /\
  triangle_allocation !! VInstr 5 = Some 1 /\
  triangle_allocation !! VInstr 7 = Some 1 /\
  ~ slotSafety triangle_liveness triangle_allocation.
Proof.
  split; [vm_compute; reflexivity|].
  split; [vm_compute; reflexivity|].
  split; [vm_compute; reflexivity|].
  split; [vm_compute; reflexivity|].
  split; [eexists; vm_compute; reflexivity|].
  split; [vm_compute; reflexivity|].
  split; [vm_compute; reflexivity|].
  intros Hsafe.
  destruct (Hsafe (VInstr 5) (VInstr 7) 1) as (l1 & l2 & H1 & H2 & Hi);
    [discriminate|vm_compute; reflexivity|vm_compute; reflexivity
    |discriminate|].
  vm_compute in H1, H2. injection H1 as <-. injection H2 as <-.
  vm_compute in Hi. discriminate.
Qed.

Lemma slot_safety_up_to_phi_groups_witness :
  noInterference loop_liveness (VInstr 2) (VInstr 7) \/
  samePhiGroup (visited loop_cssa loop_order) (VInstr 2) (VInstr 7).
Proof.
  refine (slot_safety_up_to_phi_groups 10 loop_liveness loop_cssa loop_order
            loop_order loop_allocation _ (VInstr 2) (VInstr 7) 1 _ _ _ _);
    [vm_compute; reflexivity|discriminate|vm_compute; reflexivity
    |vm_compute; reflexivity|discriminate].
Defined.

End LoopExample.

Section LivenessPropagation.

Context (cfg : CFG).

Lemma merge_spec st bb live_ :
  let st' := merge st bb live_ in
  liveOutOf st'.1 bb = liveOutOf st.1 bb ∪ live_ /\
  is_Some (st'.1 !! bb) /\
  (forall b, b <> bb -> st'.1 !! b = st.1 !! b) /\
  (st'.2 = st.2 \/ st'.2 = {[bb]} ∪ st.2) /\
  (liveOutOf st'.1 bb <> liveOutOf st.1 bb -> bb ∈ st'.2).
Proof.
  unfold merge, liveOutOf. destruct st as [lae td]. simpl.
  destruct (bool_decide_reflect (live_ ⊆ default ∅ (lae !! bb))) as [Hsub|Hsub];
    simpl; rewrite lookup_insert_eq; simpl.
  - split; [set_solver|]. split; [eauto|]. split.
    + intros b Hb. by rewrite lookup_insert_ne.
    + split; [by left|]. intros []. done.
  - split; [done|]. split; [eauto|]. split.
    + intros b Hb. by rewrite lookup_insert_ne.
    + split; [by right|]. set_solver.
Qed.

Lemma mergePhiInp_list_spec bb (l : list (nat * gset Value)) : forall st,
  is_Some (st.1 !! bb) ->
  let st' := foldl (fun st in_ =>
                      if (bb =? in_.1)%nat || isPredecessor cfg in_.1 bb
                      then merge st bb in_.2 else st) st l in
  liveOutOf st'.1 bb =
    liveOutOf st.1 bb ∪
    ⋃ (filter (fun in_ => bb = in_.1 \/ isPredecessor cfg in_.1 bb = true) l).*2 /\
  is_Some (st'.1 !! bb) /\
  (forall b, b <> bb -> st'.1 !! b = st.1 !! b) /\
  (st'.2 = st.2 \/ st'.2 = {[bb]} ∪ st.2) /\
  (liveOutOf st'.1 bb <> liveOutOf st.1 bb -> bb ∈ st'.2).
Proof.
  induction l as [|[inBB inLive] l IH]; intros st Hsome; cbn [foldl].
  - simpl. split; [set_solver|]. split; [done|]. split; [done|].
    split; [by left|done].
  - cbn [fst snd].
    destruct ((bb =? inBB)%nat || isPredecessor cfg inBB bb) eqn:Hg.
    + destruct (merge_spec st bb inLive) as (M1 & M2 & M3 & M4 & M5).
      destruct (IH (merge st bb inLive) M2) as (I1 & I2 & I3 & I4 & I5).
      rewrite filter_cons_True; last first.
      { apply orb_true_iff in Hg as [?%Nat.eqb_eq|?]; auto. }
      cbn [fmap list_fmap snd union_list]. split; [|split; [|split; [|split]]].
      * rewrite I1, M1. set_solver.
      * done.
      * intros b Hb. by rewrite I3, M3.
      * destruct I4 as [->| ->], M4 as [->| ->]; auto. right. set_solver.
      * intros Hne.
        destruct (decide (liveOutOf (merge st bb inLive).1 bb = liveOutOf st.1 bb))
          as [Heq|Hneq].
        -- apply I5. by rewrite Heq.
        -- apply M5 in Hneq. destruct I4 as [->| ->]; set_solver.
    + rewrite filter_cons_False; last first.
      { apply orb_false_iff in Hg as [?%Nat.eqb_neq ?]. simpl.
        intros [?|?]; congruence. }
      by apply IH.
Qed.

Lemma propagateTo_spec accumulated accumulatedPhiInput st pre :
  let st' := propagateTo cfg accumulated accumulatedPhiInput st pre in
  liveOutOf st'.1 pre =
    liveOutOf st.1 pre ∪ accumulated ∪ phiInputsFor cfg accumulatedPhiInput pre /\
  (forall b, b <> pre -> st'.1 !! b = st.1 !! b) /\
  (st'.2 = st.2 \/ st'.2 = {[pre]} ∪ st.2) /\
  (st.1 !! pre = None \/ liveOutOf st'.1 pre <> liveOutOf st.1 pre ->
   pre ∈ st'.2).
Proof.
  unfold propagateTo, phiInputsFor, mergePhiInp.
  destruct (bool_decide_reflect (is_Some (st.1 !! pre))) as [Hs|Hs]; simpl.
  - destruct (merge_spec st pre accumulated) as (M1 & M2 & M3 & M4 & M5).
    destruct (mergePhiInp_list_spec pre (map_to_list accumulatedPhiInput)
                (merge st pre accumulated) M2) as (I1 & I2 & I3 & I4 & I5).
    split; [|split; [|split]].
    + by rewrite I1, M1.
    + intros b Hb. by rewrite I3, M3.
    + destruct I4 as [->| ->], M4 as [->| ->]; auto. right. set_solver.
    + intros [Hn|Hne]; [rewrite Hn in Hs; by destruct Hs|].
      destruct (decide (liveOutOf (merge st pre accumulated).1 pre
                        = liveOutOf st.1 pre)) as [Heq|Hneq].
      * apply I5. by rewrite Heq.
      * apply M5 in Hneq. destruct I4 as [->| ->]; set_solver.
  - assert (st.1 !! pre = None) as Hnone.
    { destruct (st.1 !! pre); [exfalso; eauto|done]. }
    destruct (mergePhiInp_list_spec pre (map_to_list accumulatedPhiInput)
                (<[pre:=accumulated]> st.1, st.2)) as (I1 & I2 & I3 & I4 & I5).
    { simpl. rewrite lookup_insert_eq. eauto. }
    simpl in *. split; [|split; [|split]].
    + rewrite I1. unfold liveOutOf. rewrite lookup_insert_eq, Hnone. simpl.
      set_solver.
    + intros b Hb. rewrite I3 by done. by rewrite lookup_insert_ne.
    + destruct I4 as [->| ->]; right; set_solver.
    + intros _. set_solver.
Qed.

Lemma propagate_list_spec accumulated accumulatedPhiInput preds : forall st,
  let st' := foldl (propagateTo cfg accumulated accumulatedPhiInput) st preds in
  (forall b, liveOutOf st'.1 b =
             if decide (b ∈ preds)
             then liveOutOf st.1 b ∪ accumulated
                  ∪ phiInputsFor cfg accumulatedPhiInput b
             else liveOutOf st.1 b) /\
  (forall b, b ∉ preds -> st'.1 !! b = st.1 !! b) /\
  st.2 ⊆ st'.2 /\
  (forall b, b ∈ st'.2 -> b ∈ st.2 \/ b ∈ preds) /\
  (forall b, b ∈ preds ->
     st.1 !! b = None \/ liveOutOf st'.1 b <> liveOutOf st.1 b -> b ∈ st'.2).
Proof.
  induction preds as [|pre preds IH]; intros st; cbn [foldl].
  - split; [|split; [|split; [|split]]].
    + intros b. rewrite decide_False; [done|set_solver].
    + done.
    + done.
    + intros b Hb. by left.
    + intros b Hb. set_solver.
  - destruct (propagateTo_spec accumulated accumulatedPhiInput st pre)
      as (S1 & S2 & S3 & S4).
    destruct (IH (propagateTo cfg accumulated accumulatedPhiInput st pre))
      as (I1 & I2 & I3 & I4 & I5).
    assert (Hlo : forall b, b <> pre ->
              liveOutOf (propagateTo cfg accumulated accumulatedPhiInput st pre).1 b
              = liveOutOf st.1 b).
    { intros b Hb. unfold liveOutOf. by rewrite S2. }
    assert (Hall : forall b, liveOutOf
               (foldl (propagateTo cfg accumulated accumulatedPhiInput)
                  (propagateTo cfg accumulated accumulatedPhiInput st pre) preds).1 b =
             if decide (b ∈ pre :: preds)
             then liveOutOf st.1 b ∪ accumulated
                  ∪ phiInputsFor cfg accumulatedPhiInput b
             else liveOutOf st.1 b).
    { intros b. rewrite I1.
      destruct (decide (b = pre)) as [->|Hb].
      - rewrite (decide_True (P := pre ∈ pre :: preds)) by set_solver.
        rewrite S1. destruct (decide (pre ∈ preds)); set_solver.
      - rewrite Hlo by done.
        destruct (decide (b ∈ preds)).
        + rewrite decide_True; [done|set_solver].
        + rewrite decide_False; [done|set_solver]. }
    split; [exact Hall|]. split; [|split; [|split]].
    + intros b Hb. rewrite I2 by set_solver. apply S2. set_solver.
    + destruct S3 as [Heq|Heq]; rewrite Heq in I3; set_solver.
    + intros b Hb. apply I4 in Hb as [Hb|Hb]; [|set_solver].
      destruct S3 as [Heq|Heq]; rewrite Heq in Hb; set_solver.
    + intros b Hb Hcond.
      destruct (decide (b = pre)) as [->|Hne].
      * apply I3, S4. destruct Hcond as [?|Hcond]; [by left|right].
        rewrite S1. rewrite Hall in Hcond.
        by rewrite decide_True in Hcond by set_solver.
      * apply I5; [set_solver|]. rewrite S2, Hlo by done. done.
Qed.

Lemma elem_of_phiInputsFor accumulatedPhiInput pre v :
  v ∈ phiInputsFor cfg accumulatedPhiInput pre <->
  exists inBB inLive,
    accumulatedPhiInput !! inBB = Some inLive /\ v ∈ inLive /\
    (pre = inBB \/ isPredecessor cfg inBB pre = true).
Proof.
  unfold phiInputsFor. rewrite elem_of_union_list. split.
  - intros (X & HX & Hv). apply list_elem_of_fmap in HX as ([inBB inLive] & -> & Hin).
    apply list_elem_of_filter in Hin as [Hg Hin].
    apply elem_of_map_to_list in Hin. eauto.
  - intros (inBB & inLive & Hin & Hv & Hg). exists inLive. split; [|done].
    apply list_elem_of_fmap. exists (inBB, inLive). split; [done|].
    apply list_elem_of_filter. split; [done|]. by apply elem_of_map_to_list.
Qed.

(** C8. At the end of a turn of the liveness worklist, every immediate
    predecessor receives the ordinary accumulated values; the values
    accumulated as phi inputs for an input block reach a predecessor only if
    that predecessor is the input block or [isPredecessor(input block,
    predecessor)] holds; no other live-out set changes; a predecessor seen
    for the first time or whose live-out set grows is put on the worklist. *)
Theorem phi_inputs_propagation bb accumulated accumulatedPhiInput lae todo_ :
  let st' := propagate cfg bb accumulated accumulatedPhiInput (lae, todo_) in
  (forall pre v, pre ∈ immediatePredecessors cfg bb ->
     v ∈ liveOutOf st'.1 pre <->
     v ∈ liveOutOf lae pre \/ v ∈ accumulated \/
     exists inBB inLive,
       accumulatedPhiInput !! inBB = Some inLive /\ v ∈ inLive /\
       (pre = inBB \/ isPredecessor cfg inBB pre = true)) /\
  (forall b, b ∉ immediatePredecessors cfg bb -> st'.1 !! b = lae !! b) /\
  todo_ ⊆ st'.2 /\
  (forall b, b ∈ st'.2 -> b ∈ todo_ \/ b ∈ immediatePredecessors cfg bb) /\
  (forall pre, pre ∈ immediatePredecessors cfg bb ->
     lae !! pre = None \/ liveOutOf st'.1 pre <> liveOutOf lae pre ->
     pre ∈ st'.2).
Proof.
  intros st'. subst st'. unfold propagate.
  destruct (propagate_list_spec accumulated accumulatedPhiInput
              (immediatePredecessors cfg bb) (lae, todo_))
    as (I1 & I2 & I3 & I4 & I5).
  split; [|split; [|split; [|split]]]; try done.
  intros pre v Hpre. rewrite I1, decide_True by done. simpl.
  rewrite !elem_of_union, elem_of_phiInputsFor. tauto.
Qed.

End LivenessPropagation.

Section Emitter.

Context (rec : Lowering) (rt : Runtime) (debug : list DebugFlag) (fuel : nat)
        (code : Code) (bb : nat) (bbLabels : gmap nat nat)
        (alloc : gmap Value SlotNumber).

(** The test of the assertion, outside [size_t]: for an instruction with at
    least one and fewer than 2^64 arguments it says that the environment is
    the last argument. *)
Lemma envIsLastArg_spec i :
  (1 <= nargs i)%nat -> N.of_nat (nargs i) < 18446744073709551616 ->
  envIsLastArg i = true <-> envSlot i = Some (nargs i - 1)%nat.
Proof.
  intros H1 H2. unfold envIsLastArg. destruct (envSlot i) as [k|]; [|done].
  rewrite N.eqb_eq.
  replace (N.of_nat (nargs i) + 18446744073709551615)
    with (N.of_nat (nargs i - 1) + 1 * 18446744073709551616) by lia.
  rewrite N.Div0.mod_add, N.mod_small by lia.
  split; [intros ?%Nat2N.inj; by subst|intros [= ->]; done].
Qed.

Lemma loadAndSetEnv_assert i st :
  isPhi i = false -> hasEnv i = true -> explicitEnvValue i = false ->
  envIsLastArg i = false ->
  loadAndSetEnv alloc i st = Abort AssertionFailed.
Proof.
  intros Hphi Henv Hexp Hlast. unfold loadAndSetEnv.
  by rewrite Hphi, Henv, Hexp, Hlast.
Qed.

Lemma emitInstrs_app pre : forall post st st',
  emitInstrs rec rt debug fuel code bb bbLabels alloc pre st = Ok (st', false) ->
  emitInstrs rec rt debug fuel code bb bbLabels alloc (pre ++ post) st =
  emitInstrs rec rt debug fuel code bb bbLabels alloc post st'.
Proof.
  induction pre as [|x pre IH]; intros post st st'; simpl.
  - by intros [= ->].
  - destruct (emitInstr _ _ _ _ _ _ _ _ x st) as [[st1 [|]]| |]; simpl; try done.
    apply IH.
Qed.

(** C10. The emitter requires of every instruction that is not a phi, has an
    environment operand and is neither [MkEnv] nor [Deopt] that the
    environment is its last argument: the assertion comes first in the
    treatment of the instruction, so such an instruction aborts the
    compilation as soon as the emitter reaches it. *)
Theorem env_operand_must_be_last i :
  isPhi i = false -> hasEnv i = true -> explicitEnvValue i = false ->
  envIsLastArg i = false ->
  (forall st,
     emitInstr rec rt debug fuel code bb bbLabels alloc i st
     = Abort AssertionFailed) /\
  (forall pre post st st',
     emitInstrs rec rt debug fuel code bb bbLabels alloc pre st
       = Ok (st', false) ->
     emitInstrs rec rt debug fuel code bb bbLabels alloc (pre ++ i :: post) st
       = Abort AssertionFailed).
Proof.
  intros Hphi Henv Hexp Hlast.
  assert (forall st, emitInstr rec rt debug fuel code bb bbLabels alloc i st
                     = Abort AssertionFailed) as Hi.
  { intros st. unfold emitInstr, loadArguments.
    by rewrite loadAndSetEnv_assert. }
  split; [done|]. intros pre post st st' Hpre.
  rewrite (emitInstrs_app _ _ _ _ Hpre). simpl. by rewrite Hi.
Qed.

End Emitter.

Section Compile.

Context (rt : Runtime) (debug : list DebugFlag) (fuel : nat).

Lemma tables_setCode r code w : tables (setCode r code w) = tables w.
Proof. by destruct r. Qed.

Section DryRun.

Hypothesis Hdry : includes debug DryRun = true.

Lemma emitOpcode_tables rec code bb bbLabels alloc i st r :
  keepsTables rec ->
  emitOpcode rec rt debug fuel code bb bbLabels alloc i st = Ok r ->
  tables (es_world r.1) = tables (es_world st).
Proof.
  intros (HP & HC & HS). unfold emitOpcode.
  destruct (tag i) eqn:Ht, (imm i) eqn:Hi; simpl;
    try (intros [= <-]; done); try done;
    try (intros H; repeat (apply bind_Ok in H as (? & ? & H));
         injection H as <-; done).
  - intros H. apply bind_Ok in H as (r1 & H1 & [= <-]). simpl.
    apply HP in H1. done.
  - destruct (tables (es_world st) !! code0) as [dt|]; [|done].
    intros H. apply bind_Ok in H as (w & Hw & [= <-]). simpl.
    destruct (_ && _); [|by injection Hw as <-].
    apply bind_Ok in Hw as (r1 & H1 & Hw). rewrite Hdry in Hw. simpl in Hw.
    injection Hw as <-. by apply HC in H1.
  - intros H. apply bind_Ok in H as (w & Hw & [= <-]). simpl.
    by apply HS in Hw.
  - destruct (0 <? length names)%nat; intros [= <-]; done.
Qed.

Lemma emitInstr_tables rec code bb bbLabels alloc i st r :
  keepsTables rec ->
  emitInstr rec rt debug fuel code bb bbLabels alloc i st = Ok r ->
  tables (es_world r.1) = tables (es_world st).
Proof.
  intros Hrec H. unfold emitInstr in H.
  apply bind_Ok in H as (ce & _ & H). apply bind_Ok in H as (r1 & H1 & H).
  apply emitOpcode_tables in H1; [|done]. simpl in H1.
  destruct (r1.2); [by injection H as <-|].
  apply bind_Ok in H as (cs & _ & [= <-]). done.
Qed.

Lemma emitInstrs_tables rec code bb bbLabels alloc ins : forall st r,
  keepsTables rec ->
  emitInstrs rec rt debug fuel code bb bbLabels alloc ins st = Ok r ->
  tables (es_world r.1) = tables (es_world st).
Proof.
  induction ins as [|i ins IH]; intros st r Hrec; simpl.
  - by intros [= <-].
  - intros H. apply bind_Ok in H as (r1 & H1 & H).
    apply emitInstr_tables in H1; [|done].
    destruct (r1.2); [by injection H as <-|].
    apply IH in H; [|done]. congruence.
Qed.

Lemma emitBB_tables rec code bbLabels alloc st bb st' :
  keepsTables rec ->
  emitBB rec rt debug fuel code bbLabels alloc st bb = Ok st' ->
  tables st'.2.2 = tables st.2.2.
Proof.
  intros Hrec. unfold emitBB.
  destruct (instrs (getBB code bb)) as [|i0 ins] eqn:Hins; [by intros [= <-]|].
  intros H. apply bind_Ok in H as (r & Hr & H).
  apply emitInstrs_tables in Hr; [|done]. simpl in Hr.
  destruct (r.2); [by injection H as <-|].
  destruct (next0 (getBB code bb)); [|done].
  apply bind_Ok in H as (nx & _ & [= <-]). done.
Qed.

Lemma compileCode_tables rec r cs pw out :
  keepsTables rec ->
  compileCode rec rt debug fuel r cs pw = Ok out ->
  tables out.2.2 = tables pw.2.
Proof.
  intros Hrec H. unfold compileCode in H.
  apply bind_Ok in H as (u & _ & H). apply bind_Ok in H as (code & _ & H).
  apply bind_Ok in H as (li & _ & H). apply bind_Ok in H as (alloc0 & _ & H).
  apply bind_Ok in H as (v & _ & H). apply bind_Ok in H as (o & Ho & [= <-]).
  simpl. eapply (foldM_inv (fun st => tables st.2.2 = tables pw.2)) in Ho;
    [done| |].
  - intros a b a' _ Ha Hf. apply emitBB_tables in Hf; [|done]. congruence.
  - simpl. apply tables_setCode.
Qed.

Lemma getPromiseIdx_tables rec p pw r :
  keepsTables rec ->
  getPromiseIdx rec rt debug fuel p pw = Ok r ->
  tables r.2.2 = tables pw.2.
Proof.
  intros Hrec. unfold getPromiseIdx.
  destruct (promIdx pw.1 !! p); [by intros [= <-]|].
  destruct (promises pw.2 !! p); [|done].
  intros H. apply bind_Ok in H as (c & Hc & [= <-]). simpl.
  by apply compileCode_tables in Hc.
Qed.

Lemma finalize_tables rec cls w r :
  keepsTables rec ->
  finalize rec rt debug fuel cls w = Ok r ->
  tables r.2 = tables w.
Proof.
  intros Hrec. unfold finalize.
  destruct (closures w !! cls) as [cl|]; [|done].
  intros H. apply bind_Ok in H as (d & Hd & H).
  apply bind_Ok in H as (c & Hc & [= <-]). simpl.
  apply compileCode_tables in Hc; [|done]. rewrite Hc.
  eapply (foldM_inv (fun st => tables st.2.2 = tables w)) in Hd; [done| |done].
  intros a [b|] a' _ Ha; simpl; [|by intros [= <-]].
  intros Hf. apply bind_Ok in Hf as (g & Hg & Hf).
  apply getPromiseIdx_tables in Hg; [|done].
  destruct (argNames cl !! a.1); [|done]. injection Hf as <-. simpl. congruence.
Qed.

Lemma compileWith_tables lower cls origin w w' :
  (forall c w r, lower c w = Ok r -> tables r.2 = tables w) ->
  compileWith lower rt debug cls origin w = Ok w' ->
  tables w' = tables w.
Proof.
  intros Hl. unfold compileWith.
  destruct (bool_decide _); [by intros [= <-]|]. simpl.
  destruct (tables w !! BODY rt origin) as [table|]; [|done].
  destruct (available table 1); [by intros [= <-]|].
  intros H. apply bind_Ok in H as (r & Hr & H). rewrite Hdry in H.
  injection H as <-. by apply Hl in Hr.
Qed.

Lemma lowering_keepsTables depth : keepsTables (lowering depth rt debug fuel).
Proof.
  induction depth as [|depth IH]; [by repeat split|].
  split; [|split]; simpl.
  - intros p pw r. by apply getPromiseIdx_tables.
  - intros c w r. by apply finalize_tables.
  - intros c o w w'. apply compileWith_tables.
    intros c' w1 r. by apply finalize_tables.
Qed.

End DryRun.

(** C9. [compile(cls, origin)] returns at once, producing and installing
    nothing, when the closure is in the [done] set, and after entering it in
    [done] when the dispatch table of [origin] has tier 1; under [DryRun] it
    lowers the closure and returns the world the lowering left, and no
    dispatch table is changed on the way. *)
Theorem compile_short_circuits depth cls origin w :
  (cls ∈ done w -> compile depth rt debug fuel cls origin w = Ok w) /\
  (forall table,
     cls ∉ done w -> tables w !! BODY rt origin = Some table ->
     available table 1 = true ->
     compile depth rt debug fuel cls origin w
       = Ok (withDone ({[cls]} ∪ done w) w)) /\
  (forall table,
     includes debug DryRun = true ->
     cls ∉ done w -> tables w !! BODY rt origin = Some table ->
     available table 1 = false ->
     compile depth rt debug fuel cls origin w
       = (r ← finalize (lowering depth rt debug fuel) rt debug fuel cls
                (withDone ({[cls]} ∪ done w) w);
          Ok r.2)) /\
  (forall w',
     includes debug DryRun = true ->
     compile depth rt debug fuel cls origin w = Ok w' ->
     tables w' = tables w).
Proof.
  unfold compile. cbn [lowering compileClosure]. unfold compileWith.
  split; [|split; [|split]].
  - intros Hd. by rewrite bool_decide_eq_true_2.
  - intros table Hd Ht Hav. rewrite bool_decide_eq_false_2 by done.
    simpl. by rewrite Ht, Hav.
  - intros table Hdry Hd Ht Hav. rewrite bool_decide_eq_false_2 by done.
    simpl. rewrite Ht, Hav.
    destruct (finalize _ _ _ _ _ _) as [r| |]; simpl; [|done|done].
    by rewrite Hdry.
  - intros w' Hdry H.
    apply (compileWith_tables Hdry
             (finalize (lowering depth rt debug fuel) rt debug fuel)
             cls origin w w'); [|exact H].
    intros c w1 r. apply finalize_tables; [done|].
    by apply lowering_keepsTables.
Qed.

End Compile.

Section CompileExamples.

(** The diamond is lowered and installed at tier 1 with the statistics of the
    baseline function; under [DryRun] it is lowered (a function object is
    allocated) and the dispatch table stays as it was. *)
Example compile_diamond :
  exists w,
    compile 3 plain_runtime [] 20 0 100 diamond_world = Ok w /\
    ((fun t => invocationCount <$> tiers t !! 1%nat) <$> tables w !! 100%nat)
      = Some (Some 7%nat) /\
    allocated w = 1%nat.
Proof.
  eexists. split; [vm_compute; reflexivity|]. split; vm_compute; reflexivity.
Qed.

Example compile_diamond_dry_run :
  exists w,
    compile 3 plain_runtime [DryRun] 20 0 100 diamond_world = Ok w /\
    allocated w = 1%nat /\ done w = {[ 0%nat ]}.
Proof.
  eexists. split; [vm_compute; reflexivity|]. split; vm_compute; reflexivity.
Qed.

Lemma compile_short_circuits_witness :
  tables (getOk diamond_world
            (compile 3 plain_runtime [DryRun] 20 0 100 diamond_world))
  = tables diamond_world.
Proof.
  pose proof (compile_short_circuits plain_runtime [DryRun] 20 3 0 100
                diamond_world) as (_ & _ & _ & H).
  apply H; [reflexivity|vm_compute; reflexivity].
Defined.

(** The store with the environment in front is rejected by the emitter, and
    with it the compilation of the closure that contains it. *)
Lemma env_operand_must_be_last_witness :
  (forall st,
     emitInstr (lowering 0 plain_runtime [] 0) plain_runtime [] 0 loop 0 ∅ ∅
       envFirstStore st
     = Abort AssertionFailed) /\
  (forall pre post st st',
     emitInstrs (lowering 0 plain_runtime [] 0) plain_runtime [] 0 loop 0 ∅ ∅
       pre st = Ok (st', false) ->
     emitInstrs (lowering 0 plain_runtime [] 0) plain_runtime [] 0 loop 0 ∅ ∅
       (pre ++ envFirstStore :: post) st
     = Abort AssertionFailed).
Proof. apply env_operand_must_be_last; reflexivity. Defined.

Example compile_envFirst :
  compile 3 plain_runtime [] 20 0 100 envFirst_world = Abort AssertionFailed.
Proof. vm_compute. reflexivity. Qed.

End CompileExamples.

Section PhiCoalescing.

Context (code : Code) (order : list nat).
Let V := visited code order.

Hypothesis Hconv : conventional V.

Lemma conventional_ident i j :
  i ∈ V -> j ∈ V -> ptr i = ptr j -> i = j.
Proof.
  destruct Hconv as (H1 & _ & _). rewrite Forall_forall in H1.
  intros Hi Hj. specialize (H1 i Hi). rewrite Forall_forall in H1. by apply H1.
Qed.

Lemma conventional_nophi p q :
  p ∈ V -> q ∈ V -> isPhi p = true -> isPhi q = true ->
  val q ∉ (phiEachArg p).*2.
Proof.
  destruct Hconv as (_ & H2 & _). rewrite Forall_forall in H2.
  intros Hp Hq Hpp Hqp. specialize (H2 p Hp Hpp).
  rewrite Forall_forall in H2. by apply H2.
Qed.

Lemma conventional_share p q v :
  p ∈ V -> q ∈ V -> isPhi p = true -> isPhi q = true ->
  v ∈ (phiEachArg p).*2 -> v ∈ (phiEachArg q).*2 -> p = q.
Proof.
  destruct Hconv as (_ & _ & H3). rewrite Forall_forall in H3.
  intros Hp Hq Hpp Hqp Hv1 Hv2. specialize (H3 p Hp Hpp).
  rewrite Forall_forall in H3. specialize (H3 q Hq Hqp).
  rewrite Forall_forall in H3. by apply (H3 v).
Qed.

Lemma visited_block bb i :
  bb ∈ order -> i ∈ instrs (getBB code bb) -> i ∈ V.
Proof. intros Hbb Hi. apply list_elem_of_bind. eauto. Qed.

Lemma stackInv_mark alloc (M : list Value) :
  stackInv V alloc ->
  (forall p, p ∈ V -> isPhi p = true -> val p ∈ M ->
     forall v, v ∈ (phiEachArg p).*2 -> v ∈ M) ->
  stackInv V (foldl markStack alloc M).
Proof.
  intros [H1 H2] HM. split.
  - intros v s. rewrite foldl_markStack_lookup.
    destruct (decide _); [by intros [= <-]|apply H1].
  - intros p Hp Hphi Hs v Hv. rewrite foldl_markStack_lookup in Hs |- *.
    destruct (decide (v ∈ M)); [done|].
    destruct (decide (val p ∈ M)) as [HpM|HpM].
    + exfalso. eauto.
    + eauto.
Qed.

Lemma stackInv_markGroup alloc q :
  stackInv V alloc -> q ∈ V -> isPhi q = true -> stackInv V (markGroup alloc q).
Proof.
  intros Hinv Hq Hphi.
  change (markGroup alloc q)
    with (foldl markStack (foldl markStack alloc (phiEachArg q).*2) [val q]).
  rewrite <- foldl_app. apply stackInv_mark; [done|].
  intros p Hp Hpp HpM v Hv. apply elem_of_app in HpM as [HpM|HpM].
  - by apply conventional_nophi in HpM.
  - apply list_elem_of_singleton in HpM. injection HpM as HpM.
    rewrite (conventional_ident p q Hp Hq HpM) in Hv. set_solver.
Qed.

Lemma stackInv_phiSweep bb pos ins alloc :
  (forall i, i ∈ ins -> i ∈ V) ->
  stackInv V alloc -> stackInv V (phiSweep code bb pos ins alloc).
Proof.
  intros Hins Hinv.
  destruct (phiSweep_prefix code bb ins pos alloc) as (k & _ & Hpre & _ & ->).
  assert (Hk : forall n, (n <= k)%nat -> stackInv V (foldl markGroup alloc (take n ins))).
  { induction n as [|n IH]; intros Hn; [by rewrite take_0|].
    destruct (Hpre n) as (p & Hp & Hphi & _); [lia|].
    rewrite (take_S_r _ _ _ Hp), foldl_app. simpl.
    apply stackInv_markGroup; [apply IH; lia| |done].
    apply Hins. by eapply list_elem_of_lookup_2. }
  by apply Hk.
Qed.

Lemma Matched_found ras deque remaining :
  Matched ras deque remaining ->
  forall a, a ∈ ras -> exists c, c ∈ deque /\ val c = a.
Proof.
  induction 1 as [|a ras skipped c below remaining _ Hc _ IH]; [set_solver|].
  intros a' [->|Ha]%elem_of_cons.
  - exists c. split; [set_solver|done].
  - destruct (IH a' Ha) as (c' & ? & ?). exists c'. split; [set_solver|done].
Qed.

Lemma stackInv_tryLoading i stack alloc :
  Forall (fun x => x ∈ V /\ isPhi x = false) stack ->
  stackInv V alloc ->
  stackInv V (tryLoadingArgsFromStack i (stack, alloc)).2.
Proof.
  intros Hst Hinv. unfold tryLoadingArgsFromStack.
  destruct (_ || _); [done|].
  destruct (foldl matchArg _ _) as [[check' n'] [|]] eqn:Hf; simpl; [|done].
  apply foldl_matchArg_inv in Hf.
  apply stackInv_mark; [done|].
  intros p Hp Hphi HpM. exfalso.
  destruct (Matched_found _ _ _ Hf _ HpM) as (c & Hc & Hcp).
  rewrite elem_of_reverse in Hc. rewrite Forall_forall in Hst.
  destruct (Hst c Hc) as [HcV Hcphi].
  assert (c = p) as -> by (apply conventional_ident; auto; by injection Hcp).
  congruence.
Qed.

Lemma stackInv_stackWindow ins : forall st,
  (forall i, i ∈ ins -> i ∈ V) ->
  Forall (fun x => x ∈ V /\ isPhi x = false) st.1 ->
  stackInv V st.2 ->
  stackInv V (stackWindow code ins st).2.
Proof.
  unfold stackWindow.
  induction ins as [|i ins IH]; intros [stack alloc] Hins Hst Hinv; [done|].
  cbn [foldl]. apply IH; [set_solver| |].
  - unfold stackWindowStep.
    destruct (tryLoadingArgsFromStack_take i stack alloc) as [n Hn].
    assert (Forall (fun x => x ∈ V /\ isPhi x = false)
              (tryLoadingArgsFromStack i (stack, alloc)).1) as Ht.
    { rewrite Hn. by apply Forall_take. }
    destruct (recorded _ _ _) eqn:Hrec; [|done]. simpl.
    apply Forall_app. split; [done|]. constructor; [|done].
    apply recorded_spec in Hrec. split; [set_solver|tauto].
  - unfold stackWindowStep.
    destruct (recorded _ _ _); simpl; by apply stackInv_tryLoading.
Qed.

Lemma stackInv_computeStackAllocation l : forall alloc,
  (forall b, b ∈ l -> b ∈ order) ->
  stackInv V alloc -> stackInv V (foldl (computeStackAllocationBB code) alloc l).
Proof.
  induction l as [|bb l IH]; intros alloc Hl Hinv; [done|].
  cbn [foldl]. apply IH; [set_solver|].
  unfold computeStackAllocationBB.
  assert (forall i, i ∈ instrs (getBB code bb) -> i ∈ V) as Hins.
  { intros i Hi. apply (visited_block bb); [set_solver|done]. }
  apply (stackInv_stackWindow _ ([], _)); [done|constructor|].
  by apply stackInv_phiSweep.
Qed.


Lemma stackInv_coalescedInv alloc : stackInv V alloc -> coalescedInv V alloc.
Proof.
  intros [H1 H2] p Hp Hphi Hs. exists stackSlot.
  intros v [->|Hv]%elem_of_cons; [|by eapply H2].
  destruct Hs as [s Hs]. by rewrite Hs, (H1 _ _ Hs).
Qed.

Lemma phiGroup_disjoint p q v :
  p ∈ V -> q ∈ V -> isPhi p = true -> isPhi q = true ->
  v ∈ phiGroup p -> v ∈ phiGroup q -> p = q.
Proof.
  intros Hp Hq Hpp Hqp [->|Hv1]%elem_of_cons [Hv2|Hv2]%elem_of_cons.
  - apply conventional_ident; auto. by injection Hv2.
  - by apply conventional_nophi in Hv2.
  - subst v. by apply conventional_nophi in Hv1.
  - by apply (conventional_share p q v).
Qed.

Lemma precolorPhi_coalesced fuel li st q st' :
  q ∈ V -> coalescedInv V st.1 ->
  precolorPhi fuel li st q = Ok st' ->
  coalescedInv V st'.1 /\
  (isPhi q = true -> is_Some (st'.1 !! val q)) /\
  (forall v, is_Some (st.1 !! v) -> is_Some (st'.1 !! v)).
Proof.
  intros Hq Hinv. unfold precolorPhi.
  destruct (isPhi q) eqn:Hphi; simpl; [|by intros [= <-]].
  destruct (bool_decide_reflect (is_Some (st.1 !! val q))) as [Hs|Hs];
    [by intros [= <-]|].
  intros H. apply bind_Ok in H as (slot & _ & [= <-]).
  change (foldl (assignSlot slot) (assignSlot slot st (val q)) (phiEachArg q).*2)
    with (foldl (assignSlot slot) st (phiGroup q)).
  split; [|split].
  - intros p Hp Hpp Hsp. rewrite foldl_assignSlot_alloc in Hsp.
    destruct (decide (p = q)) as [->|Hne].
    + exists slot. intros v Hv. rewrite foldl_assignSlot_alloc.
      by rewrite decide_True.
    + assert (forall v, v ∈ phiGroup p -> v ∉ phiGroup q) as Hdis.
      { intros v Hv1 Hv2. apply Hne. by apply (phiGroup_disjoint p q v). }
      rewrite decide_False in Hsp by (apply Hdis; set_solver).
      destruct (Hinv p Hp Hpp Hsp) as [s Hs'].
      exists s. intros v Hv. rewrite foldl_assignSlot_alloc.
      rewrite decide_False by auto. auto.
  - intros _. rewrite foldl_assignSlot_alloc.
    rewrite decide_True; [eauto|set_solver].
  - intros v Hv. rewrite foldl_assignSlot_alloc. destruct (decide _); eauto.
Qed.

Lemma precolor_all fuel li l : forall st st',
  (forall q, q ∈ l -> q ∈ V) ->
  coalescedInv V st.1 ->
  foldM (precolorPhi fuel li) st l = Ok st' ->
  coalescedInv V st'.1 /\
  (forall q, q ∈ l -> isPhi q = true -> is_Some (st'.1 !! val q)) /\
  (forall v, is_Some (st.1 !! v) -> is_Some (st'.1 !! v)).
Proof.
  induction l as [|q l IH]; intros st st' Hl Hinv; simpl.
  - intros [= <-]. split; [done|]. split; [set_solver|done].
  - intros H. apply bind_Ok in H as (st1 & H1 & H).
    apply precolorPhi_coalesced in H1 as (Hinv1 & Hq1 & Hdom1);
      [|set_solver|done].
    apply IH in H as (Hinv' & Hl' & Hdom'); [|set_solver|done].
    split; [done|]. split; [|by auto].
    intros p [->|Hp]%elem_of_cons Hphi; auto.
Qed.

Lemma findFreeSlot_extends fuel li st i st' :
  st.1 !! val i = None ->
  findFreeSlot fuel li st i = Ok st' ->
  forall v, is_Some (st.1 !! v) -> st'.1 !! v = st.1 !! v.
Proof.
  intros Hn H. unfold findFreeSlot in H.
  apply bind_Ok in H as (slot & _ & [= <-]). simpl.
  intros v Hv. rewrite lookup_insert_ne; [done|].
  intros <-. rewrite Hn in Hv. by destruct Hv.
Qed.

Lemma allocateInstr_extends fuel li st i st' :
  allocateInstr fuel li st i = Ok st' ->
  forall v, is_Some (st.1 !! v) -> st'.1 !! v = st.1 !! v.
Proof.
  unfold allocateInstr.
  destruct (bool_decide_reflect (is_Some (st.1 !! val i))) as [Hs|Hs]; simpl;
    [by intros [= <-]|].
  assert (st.1 !! val i = None) as Hn.
  { destruct (st.1 !! val i); [exfalso; eauto|done]. }
  destruct (bool_decide _); simpl; [|by intros [= <-]].
  destruct (_ && _); [|by apply findFreeSlot_extends].
  intros H. apply bind_Ok in H as ([|] & _ & H);
    [|by eapply findFreeSlot_extends].
  injection H as <-. simpl. intros v Hv. rewrite lookup_insert_ne; [done|].
  intros <-. rewrite Hn in Hv. by destruct Hv.
Qed.

Lemma allocate_all_extends fuel li l : forall st st',
  foldM (allocateInstr fuel li) st l = Ok st' ->
  forall v, is_Some (st.1 !! v) -> st'.1 !! v = st.1 !! v.
Proof.
  induction l as [|i l IH]; intros st st'; simpl.
  - by intros [= <-].
  - intros H. apply bind_Ok in H as (st1 & H1 & H). intros v Hv.
    pose proof (allocateInstr_extends _ _ _ _ _ H1 v Hv) as E1.
    rewrite (IH _ _ H v); [done|]. by rewrite E1.
Qed.

Lemma allocate_coalesced fuel li domOrder_ alloc :
  allocate fuel li code order domOrder_ = Ok alloc ->
  forall p, p ∈ V -> isPhi p = true -> coalesced alloc p.
Proof.
  unfold allocate, computeAllocation. intros H p Hp Hphi.
  apply bind_Ok in H as (st & H & [= <-]).
  apply bind_Ok in H as (st1 & H1 & H2).
  apply precolor_all in H1 as (Hinv & Hall & _); [|done|].
  - destruct (Hinv p Hp Hphi (Hall p Hp Hphi)) as [s Hs].
    exists s. intros v Hv.
    rewrite (allocate_all_extends _ _ _ _ _ H2); [auto|].
    rewrite (Hs v Hv). eauto.
  - simpl. apply stackInv_coalescedInv.
    apply stackInv_computeStackAllocation; [done|].
    split; [|intros ? _ _ [? Hs]]; by rewrite ?lookup_empty in *.
Qed.

End PhiCoalescing.

Section PhiSlotSearch.

Lemma allAvailable_false li ra slot vs : forall b,
  allAvailable li ra slot vs b = Ok false ->
  b = false \/ exists v, v ∈ vs /\ slotIsAvailable li ra slot v = Ok false.
Proof.
  induction vs as [|x vs IH]; intros b; simpl.
  - intros [= ->]. by left.
  - intros H. apply bind_Ok in H as (bx & Hx & H).
    apply IH in H as [H|(v & Hv & H)].
    + destruct bx; [by left|]. right. exists x. split; [set_solver|done].
    + right. exists v. split; [set_solver|done].
Qed.

Lemma findPhiSlot_least fuel li ra (p : Instruction) : forall start s,
  findPhiSlot fuel li ra (val p) (phiEachArg p).*2 start = Ok s ->
  N.of_nat fuel + start < 18446744073709551616 ->
  start < s /\ freeForPhi li ra p s /\
  forall s', start < s' < s -> takenForPhi li ra p s'.
Proof.
  induction fuel as [|fuel IH]; intros start s; [done|].
  cbn [findPhiSlot]. intros H Hb.
  assert (slotIncr start = start + 1) as Hincr.
  { unfold slotIncr. apply N.mod_small. lia. }
  rewrite Hincr in H.
  apply bind_Ok in H as (b & Hp & H). apply bind_Ok in H as (b' & Hin & H).
  destruct b'.
  - injection H as <-. destruct b; [|done].
    apply allAvailable_true in Hin as [_ Hin].
    split; [lia|]. split; [|intros; lia].
    intros v [->|Hv]%elem_of_cons; auto.
  - apply IH in H as (Hlt & Hfree & Hmin); [|lia].
    split; [lia|]. split; [done|].
    intros s' Hs'. destruct (decide (s' = start + 1)) as [->|]; [|apply Hmin; lia].
    destruct b.
    + apply allAvailable_false in Hin as [|(v & Hv & Hf)]; [done|].
      exists v. split; [set_solver|done].
    + exists (val p). split; [set_solver|done].
Qed.

Lemma precolorPhi_assigns fuel li st (p : Instruction) st' :
  isPhi p = true -> st.1 !! val p = None ->
  precolorPhi fuel li st p = Ok st' ->
  exists s, findPhiSlot fuel li st.2 (val p) (phiEachArg p).*2 unassignedSlot
              = Ok s /\
            (forall v, v ∈ phiGroup p -> st'.1 !! v = Some s) /\
            (forall v, v ∉ phiGroup p -> st'.1 !! v = st.1 !! v).
Proof.
  intros Hphi Hn. unfold precolorPhi. rewrite Hphi. simpl.
  destruct (bool_decide_reflect (is_Some (st.1 !! val p))) as [Hs|Hs].
  { rewrite Hn in Hs. by destruct Hs. }
  intros H. apply bind_Ok in H as (slot & Hslot & [= <-]).
  exists slot. split; [done|].
  change (foldl (assignSlot slot) (assignSlot slot st (val p)) (phiEachArg p).*2)
    with (foldl (assignSlot slot) st (phiGroup p)).
  split; intros v Hv; rewrite foldl_assignSlot_alloc.
  - by rewrite decide_True.
  - by rewrite decide_False.
Qed.

End PhiSlotSearch.

Section VerifierPhis.

Lemma sameDefault_refl a : sameDefault a a.
Proof. done. Qed.

Lemma sameDefault_trans a b c :
  sameDefault a b -> sameDefault b c -> sameDefault a c.
Proof. intros H1 H2 v. by rewrite H2, H1. Qed.

Lemma sameDefault_touch a v : sameDefault a (touch a v).
Proof.
  intros w. unfold touch, allocOrDefault.
  destruct (a !! v) eqn:Hv; [done|].
  destruct (decide (w = v)) as [->|].
  - by rewrite lookup_insert_eq, Hv.
  - by rewrite lookup_insert_ne.
Qed.

Lemma phiMismatch_sameDefault a b p :
  sameDefault a b -> phiMismatch b p -> phiMismatch a p.
Proof.
  intros Hs (Hphi & x & i & Hx & Hi & Hne). split; [done|].
  exists x, i. by rewrite <- !Hs.
Qed.

Lemma sameDefault_sym a b : sameDefault a b -> sameDefault b a.
Proof. intros H v. by rewrite H. Qed.

Lemma verifyPhiArgs_ok phi slot args_ : forall alloc alloc',
  foldM (verifyPhiArg phi slot) alloc args_ = Ok alloc' ->
  sameDefault alloc alloc' /\
  forall a i, a ∈ args_ -> Instruction_Cast a = Some i ->
              allocOrDefault alloc a = slot.
Proof.
  induction args_ as [|x args_ IH]; intros alloc alloc'; simpl.
  - intros [= <-]. split; [done|set_solver].
  - intros H. apply bind_Ok in H as (alloc1 & H1 & H).
    apply IH in H as [Hs Hall].
    assert (sameDefault alloc alloc1 /\
            forall i, Instruction_Cast x = Some i -> allocOrDefault alloc x = slot)
      as [Hs1 Hx].
    { unfold verifyPhiArg in H1. destruct (Instruction_Cast x) as [i|].
      - destruct (decide _) as [|Heq]; [done|]. injection H1 as <-.
        split; [apply sameDefault_touch|]. intros _ _.
        by destruct (decide (allocOrDefault alloc x = slot)).
      - injection H1 as <-. done. }
    split; [by eapply sameDefault_trans|].
    intros a i [->|Ha]%elem_of_cons Hi; [eauto|].
    rewrite <- Hs1. eauto.
Qed.

Lemma writeResult_alloc i st : (writeResult i st).1.1 = st.1.1.
Proof.
  destruct st as [[alloc reg] stack]. simpl.
  destruct (alloc !! val i); [|done]. by destruct (_ =? _).
Qed.

Lemma verifyInstr_ok st i st' :
  verifyInstr st i = Ok st' ->
  sameDefault st.1.1 st'.1.1 /\ ~ phiMismatch st.1.1 i.
Proof.
  destruct st as [[alloc reg] stack]. unfold verifyInstr.
  destruct (isPhi i) eqn:Hphi.
  - intros H. apply bind_Ok in H as (slot & Hslot & H).
    apply bind_Ok in H as (alloc' & Ha & H).
    apply bind_Ok in H as (stack' & _ & H).
    assert (st' = writeResult i (alloc', reg, stack')) as -> by congruence.
    rewrite writeResult_alloc. simpl.
    apply verifyPhiArgs_ok in Ha as [Hs Hall]. split; [done|].
    intros (_ & a & j & Ha & Hj & Hne). apply Hne.
    rewrite (Hall a j Ha Hj). apply at_Ok in Hslot. 
    unfold allocOrDefault. by rewrite Hslot.
  - intros H. apply bind_Ok in H as (stack' & _ & H).
    assert (st' = writeResult i (alloc, reg, stack')) as -> by congruence.
    rewrite writeResult_alloc. simpl. split; [done|].
    intros [? _]. congruence.
Qed.

Lemma verifyInstrs_ok ins : forall st st',
  foldM verifyInstr st ins = Ok st' ->
  sameDefault st.1.1 st'.1.1 /\ forall p, p ∈ ins -> ~ phiMismatch st.1.1 p.
Proof.
  induction ins as [|i ins IH]; intros st st'; simpl.
  - intros [= <-]. split; [done|set_solver].
  - intros H. apply bind_Ok in H as (st1 & H1 & H).
    apply verifyInstr_ok in H1 as [Hs1 Hi]. apply IH in H as [Hs Hall].
    split; [by eapply sameDefault_trans|].
    intros p [->|Hp]%elem_of_cons; [done|].
    intros Hm. eapply Hall; [done|].
    destruct Hm as (Hphi & a & j & Ha & Hj & Hne). split; [done|].
    exists a, j. by rewrite !Hs1.
Qed.

Context (code : Code) (alloc0 : gmap Value SlotNumber).

Lemma explored_mono t t' b : t ⊆ t' -> explored code alloc0 t b -> explored code alloc0 t' b.
Proof. intros Hsub [? Hc]. split; [done|]. intros n Hn. apply Hsub. auto. Qed.

Lemma verifyBB_explores fuel : forall bb shared reg stack shared',
  verifyBB fuel code bb shared reg stack = Ok shared' ->
  sameDefault alloc0 shared.1 ->
  sameDefault alloc0 shared'.1 /\ shared.2 ⊆ shared'.2 /\
  explored code alloc0 shared'.2 bb /\
  (forall x y, (x, y) ∈ shared'.2 -> (x, y) ∉ shared.2 -> explored code alloc0 shared'.2 y).
Proof.
  induction fuel as [|fuel IH]; intros bb shared reg stack shared'; [done|].
  cbn [verifyBB]. intros H Hsd.
  apply bind_Ok in H as (st & Hwalk & H).
  apply bind_Ok in H as (u & _ & H).
  apply bind_Ok in H as (shared1 & Hfirst & Hsecond).
  cbn [fst snd] in Hfirst.
  apply verifyInstrs_ok in Hwalk as [Hs Hok]. simpl in Hs, Hok.
  assert (Hsd0 : sameDefault alloc0 st.1.1) by (by eapply sameDefault_trans).
  assert (Hblock : blockOk code alloc0 bb).
  { intros p Hp Hm. eapply Hok; [done|].
    eapply phiMismatch_sameDefault; [|done]. by apply sameDefault_sym. }
  (* the first edge *)
  assert (E1 : sameDefault alloc0 shared1.1 /\ shared.2 ⊆ shared1.2 /\
               (forall n, next0 (getBB code bb) = Some n -> (bb, n) ∈ shared1.2) /\
               (forall x y, (x, y) ∈ shared1.2 -> (x, y) ∉ shared.2 ->
                            explored code alloc0 shared1.2 y)).
  { destruct (next0 (getBB code bb)) as [n0|].
    - destruct (bool_decide_reflect ((bb, n0) ∈ shared.2)) as [Hin|Hin].
      + injection Hfirst as <-. simpl.
        split; [|split; [|split]]; [done|done|by intros ? [= <-]|].
        intros x y Hxy Hn. done.
      + apply IH in Hfirst as (I1 & I2 & I3 & I4); [|done]. simpl in *.
        split; [|split; [|split]];
          [done|set_solver|intros ? [= <-]; set_solver|].
        intros x y Hxy Hn.
        destruct (decide ((x, y) = (bb, n0))) as [[= -> ->]|Hne]; [done|].
        apply (I4 x y); [done|set_solver].
    - injection Hfirst as <-. simpl. split; [|split; [|split]]; done. }
  destruct E1 as (S1 & T1 & N1 & X1).
  (* the second edge *)
  assert (E2 : sameDefault alloc0 shared'.1 /\ shared1.2 ⊆ shared'.2 /\
               (forall n, next1 (getBB code bb) = Some n -> (bb, n) ∈ shared'.2) /\
               (forall x y, (x, y) ∈ shared'.2 -> (x, y) ∉ shared1.2 ->
                            explored code alloc0 shared'.2 y)).
  { destruct (next1 (getBB code bb)) as [n1|].
    - destruct (bool_decide_reflect ((bb, n1) ∈ shared1.2)) as [Hin|Hin].
      + injection Hsecond as <-.
        split; [|split; [|split]]; [done|done|by intros ? [= <-]|].
        intros x y Hxy Hn. done.
      + apply IH in Hsecond as (I1 & I2 & I3 & I4); [|done]. simpl in *.
        split; [|split; [|split]];
          [done|set_solver|intros ? [= <-]; set_solver|].
        intros x y Hxy Hn.
        destruct (decide ((x, y) = (bb, n1))) as [[= -> ->]|Hne]; [done|].
        apply (I4 x y); [done|set_solver].
    - injection Hsecond as <-. split; [|split; [|split]]; done. }
  destruct E2 as (S2 & T2 & N2 & X2).
  split; [done|]. split; [set_solver|]. split.
  - split; [done|]. intros n Hn. unfold successors in Hn.
    apply elem_of_app in Hn as [Hn|Hn].
    + destruct (next0 (getBB code bb)) as [n0|]; simpl in Hn; [|set_solver].
      apply list_elem_of_singleton in Hn as ->. apply T2, N1. done.
    + destruct (next1 (getBB code bb)) as [n1|]; simpl in Hn; [|set_solver].
      apply list_elem_of_singleton in Hn as ->. by apply N2.
  - intros x y Hxy Hn.
    destruct (decide ((x, y) ∈ shared1.2)) as [Hin|Hin].
    + eapply explored_mono; [exact T2|]. by apply (X1 x y).
    + by apply (X2 x y).
Qed.

Lemma verify_explores fuel shared b :
  verify fuel code alloc0 = Ok shared ->
  reachable code b -> explored code alloc0 shared.2 b.
Proof.
  unfold verify, reachable. intros H Hr.
  apply verifyBB_explores in H as (_ & _ & He & Hx); [|done].
  apply (rtc_ind_r (R := fun x y => y ∈ successors code x)
           (fun b => explored code alloc0 shared.2 b) (entry code));
    [done| |exact Hr].
  intros x y _ Hxy [_ Hc]. apply (Hx x y); [by apply Hc|set_solver].
Qed.


Lemma bind_terminates {A B} (m : result A) (k : A -> result B) :
  m <> OutOfFuel -> (forall a, m = Ok a -> k a <> OutOfFuel) ->
  m ≫= k <> OutOfFuel.
Proof. destruct m; simpl; [eauto|done|done]. Qed.

Lemma foldM_terminates {A B} (f : A -> B -> result A) l : forall a,
  (forall a b, f a b <> OutOfFuel) -> foldM f a l <> OutOfFuel.
Proof.
  induction l as [|b l IH]; intros a Hf; simpl; [done|].
  apply bind_terminates; [apply Hf|]. intros a' _. by apply IH.
Qed.

Lemma at_terminates {K A} `{Countable K} (m : gmap K A) k :
  at_ m k <> OutOfFuel.
Proof. unfold at_. by destruct (m !! k). Qed.

Lemma pop_back_terminates {A} (l : list A) : pop_back l <> OutOfFuel.
Proof. unfold pop_back. by destruct (reverse l). Qed.

Lemma verifyInstr_terminates st i : verifyInstr st i <> OutOfFuel.
Proof.
  destruct st as [[alloc reg] stack]. unfold verifyInstr.
  destruct (isPhi i).
  - apply bind_terminates; [apply at_terminates|]. intros slot _.
    apply bind_terminates.
    + apply foldM_terminates. intros a b. unfold verifyPhiArg.
      destruct (Instruction_Cast b); [|done]. by destruct (decide _).
    + intros alloc' _. apply bind_terminates; [|done].
      destruct (slot =? stackSlot); [|done].
      apply bind_terminates; [apply pop_back_terminates|done].
  - apply bind_terminates; [|done].
    apply foldM_terminates. intros a b. unfold verifyArg.
    destruct (Instruction_Cast b); [|done].
    destruct (alloc !! b) as [slot|]; [|done].
    apply bind_terminates.
    + destruct (slot =? stackSlot); [apply pop_back_terminates|].
      apply bind_terminates; [apply at_terminates|done].
    + intros gs _. by destruct (decide _).
Qed.

Lemma edge_next0 bb n : next0 (getBB code bb) = Some n -> (bb, n) ∈ edges code.
Proof.
  intros Hn. unfold edges. apply elem_of_list_to_set, list_elem_of_bind.
  exists bb. split.
  - apply list_elem_of_fmap. exists n. split; [done|].
    unfold successors. rewrite Hn. set_solver.
  - unfold getBB in Hn. destruct (bbs code !! bb) as [b|] eqn:Hb; [|done].
    apply list_elem_of_fmap. exists (bb, b). split; [done|].
    by apply elem_of_map_to_list.
Qed.

Lemma edge_next1 bb n : next1 (getBB code bb) = Some n -> (bb, n) ∈ edges code.
Proof.
  intros Hn. unfold edges. apply elem_of_list_to_set, list_elem_of_bind.
  exists bb. split.
  - apply list_elem_of_fmap. exists n. split; [done|].
    unfold successors. rewrite Hn. set_solver.
  - unfold getBB in Hn. destruct (bbs code !! bb) as [b|] eqn:Hb; [|done].
    apply list_elem_of_fmap. exists (bb, b). split; [done|].
    by apply elem_of_map_to_list.
Qed.

Lemma size_new_edge (E T : gset (nat * nat)) e :
  e ∈ E -> e ∉ T -> (size (E ∖ ({[e]} ∪ T)) < size (E ∖ T))%nat.
Proof. intros HE HT. apply subset_size. set_solver. Qed.

Lemma verifyBB_mono fuel : forall bb shared reg stack shared',
  verifyBB fuel code bb shared reg stack = Ok shared' -> shared.2 ⊆ shared'.2.
Proof.
  induction fuel as [|fuel IH]; intros bb shared reg stack shared'; [done|].
  cbn [verifyBB]. intros H.
  apply bind_Ok in H as (st & _ & H). apply bind_Ok in H as (u & _ & H).
  apply bind_Ok in H as (shared1 & Hfirst & Hsecond). cbn [fst snd] in Hfirst.
  assert (shared.2 ⊆ shared1.2) as H1.
  { destruct (next0 (getBB code bb)) as [n0|];
      [|injection Hfirst as <-; set_solver].
    destruct (bool_decide ((bb, n0) ∈ shared.2));
      [injection Hfirst as <-; set_solver|].
    apply IH in Hfirst. simpl in Hfirst. set_solver. }
  assert (shared1.2 ⊆ shared'.2) as H2.
  { destruct (next1 (getBB code bb)) as [n1|];
      [|injection Hsecond as <-; set_solver].
    destruct (bool_decide ((bb, n1) ∈ shared1.2));
      [injection Hsecond as <-; set_solver|].
    apply IH in Hsecond. simpl in Hsecond. set_solver. }
  set_solver.
Qed.

Lemma verifyBB_terminates fuel : forall bb shared reg stack,
  (size (edges code ∖ shared.2) < fuel)%nat ->
  verifyBB fuel code bb shared reg stack <> OutOfFuel.
Proof.
  induction fuel as [|fuel IH]; intros bb shared reg stack Hsz; [lia|].
  cbn [verifyBB].
  apply bind_terminates; [apply foldM_terminates, verifyInstr_terminates|].
  intros st _. apply bind_terminates.
  { unfold terminalCheck. destruct (_ && _); [|done]. by destruct (negb _). }
  intros _ _. cbn [fst snd].
  apply bind_terminates.
  - destruct (next0 (getBB code bb)) as [n0|] eqn:Hn0; [|done].
    destruct (bool_decide_reflect ((bb, n0) ∈ shared.2)) as [|Hnew]; [done|].
    apply IH. simpl.
    pose proof (size_new_edge (edges code) shared.2 (bb, n0)
                  (edge_next0 _ _ Hn0) Hnew). lia.
  - intros shared1 Hfirst.
    assert (shared.2 ⊆ shared1.2) as Hsub.
    { destruct (next0 (getBB code bb)) as [n0|];
        [|injection Hfirst as <-; set_solver].
      destruct (bool_decide ((bb, n0) ∈ shared.2));
        [injection Hfirst as <-; set_solver|].
      apply verifyBB_mono in Hfirst. simpl in Hfirst. set_solver. }
    destruct (next1 (getBB code bb)) as [n1|] eqn:Hn1; [|done].
    destruct (bool_decide_reflect ((bb, n1) ∈ shared1.2)) as [|Hnew]; [done|].
    apply IH. simpl.
    pose proof (size_new_edge (edges code) shared1.2 (bb, n1)
                  (edge_next1 _ _ Hn1) Hnew).
    assert (size (edges code ∖ shared1.2) <= size (edges code ∖ shared.2))%nat.
    { apply subseteq_size. set_solver. }
    lia.
Qed.

(** A phi of a reachable block with an input allocated elsewhere makes the
    verifier fail; with fuel for every edge it aborts. *)
Lemma verify_rejects_mismatch p bb :
  phiMismatch alloc0 p -> p ∈ instrs (getBB code bb) -> reachable code bb ->
  (forall fuel shared, verify fuel code alloc0 <> Ok shared) /\
  (forall fuel, (size (edges code) < fuel)%nat ->
     exists f, verify fuel code alloc0 = Abort f).
Proof.
  intros Hm Hp Hr.
  assert (forall fuel shared, verify fuel code alloc0 <> Ok shared) as Hno.
  { intros fuel shared H.
    destruct (verify_explores _ _ _ H Hr) as [Hok _]. by apply (Hok p). }
  split; [done|]. intros fuel Hsz.
  destruct (verify fuel code alloc0) as [shared| f |] eqn:Hv.
  - by apply Hno in Hv.
  - eauto.
  - exfalso. revert Hv. apply verifyBB_terminates. simpl.
    assert (size (edges code ∖ ∅) <= size (edges code))%nat
      by (apply subseteq_size; set_solver). lia.
Qed.

End VerifierPhis.

Lemma at_Some {K A} `{Countable K} (m : gmap K A) k a :
  m !! k = Some a -> at_ m k = Ok a.
Proof. unfold at_. by intros ->. Qed.

Section SlotSearchReturns.

Context (li : gmap Value Liveness) (ra : gmap SlotNumber (list Value)).

Lemma interfere_terminates a b : interfere a b <> OutOfFuel.
Proof. unfold interfere. by destruct (decide _). Qed.

Lemma availableAgainst_terminates i others :
  availableAgainst li i others <> OutOfFuel.
Proof.
  induction others as [|o others IH]; simpl; [done|].
  apply bind_terminates; [apply at_terminates|]. intros lo _.
  apply bind_terminates; [apply at_terminates|]. intros l _.
  apply bind_terminates; [apply interfere_terminates|]. intros b _.
  by destruct b.
Qed.

Lemma allAvailable_terminates slot vs : forall b,
  allAvailable li ra slot vs b <> OutOfFuel.
Proof.
  induction vs as [|v vs IH]; intros b; simpl; [done|].
  apply bind_terminates; [apply availableAgainst_terminates|].
  intros b' _. apply IH.
Qed.

(** A slot that holds no value is available to every value. *)
Lemma slotIsAvailable_free slot v :
  ra !! slot = None -> slotIsAvailable li ra slot v = Ok true.
Proof. intros H. unfold slotIsAvailable, slotMembers. by rewrite H. Qed.

Lemma allAvailable_free slot vs : forall b,
  ra !! slot = None -> allAvailable li ra slot vs b = Ok b.
Proof.
  induction vs as [|v vs IH]; intros b H; simpl; [done|].
  rewrite slotIsAvailable_free by done. simpl. by apply IH.
Qed.

(** A search that has run out of turns has found every slot it tried in
    use. *)
Lemma findFreeSlotFrom_stuck i fuel : forall start,
  N.of_nat fuel + start < 18446744073709551616 ->
  findFreeSlotFrom fuel li ra i start = OutOfFuel ->
  forall k, start < k <= start + N.of_nat fuel -> is_Some (ra !! k).
Proof.
  induction fuel as [|fuel IH]; intros start Hb H k Hk; [lia|].
  cbn [findFreeSlotFrom] in H.
  assert (slotIncr start = start + 1) as Hincr.
  { unfold slotIncr. apply N.mod_small. lia. }
  rewrite Hincr in H.
  destruct (slotIsAvailable li ra (start + 1) i) as [b| |] eqn:Hav;
    simpl in H; [|done|by apply availableAgainst_terminates in Hav].
  destruct b; [done|].
  destruct (decide (k = start + 1)) as [->|Hne].
  - destruct (ra !! (start + 1)) eqn:Hra; [eauto|].
    by rewrite slotIsAvailable_free in Hav.
  - apply (IH (start + 1)); [lia|done|lia].
Qed.

Lemma findPhiSlot_stuck p inputs fuel : forall start,
  N.of_nat fuel + start < 18446744073709551616 ->
  findPhiSlot fuel li ra p inputs start = OutOfFuel ->
  forall k, start < k <= start + N.of_nat fuel -> is_Some (ra !! k).
Proof.
  induction fuel as [|fuel IH]; intros start Hb H k Hk; [lia|].
  cbn [findPhiSlot] in H.
  assert (slotIncr start = start + 1) as Hincr.
  { unfold slotIncr. apply N.mod_small. lia. }
  rewrite Hincr in H.
  destruct (slotIsAvailable li ra (start + 1) p) as [b| |] eqn:Hav;
    simpl in H; [|done|by apply availableAgainst_terminates in Hav].
  destruct (if b then allAvailable li ra (start + 1) inputs true else Ok false)
    as [b'| |] eqn:Hall; simpl in H; [|done|].
  2:{ destruct b; [by apply allAvailable_terminates in Hall|done]. }
  destruct b'; [done|].
  destruct (decide (k = start + 1)) as [->|Hne].
  - destruct (ra !! (start + 1)) eqn:Hra; [eauto|].
    rewrite slotIsAvailable_free in Hav by done. injection Hav as <-.
    by rewrite allAvailable_free in Hall.
  - apply (IH (start + 1)); [lia|done|lia].
Qed.

(** No more slots are in use than [reverseAlloc] has keys. *)
Lemma slots_in_use fuel :
  (forall k, 0 < k <= N.of_nat fuel -> is_Some (ra !! k)) ->
  (fuel <= size ra)%nat.
Proof.
  intros Hall.
  set (X := list_to_set (N.of_nat <$> seq 1 fuel) : gset N).
  assert (X ⊆ dom ra) as Hsub.
  { intros k Hk. apply elem_of_list_to_set in Hk.
    apply list_elem_of_fmap in Hk as (n & -> & Hn).
    apply elem_of_seq in Hn. apply elem_of_dom, Hall. lia. }
  apply subseteq_size in Hsub. rewrite size_dom in Hsub.
  unfold X in Hsub. rewrite size_list_to_set in Hsub.
  - by rewrite length_fmap, length_seq in Hsub.
  - apply NoDup_fmap_2; [intros x y Hxy; by apply Nat2N.inj|apply NoDup_seq].
Qed.

Lemma findFreeSlotFrom_returns i fuel :
  N.of_nat fuel < 18446744073709551616 -> (size ra < fuel)%nat ->
  findFreeSlotFrom fuel li ra i unassignedSlot <> OutOfFuel.
Proof.
  intros Hb Hsize H.
  assert (fuel <= size ra)%nat; [|lia].
  apply slots_in_use. intros k Hk.
  apply (findFreeSlotFrom_stuck i fuel unassignedSlot);
    unfold unassignedSlot; [lia|done|lia].
Qed.

Lemma findPhiSlot_returns p inputs fuel :
  N.of_nat fuel < 18446744073709551616 -> (size ra < fuel)%nat ->
  findPhiSlot fuel li ra p inputs unassignedSlot <> OutOfFuel.
Proof.
  intros Hb Hsize H.
  assert (fuel <= size ra)%nat; [|lia].
  apply slots_in_use. intros k Hk.
  apply (findPhiSlot_stuck p inputs fuel unassignedSlot);
    unfold unassignedSlot; [lia|done|lia].
Qed.

(** With the liveness on record the availability test gives an answer. *)
Lemma availableAgainst_answers n i l others :
  li !! i = Some l -> length l = n ->
  (forall o, o ∈ others -> exists lo, li !! o = Some lo /\ length lo = n) ->
  exists b, availableAgainst li i others = Ok b.
Proof.
  intros Hi Hl. induction others as [|o others IH]; intros Ho;
    cbn [availableAgainst]; [eauto|].
  destruct (Ho o) as (lo & Hlo & Hlen); [by left|].
  rewrite (at_Some (A:=Liveness) li o lo Hlo).
  rewrite (at_Some (A:=Liveness) li i l Hi). cbn [mbind result_bind].
  assert (interfere lo l = Ok (interfere_loop lo l)) as ->
    by (unfold interfere; rewrite decide_True by congruence; done).
  simpl. destruct (interfere_loop lo l); [eauto|].
  apply IH. intros o' Ho'. apply Ho. by right.
Qed.

Lemma slotIsAvailable_answers vs slot v :
  livenessKnown li ra vs -> v ∈ vs ->
  exists b, slotIsAvailable li ra slot v = Ok b.
Proof.
  intros (n & Hvs & Hra) Hv. destruct (Hvs v Hv) as (l & Hl & Hlen).
  apply (availableAgainst_answers n v l); [done|done|].
  intros o Ho. by apply (Hra slot).
Qed.

Lemma allAvailable_answers vs slot inputs : forall b,
  livenessKnown li ra vs -> (forall v, v ∈ inputs -> v ∈ vs) ->
  exists b', allAvailable li ra slot inputs b = Ok b'.
Proof.
  induction inputs as [|v inputs IH]; intros b Hk Hin; simpl; [eauto|].
  destruct (slotIsAvailable_answers vs slot v Hk) as [b1 ->];
    [apply Hin; by left|]. simpl.
  apply IH; [done|]. intros v' Hv'. apply Hin. by right.
Qed.

Lemma findFreeSlotFrom_no_abort i fuel : forall start f,
  livenessKnown li ra [i] ->
  findFreeSlotFrom fuel li ra i start <> Abort f.
Proof.
  induction fuel as [|fuel IH]; intros start f Hk; [done|].
  cbn [findFreeSlotFrom].
  destruct (slotIsAvailable_answers [i] (slotIncr start) i Hk) as [b ->];
    [by left|]. simpl.
  destruct b; [done|]. by apply IH.
Qed.

Lemma findPhiSlot_no_abort p inputs fuel : forall start f,
  livenessKnown li ra (p :: inputs) ->
  findPhiSlot fuel li ra p inputs start <> Abort f.
Proof.
  induction fuel as [|fuel IH]; intros start f Hk; [done|].
  cbn [findPhiSlot].
  destruct (slotIsAvailable_answers (p :: inputs) (slotIncr start) p Hk)
    as [b ->]; [by left|]. simpl.
  destruct (allAvailable_answers (p :: inputs) (slotIncr start) inputs true Hk)
    as [b' Hb']; [intros v Hv; by right|].
  destruct b.
  - rewrite Hb'. simpl. destruct b'; [done|]. by apply IH.
  - simpl. by apply IH.
Qed.

End SlotSearchReturns.

(** The phi pre-colouring returns: the search needs a turn more than there
    are slots in use, and with the liveness on record it gives a slot. *)
Lemma precolorPhi_returns fuel li st (p : Instruction) :
  N.of_nat fuel < 18446744073709551616 -> (size st.2 < fuel)%nat ->
  precolorPhi fuel li st p <> OutOfFuel /\
  (livenessKnown li st.2 (phiGroup p) ->
   exists st', precolorPhi fuel li st p = Ok st').
Proof.
  intros Hb Hsize. unfold precolorPhi.
  destruct (negb (isPhi p) || bool_decide (is_Some (st.1 !! val p)));
    [split; [done|eauto]|].
  pose proof (findPhiSlot_returns li st.2 (val p) (phiEachArg p).*2 fuel
                Hb Hsize) as Hret.
  destruct (findPhiSlot fuel li st.2 (val p) (phiEachArg p).*2 unassignedSlot)
    as [s|f|] eqn:Hs; [|split; [done|]|done].
  - split; [done|eauto].
  - intros Hk.
    by apply (findPhiSlot_no_abort li st.2 _ _ fuel unassignedSlot f) in Hk.
Qed.

Section PhiCoalescingClaim.


Lemma loop_conventional : conventional (visited loop_cssa loop_order).
Proof. apply (bool_decide_unpack _). vm_compute. reflexivity. Qed.


(** With slot 1 taken by %3, which is live together with the copy %8, the
    pre-colouring gives the phi %2 and its inputs slot 2. *)
Example precolorPhi_loop :
  let p := phiInstr 2 [0; 1]%nat [VInstr 7; VInstr 8] in
  let st := ({[VInstr 3 := 1]} : gmap Value SlotNumber,
             {[1 := [VInstr 3]]} : gmap SlotNumber (list Value)) in
  (size st.2 < 10)%nat /\
  exists st', precolorPhi 10 loop_liveness st p = Ok st' /\
    map_to_list st'.1
    = [(VInstr 8, 2); (VInstr 2, 2); (VInstr 7, 2); (VInstr 3, 1)].
Proof.
  split; [vm_compute; lia|].
  eexists. split; vm_compute; reflexivity.
Qed.

(** Moving the copy %7 to slot 2 while its phi %2 stays in slot 1 is caught
    by the verifier when it reaches the phi. *)
Example verify_rejects_split_phi :
  verify 10 loop_cssa (<[VInstr 7 := 2]> loop_allocation)
  = Abort (PhiInputAllocation 2 7).
Proof. vm_compute. reflexivity. Qed.

End PhiCoalescingClaim.

Section CodeOperations.

Lemma elem_of_allInstrs code i :
  i ∈ allInstrs code <-> exists b bb, bbs code !! b = Some bb /\ i ∈ instrs bb.
Proof.
  unfold allInstrs. rewrite list_elem_of_In, in_flat_map. split.
  - intros ([b bb] & Hin & Hi). exists b, bb. simpl in Hi.
    apply list_elem_of_In in Hin, Hi.
    by apply elem_of_map_to_list in Hin.
  - intros (b & bb & Hb & Hi). exists (b, bb). simpl.
    split; apply list_elem_of_In; [by apply elem_of_map_to_list|done].
Qed.

Lemma elem_of_getBB code b i :
  i ∈ instrs (getBB code b) -> i ∈ allInstrs code.
Proof.
  unfold getBB. intros Hi. apply elem_of_allInstrs.
  destruct (bbs code !! b) as [bb|] eqn:Hb; [eauto|]. simpl in Hi. set_solver.
Qed.

Lemma elem_of_insertAt {A} pos (x : A) l y :
  y ∈ insertAt pos x l <-> y = x \/ y ∈ l.
Proof.
  unfold insertAt. rewrite elem_of_app, elem_of_cons.
  rewrite <- (take_drop pos l) at 3. rewrite elem_of_app. tauto.
Qed.

Lemma lookup_insertAt {A} pos (x : A) l n :
  (pos <= length l)%nat ->
  insertAt pos x l !! n =
    if decide (n < pos)%nat then l !! n
    else if decide (n = pos) then Some x else l !! (n - 1)%nat.
Proof.
  intros Hpos. unfold insertAt.
  destruct (decide (n < pos)%nat).
  - rewrite lookup_app_l by (rewrite length_take; lia).
    by rewrite lookup_take_lt.
  - rewrite lookup_app_r by (rewrite length_take; lia).
    rewrite length_take, Nat.min_l by lia.
    destruct (decide (n = pos)) as [->|].
    + by rewrite Nat.sub_diag.
    + destruct (n - pos)%nat as [|m] eqn:Hm; [lia|]. simpl.
      rewrite lookup_drop. f_equal. lia.
Qed.

Lemma length_insertAt {A} pos (x : A) l :
  length (insertAt pos x l) = S (length l).
Proof.
  unfold insertAt. rewrite length_app. simpl. rewrite length_take, length_drop. lia.
Qed.

Lemma getBB_updateBB code b f b' :
  is_Some (bbs code !! b) ->
  instrs (getBB (updateBB b f code) b') =
    if decide (b' = b) then f (instrs (getBB code b')) else instrs (getBB code b').
Proof.
  intros [bb Hb]. unfold getBB, updateBB. simpl.
  destruct (decide (b' = b)) as [->|Hne].
  - by rewrite lookup_alter_eq, Hb.
  - by rewrite lookup_alter_ne.
Qed.

Lemma getBB_mapInstrs code f b :
  instrs (getBB (mapInstrs f code) b) = f <$> instrs (getBB code b).
Proof.
  unfold getBB, mapInstrs. simpl. rewrite lookup_fmap.
  by destruct (bbs code !! b).
Qed.

Lemma elem_of_updateBB_insert code b pos x i :
  is_Some (bbs code !! b) ->
  i ∈ allInstrs (updateBB b (insertAt pos x) code) <->
  i = x \/ i ∈ allInstrs code.
Proof.
  intros [bb0 Hb0]. rewrite !elem_of_allInstrs. unfold updateBB. simpl. split.
  - intros (b' & bb & Hb & Hi).
    destruct (decide (b' = b)) as [->|Hne].
    + rewrite lookup_alter_eq, Hb0 in Hb. injection Hb as <-. simpl in Hi.
      apply elem_of_insertAt in Hi as [?|?]; eauto.
    + rewrite lookup_alter_ne in Hb by done. eauto.
  - intros [->|(b' & bb & Hb & Hi)].
    + exists b, (withInstrs (insertAt pos x) bb0).
      rewrite lookup_alter_eq, Hb0. split; [done|]. simpl.
      apply elem_of_insertAt. by left.
    + destruct (decide (b' = b)) as [->|Hne].
      * exists b, (withInstrs (insertAt pos x) bb0).
        rewrite lookup_alter_eq, Hb0. split; [done|]. simpl.
        apply elem_of_insertAt. right. congruence.
      * exists b', bb. by rewrite lookup_alter_ne.
Qed.

Lemma elem_of_mapInstrs code f i :
  i ∈ allInstrs (mapInstrs f code) <->
  exists j, j ∈ allInstrs code /\ i = f j.
Proof.
  unfold mapInstrs. split.
  - intros (b & bb & Hb & Hi)%elem_of_allInstrs. simpl in Hb.
    rewrite lookup_fmap in Hb.
    destruct (bbs code !! b) as [bb0|] eqn:Hb0; [|done].
    injection Hb as <-. simpl in Hi.
    apply list_elem_of_fmap in Hi as (j & -> & Hj).
    exists j. split; [|done]. apply elem_of_allInstrs. eauto.
  - intros (j & (b & bb & Hb & Hj)%elem_of_allInstrs & ->).
    apply elem_of_allInstrs. exists b, (withInstrs (fmap f) bb). simpl.
    rewrite lookup_fmap, Hb. split; [done|]. simpl.
    apply list_elem_of_fmap. eauto.
Qed.

Lemma le_foldr_max (l : list nat) x : x ∈ l -> (x <= foldr Nat.max 0 l)%nat.
Proof.
  induction l as [|y l IH]; [set_solver|].
  intros [->|Hx]%elem_of_cons; simpl; [lia|]. specialize (IH Hx). lia.
Qed.

Lemma freshPtr_ptr code i : i ∈ allInstrs code -> (ptr i < freshPtr code)%nat.
Proof.
  intros Hi. unfold freshPtr. apply Nat.lt_succ_r, le_foldr_max.
  apply list_elem_of_bind. exists i. split; [|done]. unfold ptrsOf. set_solver.
Qed.

Lemma freshPtr_arg code i c :
  i ∈ allInstrs code -> VInstr c ∈ args i -> (c < freshPtr code)%nat.
Proof.
  intros Hi Hc. unfold freshPtr. apply Nat.lt_succ_r, le_foldr_max.
  apply list_elem_of_bind. exists i. split; [|done]. unfold ptrsOf.
  right. apply list_elem_of_omap. exists (VInstr c). done.
Qed.

End CodeOperations.

Section CodeInvariants.

Lemma persists_refl code : persists code code.
Proof. intros i Hi. eauto. Qed.

Lemma persists_trans a b c : persists a b -> persists b c -> persists a c.
Proof.
  intros Hab Hbc i Hi. destruct (Hab i Hi) as (j & Hj & Hp & Ht).
  destruct (Hbc j Hj) as (k & Hk & Hp' & Ht'). exists k. split; [done|].
  split; congruence.
Qed.

Lemma persists_insert code b pos x :
  is_Some (bbs code !! b) ->
  persists code (updateBB b (insertAt pos x) code).
Proof.
  intros Hb i Hi. exists i. split; [|done].
  apply elem_of_updateBB_insert; auto.
Qed.

Lemma persists_mapInstrs code f :
  (forall j, ptr (f j) = ptr j /\ tag (f j) = tag j) ->
  persists code (mapInstrs f code).
Proof.
  intros Hf i Hi. exists (f i). split; [apply elem_of_mapInstrs; eauto|].
  apply Hf.
Qed.

Lemma objIdent_insert code b pos x :
  objIdent code -> is_Some (bbs code !! b) ->
  (forall i, i ∈ allInstrs code -> ptr i <> ptr x) ->
  objIdent (updateBB b (insertAt pos x) code).
Proof.
  intros Hid Hb Hx i j Hi Hj Hp.
  apply elem_of_updateBB_insert in Hi; [|done].
  apply elem_of_updateBB_insert in Hj; [|done].
  destruct Hi as [->|Hi], Hj as [->|Hj]; [done| | |by apply Hid].
  - exfalso. by eapply Hx.
  - exfalso. by eapply Hx.
Qed.

Lemma objIdent_mapInstrs code f :
  objIdent code -> (forall j, ptr (f j) = ptr j) -> objIdent (mapInstrs f code).
Proof.
  intros Hid Hf i j
    (i0 & Hi & ->)%elem_of_mapInstrs (j0 & Hj & ->)%elem_of_mapInstrs Hp.
  rewrite !Hf in Hp. by rewrite (Hid i0 j0 Hi Hj Hp).
Qed.

Lemma phisFrom_refl bb it code : phisFrom bb it code code.
Proof. intros b n q' Hq Hphi. exists n, q'. done. Qed.

Lemma phisFrom_trans bb it a b c :
  phisFrom bb it a b -> phisFrom bb it b c -> phisFrom bb it a c.
Proof.
  intros Hab Hbc blk n q'' Hq Hphi.
  destruct (Hbc blk n q'' Hq Hphi) as (n1 & q' & Hq' & Hp' & Hphi' & Hn1).
  destruct (Hab blk n1 q' Hq' Hphi') as (n0 & q & Hq0 & Hp & Hphi0 & Hn0).
  exists n0, q. split; [done|]. split; [congruence|]. split; [done|].
  intros Hb Hn. specialize (Hn1 Hb Hn). subst n1. auto.
Qed.

Lemma phisFrom_insert bb it code b pos x :
  is_Some (bbs code !! b) ->
  (pos <= length (instrs (getBB code b)))%nat ->
  isPhi x = false ->
  (b = bb -> (it <= pos)%nat) ->
  phisFrom bb it code (updateBB b (insertAt pos x) code).
Proof.
  intros Hb Hpos Hx Hit blk n q' Hq Hphi.
  rewrite getBB_updateBB in Hq by done.
  destruct (decide (blk = b)) as [->|Hne]; [|exists n, q'; done].
  rewrite lookup_insertAt in Hq by done.
  destruct (decide (n < pos)%nat); [exists n, q'; done|].
  destruct (decide (n = pos)); [injection Hq as <-; congruence|].
  exists (n - 1)%nat, q'. split; [done|]. split; [done|]. split; [done|].
  intros Hbb Hn. specialize (Hit Hbb). lia.
Qed.

Lemma isPhi_tag i j : tag i = tag j -> isPhi i = isPhi j.
Proof. unfold isPhi. by intros ->. Qed.

Lemma phisFrom_mapInstrs bb it code f :
  (forall j, ptr (f j) = ptr j /\ tag (f j) = tag j) ->
  phisFrom bb it code (mapInstrs f code).
Proof.
  intros Hf blk n q' Hq Hphi. rewrite getBB_mapInstrs, list_lookup_fmap in Hq.
  destruct (instrs (getBB code blk) !! n) as [q|] eqn:Hq0; [|done].
  injection Hq as <-. exists n, q. split; [done|].
  destruct (Hf q) as [Hp Ht]. split; [done|]. split; [|done].
  by rewrite <- (isPhi_tag _ _ Ht).
Qed.

Lemma convArg_insert code0 code p k a b pos x :
  convArg code0 code p k a -> is_Some (bbs code !! b) -> a ∉ args x ->
  convArg code0 (updateBB b (insertAt pos x) code) p k a.
Proof.
  intros [(c & Hc & Hv & Ht & Hnew) Hsole] Hb Hx. split.
  - exists c. split; [apply elem_of_updateBB_insert; auto|done].
  - intros j k' Hj Ha. apply elem_of_updateBB_insert in Hj; [|done].
    destruct Hj as [->|Hj]; [|auto].
    exfalso. apply Hx. by eapply list_elem_of_lookup_2.
Qed.

Lemma convArg_mapInstrs code0 code p k a f :
  convArg code0 code p k a ->
  (forall j, ptr (f j) = ptr j /\ tag (f j) = tag j) ->
  (forall j k', j ∈ allInstrs code -> args (f j) !! k' = Some a ->
                args j !! k' = Some a) ->
  convArg code0 (mapInstrs f code) p k a.
Proof.
  intros [(c & Hc & Hv & Ht & Hnew) Hsole] Hf Huse. split.
  - exists (f c). destruct (Hf c) as [Hp Htag].
    split; [apply elem_of_mapInstrs; eauto|].
    split; [unfold val in *; congruence|]. split; [congruence|].
    intros i Hi. rewrite Hp. auto.
  - intros j' k' (j & Hj & ->)%elem_of_mapInstrs Ha.
    destruct (Hf j) as [Hp _]. rewrite Hp. eauto.
Qed.

Lemma setArg_ptr_tag phi k v j :
  ptr (setArg phi k v j) = ptr j /\ tag (setArg phi k v j) = tag j.
Proof. unfold setArg. by destruct (decide _). Qed.

Lemma setArg_use phi k v j k' a :
  v <> a -> args (setArg phi k v j) !! k' = Some a -> args j !! k' = Some a.
Proof.
  unfold setArg. destruct (decide _); [|done]. simpl. intros Hv Ha.
  destruct (decide (k = k')) as [->|Hne].
  - apply list_lookup_insert_Some in Ha as [(_ & ? & _)|(? & _)]; congruence.
  - by rewrite list_lookup_insert_ne in Ha.
Qed.

Lemma setArg_other phi k v j : ptr j <> phi -> setArg phi k v j = j.
Proof. unfold setArg. intros H. by rewrite decide_False. Qed.

Lemma replace_ptr_tag (g : Value -> Value) j :
  ptr (withArgs (fmap g) j) = ptr j /\ tag (withArgs (fmap g) j) = tag j.
Proof. done. Qed.

Lemma withArgs_id f j : f (args j) = args j -> withArgs f j = j.
Proof. destruct j. unfold withArgs. simpl. by intros ->. Qed.

Lemma replace_use p r j k' a :
  r <> a ->
  args (withArgs (fmap (fun x => if decide (x = VInstr p) then r else x)) j) !! k'
    = Some a ->
  args j !! k' = Some a.
Proof.
  simpl. intros Hr. rewrite list_lookup_fmap.
  destruct (args j !! k') as [x|]; [|done]. simpl.
  destruct (decide _); congruence.
Qed.

Lemma replace_unused p r j :
  VInstr p ∉ args j ->
  withArgs (fmap (fun x => if decide (x = VInstr p) then r else x)) j = j.
Proof.
  intros Hp. apply withArgs_id.
  induction (args j) as [|x l IH]; [done|]. simpl.
  rewrite decide_False by set_solver. f_equal. apply IH. set_solver.
Qed.

End CodeInvariants.

Section SplitPhi.

Context (code0 : Code) (bb it : nat) (phi : Instruction) (start : Code).

Lemma castOrNull_instr a c : castOrNull a = VInstr c -> a = VInstr c.
Proof. by destruct a. Qed.

Lemma insertPhiInput_inv k a code code' :
  splitInv code0 bb it phi start k code ->
  args phi !! k = Some a ->
  insertPhiInput phi code (k, a) = Ok code' ->
  splitInv code0 bb it phi start (S k) code'.
Proof.
  intros (Hid & Hp0 & Hps & Hfrom & Hkeep & Hoth & (phi' & Hphi' & Hptr & Htag & Hlen
          & Hrest & Hdone) & (q & Hq & Hqphi)) Ha.
  unfold insertPhiInput. simpl.
  destruct (input phi !! k) as [pred|]; [|done].
  destruct (bbs code !! pred) as [pb|] eqn:Hpb; [|done].
  intros H. apply bind_Ok in H as (pos & Hpos & [= <-]).
  set (c := freshPtr code) in *.
  set (x := mkPirCopy c (castOrNull a)) in *.
  set (code1 := updateBB pred (insertAt pos x) code).
  set (f := setArg (ptr phi) k (VInstr c)).
  assert (Hb : is_Some (bbs code !! pred)) by eauto.
  assert (Hgetpb : getBB code pred = pb) by (unfold getBB; by rewrite Hpb).
  assert (Hpos' : (pos <= length (instrs pb))%nat /\
                  (length (instrs pb) - 1 <= pos)%nat).
  { destruct (isJmp pb); [injection Hpos as <-; lia|].
    destruct (length (instrs pb) =? 0)%nat; [done|]. injection Hpos as <-. lia. }
  assert (Hfresh : forall i, i ∈ allInstrs code -> ptr i <> c).
  { intros i Hi. pose proof (freshPtr_ptr code i Hi). unfold c. lia. }
  assert (Hunused : forall i, i ∈ allInstrs code -> VInstr c ∉ args i).
  { intros i Hi Hc. pose proof (freshPtr_arg code i c Hi Hc). unfold c in *. lia. }
  assert (Hf : forall j, ptr (f j) = ptr j /\ tag (f j) = tag j)
    by (intros j; apply setArg_ptr_tag).
  assert (Hak : args phi' !! k = Some a) by (rewrite Hrest by lia; done).
  assert (Hxarg : forall a1, a1 ∈ args x -> a1 = VInstr c \/ a1 = a \/ a1 = VNull).
  { intros a1 Ha1. simpl in Ha1. apply list_elem_of_singleton in Ha1 as ->.
    destruct a; simpl; auto. }
  assert (Hcne : forall a1 c1, c1 ∈ allInstrs code -> val c1 = a1 ->
                               VInstr c <> a1).
  { intros a1 c1 Hc1 <- [= Heq]. by apply (Hfresh c1). }
  assert (Hx1 : x ∈ allInstrs code1).
  { apply elem_of_updateBB_insert; auto. }
  assert (Hxf : f x = x).
  { apply setArg_other. simpl. rewrite <- Hptr. intros Heq.
    by apply (Hfresh phi'). }
  assert (Hpos_it : pred = bb -> (it <= pos)%nat).
  { intros ->. rewrite Hgetpb in Hq. apply lookup_lt_Some in Hq. lia. }
  split; [|split; [|split; [|split; [|split; [|split; [|split]]]]]].
  - apply objIdent_mapInstrs; [|apply Hf].
    apply objIdent_insert; [done|done|]. intros i Hi. simpl. by apply Hfresh.
  - eapply persists_trans; [exact Hp0|].
    eapply persists_trans; [by apply persists_insert|by apply persists_mapInstrs].
  - eapply persists_trans; [exact Hps|].
    eapply persists_trans; [by apply persists_insert|by apply persists_mapInstrs].
  - eapply phisFrom_trans; [exact Hfrom|].
    eapply phisFrom_trans; [|by apply phisFrom_mapInstrs].
    apply phisFrom_insert; [done|rewrite Hgetpb; lia|done|done].
  - intros q0 Hq0 Hne. apply elem_of_mapInstrs. exists q0. split.
    + apply elem_of_updateBB_insert; auto.
    + unfold f. by rewrite setArg_other.
  - intros q0 Hq0 Hne Hconv.
    pose proof (Hoth q0 Hq0 Hne Hconv) as Hconvc.
    intros k1 a1 Ha1. specialize (Hconvc k1 a1 Ha1).
    destruct Hconvc as [(c1 & Hc1 & Hv1 & Ht1 & Hn1) Hsole].
    apply convArg_mapInstrs; [|done|].
    + apply convArg_insert; [by split; [exists c1|]|done|].
      intros [Heq|[Heq|Heq]]%Hxarg.
      * by apply (Hcne a1 c1).
      * rewrite <- Heq in Hak.
        destruct (Hsole phi' k Hphi' Hak) as [Hpp _]. congruence.
      * rewrite Heq in Hv1. by destruct c1.
    + intros j k' _. apply setArg_use. by apply (Hcne a1 c1).
  - exists (f phi'). split; [apply elem_of_mapInstrs; exists phi'; split;
      [apply elem_of_updateBB_insert; auto|done]|].
    destruct (Hf phi') as [-> ->]. split; [done|]. split; [done|].
    assert (Hargs : args (f phi') = <[k := VInstr c]> (args phi')).
    { unfold f, setArg. by rewrite decide_True. }
    rewrite Hargs. split; [by rewrite length_insert|]. split.
    + intros k' Hk'. rewrite list_lookup_insert_ne by lia. apply Hrest. lia.
    + intros k' a' Hk' Ha'.
      destruct (decide (k' = k)) as [->|Hne].
      * rewrite list_lookup_insert_eq in Ha'
          by (apply lookup_lt_Some in Hak; done).
        injection Ha' as <-. split.
        -- exists x. split; [apply elem_of_mapInstrs; exists x; done|].
           split; [done|]. split; [done|].
           intros i Hi. destruct (Hp0 i Hi) as (j & Hj & Hpj & _).
           simpl. rewrite <- Hpj. by apply Hfresh.
        -- intros j' k1 (j & Hj & ->)%elem_of_mapInstrs Huse.
           destruct (Hf j) as [-> _].
           apply elem_of_updateBB_insert in Hj; [|done].
           destruct Hj as [->|Hj].
           ++ exfalso. rewrite Hxf in Huse. simpl in Huse.
              destruct k1; [|done]. injection Huse as Huse.
              apply castOrNull_instr in Huse. subst a.
              apply (Hunused phi' Hphi'). by eapply list_elem_of_lookup_2.
           ++ unfold f, setArg in Huse.
              destruct (decide (ptr j = ptr phi)) as [Hjp|Hjp].
              ** split; [done|]. simpl in Huse.
                 destruct (decide (k1 = k)) as [|Hk1]; [done|].
                 rewrite list_lookup_insert_ne in Huse by done.
                 exfalso. apply (Hunused j Hj). by eapply list_elem_of_lookup_2.
              ** exfalso. apply (Hunused j Hj). by eapply list_elem_of_lookup_2.
      * rewrite list_lookup_insert_ne in Ha' by done.
        assert (convArg code0 code (ptr phi) k' a') as Hc by (apply Hdone; [lia|done]).
        destruct Hc as [(c1 & Hc1 & Hv1 & Ht1 & Hn1) Hsole].
        apply convArg_mapInstrs; [|done|].
        -- apply convArg_insert; [by split; [exists c1|]|done|].
           intros [Heq|[Heq|Heq]]%Hxarg.
           ++ by apply (Hcne a' c1).
           ++ rewrite <- Heq in Hak.
              destruct (Hsole phi' k Hphi' Hak) as [_ Hkk]. lia.
           ++ rewrite Heq in Hv1. by destruct c1.
        -- intros j k1 _. apply setArg_use. by apply (Hcne a' c1).
  - assert (exists q1, instrs (getBB code1 bb) !! it = Some q1 /\
                       (ptr q1 = ptr phi \/ isPhi q1 = false)) as (q1 & Hq1 & Hq1phi).
    { unfold code1. rewrite getBB_updateBB by done.
      destruct (decide (bb = pred)) as [->|Hne]; [|eauto].
      rewrite lookup_insertAt by (rewrite Hgetpb; lia).
      specialize (Hpos_it eq_refl).
      destruct (decide (it < pos)%nat); [eauto|].
      rewrite decide_True by lia. exists x. split; [done|by right]. }
    exists (f q1). rewrite getBB_mapInstrs, list_lookup_fmap.
    fold code1. rewrite Hq1. split; [done|].
    destruct (Hf q1) as [Hp Ht]. rewrite Hp, (isPhi_tag _ _ Ht). done.
Qed.

Lemma foldM_imap_inv {A B} (f : A -> nat * B -> result A) (P : nat -> A -> Prop)
    (l : list B) s s' :
  (forall k b s s', l !! k = Some b -> P k s -> f s (k, b) = Ok s' -> P (S k) s') ->
  P 0%nat s -> foldM f s (imap pair l) = Ok s' -> P (length l) s'.
Proof.
  intros Hstep.
  assert (forall l2 l1 s, l = l1 ++ l2 -> P (length l1) s ->
            foldM f s (imap (fun i => pair (length l1 + i)%nat) l2) = Ok s' ->
            P (length l) s') as Hgen.
  { induction l2 as [|b l2 IH]; intros l1 s1 -> HP H.
    - simpl in H. injection H as <-. by rewrite length_app, Nat.add_0_r.
    - simpl in H. apply bind_Ok in H as (s2 & Hs2 & H).
      rewrite Nat.add_0_r in Hs2.
      apply (IH (l1 ++ [b]) s2).
      + by rewrite <- app_assoc.
      + rewrite length_app. simpl. rewrite Nat.add_1_r.
        apply (Hstep _ b s1); [|done|done].
        by rewrite lookup_app_r, Nat.sub_diag by lia.
      + rewrite <- H. f_equal. apply imap_ext. intros i x _. simpl.
        f_equal. rewrite length_app. simpl. lia. }
  intros HP H. by apply (Hgen l [] s).
Qed.

Lemma getBB_is_Some code b n q :
  instrs (getBB code b) !! n = Some q -> is_Some (bbs code !! b).
Proof. unfold getBB. destruct (bbs code !! b); [eauto|done]. Qed.

Lemma mapInstrs_is_Some code f b :
  is_Some (bbs code !! b) -> is_Some (bbs (mapInstrs f code) !! b).
Proof. simpl. rewrite lookup_fmap. by intros [x ->]. Qed.

Lemma splitInv_start :
  objIdent start -> persists code0 start ->
  instrs (getBB start bb) !! it = Some phi -> isPhi phi = true ->
  splitInv code0 bb it phi start 0 start.
Proof.
  intros Hid Hp Hit Hphi.
  split; [done|]. split; [done|]. split; [apply persists_refl|].
  split; [apply phisFrom_refl|]. split; [done|]. split; [done|]. split.
  - exists phi. split; [by eapply elem_of_getBB, list_elem_of_lookup_2|].
    split; [done|]. split; [by apply bool_decide_eq_true in Hphi|].
    split; [done|]. split; [done|]. intros; lia.
  - exists phi. auto.
Qed.

(** What [splitPhi] leaves behind. *)
Lemma splitPhi_spec code' :
  objIdent start -> persists code0 start ->
  instrs (getBB start bb) !! it = Some phi -> isPhi phi = true ->
  splitPhi bb it phi start = Ok code' ->
  objIdent code' /\ persists code0 code' /\ phisFrom bb it start code' /\
  (forall q, q ∈ allInstrs start -> ptr q <> ptr phi ->
     conventionalPhi code0 start q ->
     q ∈ allInstrs code' /\ conventionalPhi code0 code' q) /\
  (exists phi', phi' ∈ allInstrs code' /\ ptr phi' = ptr phi /\
     conventionalPhi code0 code' phi') /\
  (exists q, instrs (getBB code' bb) !! it = Some q /\
             (ptr q = ptr phi \/ isPhi q = false)) /\
  (exists q, instrs (getBB code' bb) !! S it = Some q /\ isPhi q = false).
Proof.
  intros Hid0 Hp00 Hit Hphi. unfold splitPhi. intros H.
  apply bind_Ok in H as (code1 & Hloop & H).
  destruct (feedsItself bb phi) eqn:Hself; [done|]. injection H as <-.
  apply (foldM_imap_inv _ (splitInv code0 bb it phi start)) in Hloop;
    [|intros k b s s' Hk HP; by apply insertPhiInput_inv|by apply splitInv_start].
  destruct Hloop as (Hid & Hp0 & Hps & Hfrom & Hkeep & Hoth & (phi' & Hphi' & Hptr
    & Htag & Hlen & _ & Hdone) & (q & Hq & Hqphi)).
  set (pc := freshPtr code1) in *.
  set (g := withArgs (fmap (fun a => if decide (a = VInstr (ptr phi))
                                     then VInstr pc else a))).
  set (x := mkPirCopy pc (val phi)).
  assert (Hcode2 : replaceUsesWith (ptr phi) (VInstr pc) code1 = mapInstrs g code1)
    by done.
  rewrite Hcode2. set (code2 := mapInstrs g code1).
  assert (Hg : forall j, ptr (g j) = ptr j /\ tag (g j) = tag j)
    by (intros j; apply replace_ptr_tag).
  assert (Hfresh : forall i, i ∈ allInstrs code1 -> ptr i <> pc).
  { intros i Hi. pose proof (freshPtr_ptr code1 i Hi). unfold pc. lia. }
  assert (Hb : is_Some (bbs code2 !! bb)).
  { apply mapInstrs_is_Some. by eapply getBB_is_Some. }
  assert (Hconvphi : forall q0, q0 ∈ allInstrs code1 ->
            conventionalPhi code0 code1 q0 -> VInstr (ptr phi) ∉ args q0).
  { intros q0 Hq0 Hconv (k1 & Hk1)%list_elem_of_lookup_1.
    destruct (Hconv k1 _ Hk1) as [(c1 & Hc1 & Hv1 & Ht1 & _) _].
    injection Hv1 as Hv1. rewrite <- Hptr in Hv1.
    assert (c1 = phi') by by apply Hid. congruence. }
  assert (Hconv_keep : forall q0, q0 ∈ allInstrs code1 ->
            conventionalPhi code0 code1 q0 ->
            q0 ∈ allInstrs (updateBB bb (insertAt (S it) x) code2) /\
            conventionalPhi code0 (updateBB bb (insertAt (S it) x) code2) q0).
  { intros q0 Hq0 Hconv.
    assert (g q0 = q0) as Hgq by (apply replace_unused; by apply Hconvphi).
    split.
    - apply elem_of_updateBB_insert; [done|]. right.
      apply elem_of_mapInstrs. by exists q0.
    - intros k1 a1 Ha1.
      destruct (Hconv k1 a1 Ha1) as [(c1 & Hc1 & Hv1 & Ht1 & Hn1) Hsole].
      apply convArg_insert; [|done|].
      + apply convArg_mapInstrs; [by split; [exists c1|]|done|].
        intros j k' _. apply replace_use. rewrite <- Hv1. intros [= Heq].
        by apply (Hfresh c1).
      + simpl. intros ->%list_elem_of_singleton.
        apply (Hconvphi q0 Hq0 Hconv). by eapply list_elem_of_lookup_2. }
  assert (Hphi'conv : conventionalPhi code0 code1 phi').
  { intros k1 a1 Ha1. rewrite Hptr. apply Hdone; [|done].
    apply lookup_lt_Some in Ha1. lia. }
  split; [|split; [|split; [|split; [|split; [|split]]]]].
  - apply objIdent_insert; [|done|].
    + apply objIdent_mapInstrs; [done|apply Hg].
    + intros i (j & Hj & ->)%elem_of_mapInstrs. destruct (Hg j) as [-> _].
      by apply Hfresh.
  - eapply persists_trans; [exact Hp0|].
    eapply persists_trans; [by apply persists_mapInstrs|by apply persists_insert].
  - eapply phisFrom_trans; [exact Hfrom|].
    eapply phisFrom_trans; [by apply phisFrom_mapInstrs|].
    apply phisFrom_insert; [done| |done|lia].
    unfold code2. rewrite getBB_mapInstrs, length_fmap.
    apply lookup_lt_Some in Hq. lia.
  - intros q0 Hq0 Hne Hconv. apply Hconv_keep; auto.
  - exists phi'. split; [by apply Hconv_keep|]. split; [done|].
    by apply Hconv_keep.
  - exists (g q). rewrite getBB_updateBB by done. rewrite decide_True by done.
    unfold code2. rewrite getBB_mapInstrs.
    rewrite lookup_insertAt
      by (rewrite length_fmap; apply lookup_lt_Some in Hq; lia).
    rewrite decide_True by lia. rewrite list_lookup_fmap, Hq. split; [done|].
    destruct (Hg q) as [Hp Ht]. by rewrite Hp, (isPhi_tag _ _ Ht).
  - exists x. rewrite getBB_updateBB by done. rewrite decide_True by done.
    unfold code2. rewrite getBB_mapInstrs.
    rewrite lookup_insertAt
      by (rewrite length_fmap; apply lookup_lt_Some in Hq; lia).
    rewrite decide_False by lia. by rewrite decide_True.
Qed.

End SplitPhi.

Section CssaWalk.

Context (code0 : Code).

Lemma splitPhi_inv visitedBlocks bb it phi code code' :
  cssaInv code0 visitedBlocks bb it code ->
  instrs (getBB code bb) !! it = Some phi -> isPhi phi = true ->
  splitPhi bb it phi code = Ok code' ->
  cssaInv code0 visitedBlocks bb (S (S it)) code'.
Proof.
  intros (Hid & Hp & Hconv) Hit Hphi Hsplit.
  destruct (splitPhi_spec code0 bb it phi code code' Hid Hp Hit Hphi Hsplit)
    as (Hid' & Hp' & Hfrom & Hoth & (phi' & Hphi' & Hptr & Hconv')
        & (q1 & Hq1 & Hq1phi) & (q2 & Hq2 & Hq2phi)).
  split; [done|]. split; [done|].
  intros b n q' Hn Hq' Hwhere.
  assert (Hq'in : q' ∈ allInstrs code')
    by by eapply elem_of_getBB, list_elem_of_lookup_2.
  destruct (decide (ptr q' = ptr phi)) as [Heq|Hne].
  { assert (q' = phi') as -> by (apply Hid'; congruence). done. }
  destruct (Hfrom b n q' Hn Hq') as (n0 & q & Hn0 & Hpq & Hq & Hsame).
  assert (Hqin : q ∈ allInstrs code)
    by by eapply elem_of_getBB, list_elem_of_lookup_2.
  assert (conventionalPhi code0 code q) as Hcq.
  { destruct Hwhere as [Hb|[-> Hlt]].
    - apply (Hconv b n0 q); auto.
    - destruct (decide (n < it)%nat) as [Hlt'|Hge].
      + rewrite <- (Hsame eq_refl Hlt') in Hlt'. apply (Hconv bb n0 q); auto.
      + exfalso. assert (n = it \/ n = S it) as [->| ->] by lia.
        * rewrite Hq1 in Hn. injection Hn as ->.
          destruct Hq1phi; congruence.
        * rewrite Hq2 in Hn. injection Hn as ->. congruence. }
  destruct (Hoth q Hqin ltac:(congruence) Hcq) as [Hq_in' Hq_conv'].
  assert (q' = q) as -> by (apply Hid'; congruence). done.
Qed.

Lemma cssaBlock_inv fuel visitedBlocks bb : forall it code code',
  cssaInv code0 visitedBlocks bb it code ->
  cssaBlock fuel bb it code = Ok code' ->
  cssaInv code0 (bb :: visitedBlocks) 0 0 code'.
Proof.
  induction fuel as [|fuel IH]; intros it code code' Hinv H; [done|].
  simpl in H. destruct (instrs (getBB code bb) !! it) as [instr|] eqn:Hit.
  - destruct (isPhi instr) eqn:Hphi.
    + apply bind_Ok in H as (code1 & Hsplit & H).
      apply (IH (S (S it)) code1); [|done].
      by apply (splitPhi_inv _ _ _ instr code).
    + apply (IH (S it) code); [|done].
      destruct Hinv as (Hid & Hp & Hconv). split; [done|]. split; [done|].
      intros b n q Hn Hq [Hb|[-> Hlt]]; [by apply (Hconv b n q); auto|].
      destruct (decide (n = it)) as [->|Hne]; [congruence|].
      apply (Hconv bb n q); auto. right. split; [done|lia].
  - injection H as <-. destruct Hinv as (Hid & Hp & Hconv).
    split; [done|]. split; [done|].
    intros b n q Hn Hq [Hb|[_ Hlt]]; [|lia].
    apply (Hconv b n q); [done|done|].
    apply elem_of_cons in Hb as [->|Hb]; [right|by left].
    split; [done|]. apply lookup_lt_Some in Hn.
    apply lookup_ge_None in Hit. lia.
Qed.

Lemma toCSSA_inv fuel order : forall visitedBlocks code code',
  cssaInv code0 visitedBlocks 0 0 code ->
  toCSSA fuel order code = Ok code' ->
  cssaInv code0 (reverse order ++ visitedBlocks) 0 0 code'.
Proof.
  unfold toCSSA.
  induction order as [|bb order IH]; intros visitedBlocks code code' Hinv H.
  - injection H as <-. done.
  - simpl in H. apply bind_Ok in H as (code1 & Hbb & H).
    rewrite reverse_cons, <- app_assoc. simpl.
    apply (IH _ code1); [|done].
    apply (cssaBlock_inv fuel visitedBlocks bb 0 code); [|done].
    destruct Hinv as (Hid & Hp & Hconv). split; [done|]. split; [done|].
    intros b n q Hn Hq [Hb|[_ Hlt]]; [|lia]. apply (Hconv b n q); auto.
Qed.

End CssaWalk.

Lemma toCSSA_conventional fuel order code code' :
  objIdent code -> toCSSA fuel order code = Ok code' ->
  forall bb n q, bb ∈ order -> instrs (getBB code' bb) !! n = Some q ->
    isPhi q = true -> conventionalPhi code code' q.
Proof.
  intros Hid H bb n q Hbb Hn Hq.
  apply (toCSSA_inv code fuel order [] code code') in H.
  - destruct H as (_ & _ & Hconv). apply (Hconv bb n q); [done|done|].
    left. rewrite app_nil_r. by apply elem_of_reverse.
  - split; [done|]. split; [apply persists_refl|].
    intros b n0 q0 _ _ [Hb|[_ Hlt]]; [set_solver|lia].
Qed.

Section Placement.

Lemma insertPhiInput_Ok phi code k a code' :
  insertPhiInput phi code (k, a) = Ok code' ->
  exists pred pb,
    input phi !! k = Some pred /\ bbs code !! pred = Some pb /\
    code' = mapInstrs (setArg (ptr phi) k (VInstr (freshPtr code)))
              (updateBB pred
                 (insertAt (if isJmp pb then length (instrs pb)
                            else (length (instrs pb) - 1)%nat)
                    (mkPirCopy (freshPtr code) (castOrNull a))) code) /\
    (isJmp pb = false -> instrs pb <> []).
Proof.
  unfold insertPhiInput. simpl.
  destruct (input phi !! k) as [pred|]; [|done].
  destruct (bbs code !! pred) as [pb|] eqn:Hpb; [|done].
  intros H. exists pred, pb. split; [done|]. split; [done|].
  destruct (isJmp pb); [by injection H as <-|].
  destruct (instrs pb) as [|i l]; [done|]. by injection H as <-.
Qed.

Lemma isJmp_updateBB code b f b' :
  isJmp (getBB (updateBB b f code) b') = isJmp (getBB code b').
Proof.
  unfold getBB, updateBB. simpl.
  destruct (decide (b' = b)) as [->|Hne].
  - rewrite lookup_alter_eq. by destruct (bbs code !! b).
  - by rewrite lookup_alter_ne.
Qed.

Lemma isJmp_mapInstrs code f b :
  isJmp (getBB (mapInstrs f code) b) = isJmp (getBB code b).
Proof.
  unfold getBB, mapInstrs. simpl. rewrite lookup_fmap.
  by destruct (bbs code !! b).
Qed.

Lemma insertAt_end {A} (x : A) l : insertAt (length l) x l = l ++ [x].
Proof. unfold insertAt. by rewrite firstn_all, drop_all. Qed.

Lemma insertAt_before_last {A} (x y : A) l :
  insertAt (length (l ++ [y]) - 1) x (l ++ [y]) = l ++ [x; y].
Proof.
  unfold insertAt. rewrite length_app. simpl.
  replace (length l + 1 - 1)%nat with (length l) by lia.
  by rewrite take_app_length, drop_app_length.
Qed.

(** Where [insertPhiInput] puts the copy. *)
Lemma insertPhiInput_placement phi code k a code' :
  insertPhiInput phi code (k, a) = Ok code' ->
  exists pred pb,
    input phi !! k = Some pred /\ bbs code !! pred = Some pb /\
    let c := mkPirCopy (freshPtr code) (castOrNull a) in
    let f := setArg (ptr phi) k (val c) in
    (isJmp pb = true -> instrs (getBB code' pred) = f <$> (instrs pb ++ [c])) /\
    (isJmp pb = false ->
       exists l br, instrs pb = l ++ [br] /\
                    instrs (getBB code' pred) = f <$> (l ++ [c; br])) /\
    (phi ∈ allInstrs code -> args phi !! k = Some a ->
       exists phi', phi' ∈ allInstrs code' /\ ptr phi' = ptr phi /\
                    args phi' = <[k := val c]> (args phi)).
Proof.
  intros (pred & pb & Hin & Hpb & -> & Hne)%insertPhiInput_Ok.
  exists pred, pb. split; [done|]. split; [done|]. simpl.
  assert (Hget : getBB code pred = pb) by (unfold getBB; by rewrite Hpb).
  rewrite getBB_mapInstrs, getBB_updateBB by eauto.
  rewrite decide_True by done. rewrite Hget.
  split; [|split].
  - intros ->. by rewrite insertAt_end.
  - intros Hj. rewrite Hj. specialize (Hne Hj).
    destruct (exists_last Hne) as (l & br & Hl). exists l, br.
    split; [done|]. by rewrite Hl, insertAt_before_last.
  - intros Hphi Ha. exists (setArg (ptr phi) k (VInstr (freshPtr code)) phi).
    split.
    + apply elem_of_mapInstrs. exists phi. split; [|done].
      apply elem_of_updateBB_insert; eauto.
    + split; [apply setArg_ptr_tag|]. unfold setArg. by rewrite decide_True.
Qed.

Lemma insertPhiInput_position phi bb it code k a code' :
  (exists q, instrs (getBB code bb) !! it = Some q /\ ptr q = ptr phi /\
             tag q = tag phi) ->
  (S it < length (instrs (getBB code bb)))%nat \/ isJmp (getBB code bb) = true ->
  insertPhiInput phi code (k, a) = Ok code' ->
  (exists q, instrs (getBB code' bb) !! it = Some q /\ ptr q = ptr phi /\
             tag q = tag phi) /\
  ((S it < length (instrs (getBB code' bb)))%nat \/
   isJmp (getBB code' bb) = true).
Proof.
  intros (q & Hq & Hptr & Htag) Hwf
    (pred & pb & Hin & Hpb & -> & Hne)%insertPhiInput_Ok.
  assert (Hget : getBB code pred = pb) by (unfold getBB; by rewrite Hpb).
  rewrite isJmp_mapInstrs, isJmp_updateBB, getBB_mapInstrs, length_fmap.
  rewrite getBB_updateBB by eauto.
  set (f := setArg (ptr phi) k (VInstr (freshPtr code))).
  destruct (setArg_ptr_tag (ptr phi) k (VInstr (freshPtr code)) q) as [Hp Ht].
  destruct (decide (bb = pred)) as [->|Hbb].
  - rewrite Hget in *. rewrite length_insertAt. split; [|destruct Hwf; [left; lia|auto]].
    exists (f q). rewrite list_lookup_fmap.
    apply lookup_lt_Some in Hq as Hlt.
    rewrite lookup_insertAt by (destruct (isJmp pb); lia).
    rewrite decide_True.
    + rewrite Hq. simpl. split; [done|]. unfold f. split; congruence.
    + destruct Hwf as [Hwf|Hwf]; [destruct (isJmp pb); lia|by rewrite Hwf].
  - split; [|done]. exists (f q). rewrite list_lookup_fmap, Hq.
    split; [done|]. unfold f. split; congruence.
Qed.

(** Where [splitPhi] puts the copy of the phi, and who uses the phi
    afterwards. *)
Lemma splitPhi_placement bb it phi code code' :
  objIdent code ->
  instrs (getBB code bb) !! it = Some phi -> isPhi phi = true ->
  (S it < length (instrs (getBB code bb)))%nat \/ isJmp (getBB code bb) = true ->
  splitPhi bb it phi code = Ok code' ->
  exists pc phi',
    (forall i, i ∈ allInstrs code -> ptr i <> pc) /\
    instrs (getBB code' bb) !! it = Some phi' /\ ptr phi' = ptr phi /\
    isPhi phi' = true /\
    instrs (getBB code' bb) !! S it = Some (mkPirCopy pc (val phi)) /\
    (forall j k, j ∈ allInstrs code' -> args j !! k = Some (val phi) ->
                 j = mkPirCopy pc (val phi)) /\
    (forall j k, j ∈ allInstrs code -> ptr j <> ptr phi ->
                 args j !! k = Some (val phi) ->
                 exists j', j' ∈ allInstrs code' /\ ptr j' = ptr j /\
                            args j' !! k = Some (VInstr pc)).
Proof.
  intros Hid Hit Hphi Hwf. unfold splitPhi. intros H.
  apply bind_Ok in H as (code1 & Hloop & H).
  destruct (feedsItself bb phi) eqn:Hself; [done|]. injection H as <-.
  apply (foldM_imap_inv _ (fun k c =>
           splitInv code bb it phi code k c /\
           (exists q, instrs (getBB c bb) !! it = Some q /\ ptr q = ptr phi /\
                      tag q = tag phi) /\
           ((S it < length (instrs (getBB c bb)))%nat \/
            isJmp (getBB c bb) = true))) in Hloop.
  2:{ intros k b s s' Hk [HP [Hpos Hw]] Hs. split.
      - by apply (insertPhiInput_inv _ _ _ _ _ k b s).
      - by apply (insertPhiInput_position phi bb it s k b). }
  2:{ split; [apply splitInv_start; [done|apply persists_refl|done|done]|].
      split; [eauto|done]. }
  destruct Hloop as [(Hid1 & Hp0 & _ & _ & Hkeep & _) [(q & Hq & Hptr & Htag) _]].
  set (pc := freshPtr code1) in *.
  set (g := withArgs (fmap (fun a => if decide (a = VInstr (ptr phi))
                                     then VInstr pc else a))).
  set (x := mkPirCopy pc (val phi)).
  assert (Hcode2 : replaceUsesWith (ptr phi) (VInstr pc) code1 = mapInstrs g code1)
    by done.
  rewrite Hcode2. set (code2 := mapInstrs g code1).
  assert (Hb : is_Some (bbs code2 !! bb)).
  { apply mapInstrs_is_Some. by eapply getBB_is_Some. }
  assert (Hfresh : forall i, i ∈ allInstrs code1 -> ptr i <> pc).
  { intros i Hi. pose proof (freshPtr_ptr code1 i Hi). unfold pc. lia. }
  assert (Hlook : forall n, instrs (getBB (updateBB bb (insertAt (S it) x) code2) bb) !! n
            = if decide (n < S it)%nat then g <$> instrs (getBB code1 bb) !! n
              else if decide (n = S it) then Some x
                   else g <$> instrs (getBB code1 bb) !! (n - 1)%nat).
  { intros n. rewrite getBB_updateBB by done. rewrite decide_True by done.
    unfold code2. rewrite getBB_mapInstrs.
    rewrite lookup_insertAt
      by (rewrite length_fmap; apply lookup_lt_Some in Hq; lia).
    by rewrite !list_lookup_fmap. }
  exists pc, (g q). split; [|split; [|split; [|split; [|split; [|split]]]]].
  - intros i Hi. destruct (Hp0 i Hi) as (j & Hj & <- & _). by apply Hfresh.
  - rewrite Hlook, decide_True by lia. by rewrite Hq.
  - done.
  - apply bool_decide_eq_true. simpl. rewrite Htag.
    by apply bool_decide_eq_true in Hphi.
  - rewrite Hlook, decide_False by lia. by rewrite decide_True.
  - intros j k Hj Huse.
    apply elem_of_updateBB_insert in Hj; [|done].
    destruct Hj as [->|(j1 & Hj1 & ->)%elem_of_mapInstrs]; [done|].
    exfalso. simpl in Huse. rewrite list_lookup_fmap in Huse.
    destruct (args j1 !! k) as [a|]; [|done]. simpl in Huse.
    destruct (decide (a = VInstr (ptr phi))) as [->|Hne].
    + injection Huse as Heq. apply (Hfresh q); [|congruence].
      by eapply elem_of_getBB, list_elem_of_lookup_2.
    + injection Huse as ->. by apply Hne.
  - intros j k Hj Hne Huse. exists (g j). split; [|split; [done|]].
    + apply elem_of_updateBB_insert; [done|]. right.
      apply elem_of_mapInstrs. exists j. split; [by apply Hkeep|done].
    + simpl. rewrite list_lookup_fmap, Huse. simpl. by rewrite decide_True.
Qed.

End Placement.

Section CssaClaim.

Lemma toCSSA_objIdent fuel order code code' :
  objIdent code -> toCSSA fuel order code = Ok code' -> objIdent code'.
Proof.
  intros Hid H. apply (toCSSA_inv code fuel order [] code code') in H.
  - by destruct H as (? & _).
  - split; [done|]. split; [apply persists_refl|].
    intros b n0 q0 _ _ [Hb|[_ Hlt]]; [set_solver|lia].
Qed.

(** C6. [toCSSA] on code with one object per address: in the code it returns,
    every operand of every phi of a visited block is the result of a copy
    that the code did not hold before and that nothing but this operand of
    this phi uses. The body of the inner loop, [insertPhiInput], puts the copy
    for input [k] into the block [input[k]]: at the end when that block is a
    jump, immediately before its last instruction (the branch) otherwise, and
    makes it operand [k] of the phi. The body for one phi, [splitPhi], leaves
    the phi where it was when the phi does not end a block that is not a
    jump, puts a copy of the phi right behind it, and leaves that copy as
    only user of the phi: what used the phi before uses the copy. A phi
    that is fed from its own block leaves the pass with an iterator into a
    vector it has inserted into: that run is undefined and returns
    nothing. *)
Theorem cssa_transformation fuel order code code' :
  objIdent code ->
  toCSSA fuel order code = Ok code' ->
  (forall bb n q, bb ∈ order -> instrs (getBB code' bb) !! n = Some q ->
     isPhi q = true -> conventionalPhi code code' q) /\
  (forall phi c k a c',
     insertPhiInput phi c (k, a) = Ok c' ->
     exists pred pb,
       input phi !! k = Some pred /\ bbs c !! pred = Some pb /\
       let cp := mkPirCopy (freshPtr c) (castOrNull a) in
       let f := setArg (ptr phi) k (val cp) in
       (isJmp pb = true -> instrs (getBB c' pred) = f <$> (instrs pb ++ [cp])) /\
       (isJmp pb = false ->
          exists l br, instrs pb = l ++ [br] /\
                       instrs (getBB c' pred) = f <$> (l ++ [cp; br])) /\
       (phi ∈ allInstrs c -> args phi !! k = Some a ->
          exists phi', phi' ∈ allInstrs c' /\ ptr phi' = ptr phi /\
                       args phi' = <[k := val cp]> (args phi))) /\
  (forall bb it phi c c',
     objIdent c ->
     instrs (getBB c bb) !! it = Some phi -> isPhi phi = true ->
     (S it < length (instrs (getBB c bb)))%nat \/ isJmp (getBB c bb) = true ->
     splitPhi bb it phi c = Ok c' ->
     exists pc phi',
       (forall i, i ∈ allInstrs c -> ptr i <> pc) /\
       instrs (getBB c' bb) !! it = Some phi' /\ ptr phi' = ptr phi /\
       isPhi phi' = true /\
       instrs (getBB c' bb) !! S it = Some (mkPirCopy pc (val phi)) /\
       (forall j k, j ∈ allInstrs c' -> args j !! k = Some (val phi) ->
                    j = mkPirCopy pc (val phi)) /\
       (forall j k, j ∈ allInstrs c -> ptr j <> ptr phi ->
                    args j !! k = Some (val phi) ->
                    exists j', j' ∈ allInstrs c' /\ ptr j' = ptr j /\
                               args j' !! k = Some (VInstr pc))).
Proof.
  intros Hid H. split; [|split].
  - intros bb n q. by apply (toCSSA_conventional fuel order code code').
  - intros phi c k a c'. apply insertPhiInput_placement.
  - intros bb it phi c c'. apply splitPhi_placement.
Qed.

Lemma objIdent_NoDup code : NoDup (ptr <$> allInstrs code) -> objIdent code.
Proof.
  intros Hnd i j (n & Hn)%list_elem_of_lookup_1 (m & Hm)%list_elem_of_lookup_1 Heq.
  assert (n = m) as ->.
  { apply (NoDup_lookup _ n m (ptr i) Hnd); rewrite list_lookup_fmap.
    - by rewrite Hn.
    - rewrite Hm. simpl. by rewrite Heq. }
  congruence.
Qed.

Lemma diamond_objIdent : objIdent diamond.
Proof.
  apply objIdent_NoDup. apply (bool_decide_unpack _). vm_compute. reflexivity.
Qed.

(** After [toCSSA] the code is in the form the allocator relies on. *)
Corollary toCSSA_conventional_form fuel order code code' :
  objIdent code -> toCSSA fuel order code = Ok code' ->
  conventional (visited code' order).
Proof.
  intros Hid H.
  pose proof (toCSSA_objIdent _ _ _ _ Hid H) as Hid'.
  pose proof (toCSSA_conventional _ _ _ _ Hid H) as Hconv.
  assert (Hin : forall p, p ∈ visited code' order ->
            p ∈ allInstrs code' /\
            exists bb n, bb ∈ order /\ instrs (getBB code' bb) !! n = Some p).
  { intros p (bb & Hp & Hbb)%list_elem_of_bind. split; [by eapply elem_of_getBB|].
    apply list_elem_of_lookup_1 in Hp as (n & Hn). eauto. }
  assert (Hargs : forall p v, v ∈ (phiEachArg p).*2 -> exists k, args p !! k = Some v).
  { intros p v (x & -> & Hx)%list_elem_of_fmap. unfold phiEachArg in Hx.
    apply list_elem_of_lookup_1 in Hx as (k & Hk).
    apply lookup_zip_with_Some in Hk as (b & a & -> & _ & Ha). eauto. }
  split; [|split]; apply Forall_forall; intros p Hp.
  - apply Forall_forall. intros q Hq. apply Hid'; by apply Hin.
  - intros Hphi. apply Forall_forall. intros q Hq Hqphi Huse.
    destruct (Hin p Hp) as (_ & bb & n & Hbb & Hn).
    destruct (Hargs p _ Huse) as (k & Hk).
    destruct (Hconv bb n p Hbb Hn Hphi k _ Hk) as [(c & Hc & Hv & Ht & _) _].
    injection Hv as Hv. assert (c = q) as -> by (apply Hid'; [done|by apply Hin|done]).
    apply bool_decide_eq_true in Hqphi. congruence.
  - intros Hphi. apply Forall_forall. intros q Hq Hqphi.
    apply Forall_forall. intros v Hv Hvq.
    destruct (Hin p Hp) as (Hpin & bb & n & Hbb & Hn).
    destruct (Hin q Hq) as (Hqin & _).
    destruct (Hargs p _ Hv) as (k & Hk). destruct (Hargs q _ Hvq) as (k' & Hk').
    destruct (Hconv bb n p Hbb Hn Hphi k _ Hk) as [_ Hsole].
    destruct (Hsole q k' Hqin Hk') as [Hptr _]. by apply Hid'.
Qed.

Lemma cssa_transformation_witness :
  (forall bb n q, bb ∈ diamond_order ->
     instrs (getBB diamond_cssa bb) !! n = Some q ->
     isPhi q = true -> conventionalPhi diamond diamond_cssa q) /\
  (forall phi c k a c',
     insertPhiInput phi c (k, a) = Ok c' ->
     exists pred pb,
       input phi !! k = Some pred /\ bbs c !! pred = Some pb /\
       let cp := mkPirCopy (freshPtr c) (castOrNull a) in
       let f := setArg (ptr phi) k (val cp) in
       (isJmp pb = true -> instrs (getBB c' pred) = f <$> (instrs pb ++ [cp])) /\
       (isJmp pb = false ->
          exists l br, instrs pb = l ++ [br] /\
                       instrs (getBB c' pred) = f <$> (l ++ [cp; br])) /\
       (phi ∈ allInstrs c -> args phi !! k = Some a ->
          exists phi', phi' ∈ allInstrs c' /\ ptr phi' = ptr phi /\
                       args phi' = <[k := val cp]> (args phi))) /\
  (forall bb it phi c c',
     objIdent c ->
     instrs (getBB c bb) !! it = Some phi -> isPhi phi = true ->
     (S it < length (instrs (getBB c bb)))%nat \/ isJmp (getBB c bb) = true ->
     splitPhi bb it phi c = Ok c' ->
     exists pc phi',
       (forall i, i ∈ allInstrs c -> ptr i <> pc) /\
       instrs (getBB c' bb) !! it = Some phi' /\ ptr phi' = ptr phi /\
       isPhi phi' = true /\
       instrs (getBB c' bb) !! S it = Some (mkPirCopy pc (val phi)) /\
       (forall j k, j ∈ allInstrs c' -> args j !! k = Some (val phi) ->
                    j = mkPirCopy pc (val phi)) /\
       (forall j k, j ∈ allInstrs c -> ptr j <> ptr phi ->
                    args j !! k = Some (val phi) ->
                    exists j', j' ∈ allInstrs c' /\ ptr j' = ptr j /\
                               args j' !! k = Some (VInstr pc))).
Proof.
  apply (cssa_transformation 10 diamond_order diamond diamond_cssa);
    [exact diamond_objIdent|vm_compute; reflexivity].
Defined.

(** What [toCSSA] makes of the diamond: the copies %8 and %9 end the jumps
    BB1 and BB2 and feed the phi, the copy %10 follows the phi and takes its
    place in [Return]. *)
Example diamond_cssa_blocks :
  toCSSA 10 diamond_order diamond = Ok diamond_cssa /\
  instrs (getBB diamond_cssa 0) = instrs (getBB diamond 0) /\
  instrs (getBB diamond_cssa 1) =
    [instr 4 Tag.Inc [VInstr 1]; instr 8 Tag.PirCopy [VInstr 4]] /\
  instrs (getBB diamond_cssa 2) =
    [instr 5 Tag.Force [VInstr 1]; instr 9 Tag.PirCopy [VInstr 5]] /\
  instrs (getBB diamond_cssa 3) =
    [phiInstr 6 [1; 2]%nat [VInstr 8; VInstr 9];
     instr 10 Tag.PirCopy [VInstr 6];
     voidInstr 7 Tag.Return [VInstr 10]].
Proof. repeat split; vm_compute; reflexivity. Qed.

Example splitPhi_diamond :
  splitPhi 3 0 (phiInstr 6 [1; 2]%nat [VInstr 4; VInstr 5]) diamond
  = Ok diamond_cssa.
Proof. vm_compute. reflexivity. Qed.

(** The phi %2 of the loop takes its second input from BB1, where it stands
    itself: the copy %8 goes into the vector the pass is walking. *)
Example splitPhi_loop :
  splitPhi 1 0 (phiInstr 2 [0; 1]%nat [VInstr 1; VInstr 3]) loop
  = Abort Undefined.
Proof. vm_compute. reflexivity. Qed.

End CssaClaim.

Section CssaTotal.

Lemma grows_refl code : grows code code.
Proof. split; [done|]. split; [done|]. split; [done|]. eauto. Qed.

Lemma grows_trans a b c : grows a b -> grows b c -> grows a c.
Proof.
  intros (H1 & H2 & H3 & H4) (G1 & G2 & G3 & G4).
  split; [|split; [|split]].
  - intros x Hx. by apply G1, H1.
  - intros x. by rewrite G2.
  - intros x. etrans; [apply H3|apply G3].
  - intros i' Hi' Hphi. destruct (G4 i' Hi' Hphi) as (i & Hi & Hiphi & <- & <-).
    apply (H4 i Hi Hiphi).
Qed.

Lemma updateBB_is_Some code b f b' :
  is_Some (bbs code !! b') -> is_Some (bbs (updateBB b f code) !! b').
Proof.
  simpl. destruct (decide (b' = b)) as [->|Hne].
  - rewrite lookup_alter_eq. by intros [x ->].
  - by rewrite lookup_alter_ne.
Qed.

Lemma grows_insert code b pos x :
  is_Some (bbs code !! b) -> isPhi x = false ->
  grows code (updateBB b (insertAt pos x) code).
Proof.
  intros Hb Hx. split; [|split; [|split]].
  - intros b'. apply updateBB_is_Some.
  - intros b'. apply isJmp_updateBB.
  - intros b'. rewrite getBB_updateBB by done.
    destruct (decide (b' = b)); [rewrite length_insertAt; lia|done].
  - intros i' Hi' Hphi. apply elem_of_updateBB_insert in Hi'; [|done].
    destruct Hi' as [->|Hi']; [congruence|eauto].
Qed.

Lemma grows_mapInstrs code f :
  (forall j, tag (f j) = tag j /\ input (f j) = input j /\
             length (args (f j)) = length (args j)) ->
  grows code (mapInstrs f code).
Proof.
  intros Hf. split; [|split; [|split]].
  - intros b. apply mapInstrs_is_Some.
  - intros b. apply isJmp_mapInstrs.
  - intros b. by rewrite getBB_mapInstrs, length_fmap.
  - intros i' (j & Hj & ->)%elem_of_mapInstrs Hphi.
    destruct (Hf j) as (Ht & Hi & Hl). exists j. split; [done|].
    split; [by rewrite <- (isPhi_tag _ _ Ht)|done].
Qed.

Lemma setArg_shape phi k v j :
  tag (setArg phi k v j) = tag j /\ input (setArg phi k v j) = input j /\
  length (args (setArg phi k v j)) = length (args j).
Proof.
  unfold setArg. destruct (decide (ptr j = phi)); [|done].
  simpl. by rewrite length_insert.
Qed.

Lemma replace_shape (g : Value -> Value) j :
  tag (withArgs (fmap g) j) = tag j /\ input (withArgs (fmap g) j) = input j /\
  length (args (withArgs (fmap g) j)) = length (args j).
Proof. simpl. by rewrite length_fmap. Qed.

Lemma last_insertAt {A} pos (x : A) l i :
  last (insertAt pos x l) = Some i -> i = x \/ last l = Some i.
Proof.
  unfold insertAt. rewrite last_app. rewrite last_cons.
  destruct (last (drop pos l)) as [y|] eqn:Hy.
  - intros [= <-]. right. rewrite <- (take_drop pos l) at 1.
    by rewrite last_app, Hy.
  - intros [= <-]. by left.
Qed.

Lemma cssaReady_grows code code' :
  cssaReady code -> grows code code' ->
  (forall b i, isJmp (getBB code' b) = false ->
               last (instrs (getBB code' b)) = Some i -> isPhi i = false) ->
  cssaReady code'.
Proof.
  intros [Hin _] (G1 & G2 & G3 & G4) Hlast. split; [|done].
  intros phi' k Hphi' Hisphi Hk.
  destruct (G4 phi' Hphi' Hisphi) as (phi & Hphi & Hp & Hinp & Hlen).
  destruct (Hin phi k Hphi Hp ltac:(lia)) as (pred & Hpred & Hsome & Hne).
  exists pred. split; [congruence|]. split; [by apply G1|].
  rewrite G2. intros Hj Hnil. specialize (Hne Hj). specialize (G3 pred).
  rewrite Hnil in G3. simpl in G3. destruct (instrs (getBB code pred)); [done|].
  simpl in G3. lia.
Qed.

Lemma cssaReady_insert code b pos x :
  cssaReady code -> is_Some (bbs code !! b) -> isPhi x = false ->
  cssaReady (updateBB b (insertAt pos x) code).
Proof.
  intros Hr Hb Hx. apply (cssaReady_grows code); [done|by apply grows_insert|].
  intros b' i. rewrite isJmp_updateBB, getBB_updateBB by done.
  intros Hj. destruct (decide (b' = b)) as [->|Hne].
  - intros [->|Hl]%last_insertAt; [done|]. by apply (proj2 Hr b).
  - by apply (proj2 Hr b').
Qed.

Lemma cssaReady_mapInstrs code f :
  cssaReady code ->
  (forall j, tag (f j) = tag j /\ input (f j) = input j /\
             length (args (f j)) = length (args j)) ->
  cssaReady (mapInstrs f code).
Proof.
  intros Hr Hf. apply (cssaReady_grows code); [done|by apply grows_mapInstrs|].
  intros b i. rewrite isJmp_mapInstrs, getBB_mapInstrs, fmap_last.
  intros Hj Hl. destruct (last (instrs (getBB code b))) as [i0|] eqn:Hi0; [|done].
  injection Hl as <-. destruct (Hf i0) as (Ht & _).
  rewrite (isPhi_tag _ _ Ht). by apply (proj2 Hr b).
Qed.

Lemma weight_tag_args i j :
  tag i = tag j -> length (args i) = length (args j) -> weight i = weight j.
Proof. intros Ht Hl. unfold weight. by rewrite (isPhi_tag _ _ Ht), Hl. Qed.

Lemma sum_weight_fmap f l :
  (forall j, tag (f j) = tag j /\ input (f j) = input j /\
             length (args (f j)) = length (args j)) ->
  sum_list (weight <$> (f <$> l)) = sum_list (weight <$> l).
Proof.
  intros Hf. rewrite <- list_fmap_compose. f_equal. apply list_fmap_ext.
  intros _ i _. simpl. destruct (Hf i) as (Ht & _ & Hl).
  by apply weight_tag_args.
Qed.

Lemma sum_weight_insertAt pos x l :
  sum_list (weight <$> insertAt pos x l)
  = (weight x + sum_list (weight <$> l))%nat.
Proof.
  unfold insertAt. rewrite fmap_app, sum_list_with_app. simpl.
  rewrite <- (take_drop pos l) at 3. rewrite fmap_app, sum_list_with_app.
  change (list_fmap Instruction nat weight) with (fmap (M:=list) weight). lia.
Qed.

Lemma drop_insertAt {A} n pos (x : A) l :
  (n <= pos <= length l)%nat ->
  drop n (insertAt pos x l) = insertAt (pos - n) x (drop n l).
Proof.
  intros H. unfold insertAt.
  rewrite drop_app_le by (rewrite length_take; lia).
  rewrite take_drop_commute, drop_drop. do 3 f_equal; lia.
Qed.

Lemma drop_insertAt_after {A} n (x : A) l :
  (n <= length l)%nat -> drop (S n) (insertAt n x l) = drop n l.
Proof.
  intros H. unfold insertAt.
  rewrite drop_app_ge by (rewrite length_take; lia).
  rewrite length_take. replace (S n - n `min` length l)%nat with 1%nat by lia.
  done.
Qed.

Lemma foldM_imap_total {A B} (f : A -> nat * B -> result A)
    (P : nat -> A -> Prop) (l : list B) s :
  (forall k b s, l !! k = Some b -> P k s ->
                 exists s', f s (k, b) = Ok s' /\ P (S k) s') ->
  P 0%nat s -> exists s', foldM f s (imap pair l) = Ok s' /\ P (length l) s'.
Proof.
  intros Hstep.
  assert (forall l2 l1 s, l = l1 ++ l2 -> P (length l1) s ->
            exists s', foldM f s (imap (fun i => pair (length l1 + i)%nat) l2)
                       = Ok s' /\ P (length l) s') as Hgen.
  { induction l2 as [|b l2 IH]; intros l1 s1 -> HP.
    - exists s1. split; [done|]. by rewrite length_app, Nat.add_0_r.
    - destruct (Hstep (length l1) b s1) as (s2 & Hs2 & HP2); [|done|].
      { by rewrite lookup_app_r, Nat.sub_diag by lia. }
      destruct (IH (l1 ++ [b]) s2) as (s' & Hs' & HP').
      + by rewrite <- app_assoc.
      + rewrite length_app. simpl. by rewrite Nat.add_1_r.
      + exists s'. split; [|done]. simpl. rewrite Nat.add_0_r, Hs2. simpl.
        rewrite <- Hs'. f_equal. apply imap_ext. intros i x _. simpl.
        f_equal. rewrite length_app. simpl. lia. }
  intros HP. by apply (Hgen l [] s).
Qed.

Lemma selfFree_insert code b pos x :
  selfFree code -> is_Some (bbs code !! b) -> isPhi x = false ->
  selfFree (updateBB b (insertAt pos x) code).
Proof.
  intros Hs Hb Hx b' phi. rewrite getBB_updateBB by done.
  destruct (decide (b' = b)) as [->|Hne]; [|apply Hs].
  intros [->|Hin]%elem_of_insertAt Hphi; [congruence|by apply Hs].
Qed.

Lemma selfFree_mapInstrs code f :
  selfFree code ->
  (forall j, tag (f j) = tag j /\ input (f j) = input j /\
             length (args (f j)) = length (args j)) ->
  selfFree (mapInstrs f code).
Proof.
  intros Hs Hf b phi. rewrite getBB_mapInstrs.
  intros (j & -> & Hj)%list_elem_of_fmap Hphi.
  destruct (Hf j) as (Ht & Hi & Hl).
  unfold feedsItself. rewrite Hi, Hl. apply Hs; [done|].
  by rewrite <- (isPhi_tag _ _ Ht).
Qed.

Lemma insertPhiInput_selfFree phi code ka code' :
  selfFree code -> insertPhiInput phi code ka = Ok code' -> selfFree code'.
Proof.
  intros Hs H. destruct ka as [k a].
  apply insertPhiInput_Ok in H as (pred & pb & _ & Hpb & -> & _).
  apply selfFree_mapInstrs; [|intros j; apply setArg_shape].
  apply selfFree_insert; [done|eauto|done].
Qed.

Lemma insertPhiInput_total bb it phi start k code a :
  cssaReady start -> phi ∈ allInstrs start -> isPhi phi = true ->
  splitReady bb it phi start k code -> args phi !! k = Some a ->
  exists code', insertPhiInput phi code (k, a) = Ok code' /\
                splitReady bb it phi start (S k) code'.
Proof.
  intros [Hin _] Hphi Hisphi (Hr & Hg & Hpos & Hwf & Hrem) Ha.
  destruct (Hin phi k Hphi Hisphi) as (pred & Hpred & Hsome & Hne).
  { by apply lookup_lt_Some in Ha. }
  pose proof Hg as (G1 & G2 & G3 & G4).
  destruct (G1 pred Hsome) as [pb Hpb].
  assert (Hget : getBB code pred = pb) by (unfold getBB; by rewrite Hpb).
  assert (Hnonempty : isJmp pb = false -> instrs pb <> []).
  { intros Hj Hnil. rewrite <- Hget in Hj, Hnil. rewrite G2 in Hj.
    specialize (Hne Hj). specialize (G3 pred). rewrite Hnil in G3.
    destruct (instrs (getBB start pred)); [done|simpl in G3; lia]. }
  assert (exists code', insertPhiInput phi code (k, a) = Ok code') as [code' H].
  { unfold insertPhiInput. simpl. rewrite Hpred, Hpb.
    destruct (isJmp pb); [eauto|]. specialize (Hnonempty eq_refl).
    destruct (instrs pb); [done|]. simpl. eauto. }
  exists code'. split; [done|].
  destruct (insertPhiInput_position phi bb it code k a code' Hpos Hwf H)
    as [Hpos' Hwf'].
  apply insertPhiInput_Ok in H as (pred' & pb' & Hpred' & Hpb' & -> & _).
  assert (pred' = pred) as -> by congruence.
  assert (pb' = pb) as -> by congruence.
  set (pos := if isJmp pb then length (instrs pb)
              else (length (instrs pb) - 1)%nat) in *.
  set (x := mkPirCopy (freshPtr code) (castOrNull a)) in *.
  set (f := setArg (ptr phi) k (VInstr (freshPtr code))) in *.
  assert (Hf : forall j, tag (f j) = tag j /\ input (f j) = input j /\
                         length (args (f j)) = length (args j))
    by (intros j; apply setArg_shape).
  split; [|split; [|split; [|split]]]; [| |exact Hpos'|exact Hwf'|].
  - apply cssaReady_mapInstrs; [|done]. apply cssaReady_insert; [done|eauto|done].
  - eapply grows_trans; [exact Hg|].
    apply (grows_trans _ (updateBB pred (insertAt pos x) code));
      [apply grows_insert; [eauto|done]|by apply grows_mapInstrs].
  - unfold remaining in *. rewrite getBB_mapInstrs, getBB_updateBB by eauto.
    rewrite <- fmap_drop, sum_weight_fmap by done.
    destruct (decide (bb = pred)) as [->|Hbb]; [|lia].
    rewrite Hget in *. destruct Hpos as (q & Hq & _).
    apply lookup_lt_Some in Hq.
    rewrite drop_insertAt.
    + rewrite sum_weight_insertAt. change (weight x) with 1%nat. lia.
    + unfold pos. destruct Hwf as [Hwf|Hwf]; [destruct (isJmp pb); lia|].
      rewrite Hwf. lia.
Qed.

Lemma remaining_step code bb it i :
  instrs (getBB code bb) !! it = Some i ->
  remaining code bb it = (weight i + remaining code bb (S it))%nat.
Proof.
  intros Hi. unfold remaining.
  by rewrite (drop_S _ _ _ Hi).
Qed.

Lemma splitPhi_total bb it phi start :
  cssaReady start -> selfFree start ->
  instrs (getBB start bb) !! it = Some phi -> isPhi phi = true ->
  exists code', splitPhi bb it phi start = Ok code' /\ cssaReady code' /\
                selfFree code' /\
                (remaining code' bb (S (S it)) < remaining start bb it)%nat.
Proof.
  intros Hr Hs Hit Hphi.
  assert (Hself : feedsItself bb phi = false)
    by (apply Hs; [by eapply list_elem_of_lookup_2|done]).
  assert (Hin : phi ∈ allInstrs start)
    by by eapply elem_of_getBB, list_elem_of_lookup_2.
  destruct (foldM_imap_total (insertPhiInput phi)
              (splitReady bb it phi start) (args phi) start)
    as (code1 & Hloop & Hr1 & Hg1 & (q & Hq & Hptr & Htag) & Hwf1 & Hrem1).
  { intros k b s Hk HP. by apply insertPhiInput_total. }
  { split; [done|]. split; [apply grows_refl|]. split; [eauto|].
    split; [|lia].
    destruct (isJmp (getBB start bb)) eqn:Hj; [by right|left].
    apply lookup_lt_Some in Hit as Hlt.
    destruct (decide (S it < length (instrs (getBB start bb)))%nat); [done|].
    exfalso. pose proof (proj2 Hr bb phi Hj) as Hlast.
    rewrite last_lookup in Hlast.
    replace (pred (length (instrs (getBB start bb)))) with it in Hlast by lia.
    specialize (Hlast Hit). congruence. }
  assert (Hs1 : selfFree code1).
  { eapply (foldM_inv selfFree) in Hloop; [exact Hloop| |done].
    intros c ka c' _ Hc Hstep. by eapply insertPhiInput_selfFree. }
  unfold splitPhi. rewrite Hloop. simpl. rewrite Hself. eexists.
  split; [done|].
  set (pc := freshPtr code1).
  set (g := withArgs (fmap (fun a => if decide (a = VInstr (ptr phi))
                                     then VInstr pc else a))).
  change (replaceUsesWith (ptr phi) (VInstr pc) code1) with (mapInstrs g code1).
  assert (Hg : forall j, tag (g j) = tag j /\ input (g j) = input j /\
                         length (args (g j)) = length (args j))
    by (intros j; apply replace_shape).
  assert (Hb : is_Some (bbs (mapInstrs g code1) !! bb)).
  { apply mapInstrs_is_Some. by eapply getBB_is_Some. }
  split; [|split].
  - apply cssaReady_insert; [by apply cssaReady_mapInstrs|done|done].
  - apply selfFree_insert; [by apply selfFree_mapInstrs|done|done].
  - rewrite (remaining_step start bb it phi Hit).
    unfold remaining in *. rewrite getBB_updateBB by done.
    rewrite decide_True by done. rewrite getBB_mapInstrs.
    rewrite drop_insertAt_after
      by (rewrite length_fmap; apply lookup_lt_Some in Hq; lia).
    rewrite <- fmap_drop, sum_weight_fmap by done.
    assert (weight phi = (length (args phi) + 3)%nat) as ->
      by (unfold weight; by rewrite Hphi).
    lia.
Qed.

Lemma cssaBlock_total bb : forall fuel it code,
  cssaReady code -> selfFree code -> (remaining code bb it < fuel)%nat ->
  exists code', cssaBlock fuel bb it code = Ok code' /\ cssaReady code' /\
                selfFree code'.
Proof.
  induction fuel as [|fuel IH]; intros it code Hr Hs Hfuel; [lia|].
  simpl. destruct (instrs (getBB code bb) !! it) as [instr|] eqn:Hit; [|eauto].
  rewrite (remaining_step code bb it instr Hit) in Hfuel.
  destruct (isPhi instr) eqn:Hphi.
  - destruct (splitPhi_total bb it instr code Hr Hs Hit Hphi)
      as (code1 & -> & Hr1 & Hs1 & Hrem). simpl.
    rewrite (remaining_step code bb it instr Hit) in Hrem.
    apply IH; [done|done|lia].
  - apply IH; [done|done|].
    assert (weight instr = 1%nat) as Hw by (unfold weight; by rewrite Hphi).
    lia.
Qed.

Lemma cssaBlock_fuel_mono bb : forall fuel fuel' it code code',
  cssaBlock fuel bb it code = Ok code' -> (fuel <= fuel')%nat ->
  cssaBlock fuel' bb it code = Ok code'.
Proof.
  induction fuel as [|fuel IH]; intros fuel' it code code' H Hle; [done|].
  destruct fuel' as [|fuel']; [lia|]. simpl in *.
  destruct (instrs (getBB code bb) !! it) as [instr|]; [|done].
  destruct (isPhi instr).
  - apply bind_Ok in H as (code1 & -> & H). simpl. apply (IH fuel'); [done|lia].
  - apply (IH fuel'); [done|lia].
Qed.

(** [toCSSA] runs through on code that is ready for it and in which no phi
    is fed from its own block, whatever the blocks it is sent over: from
    some fuel on it returns, and always the same. *)
Lemma toCSSA_total order : forall code,
  cssaReady code -> selfFree code ->
  exists fuel0 code', cssaReady code' /\ selfFree code' /\
    forall fuel, (fuel0 <= fuel)%nat -> toCSSA fuel order code = Ok code'.
Proof.
  unfold toCSSA. induction order as [|bb order IH]; intros code Hr Hs.
  - exists 0%nat, code. done.
  - destruct (cssaBlock_total bb (S (remaining code bb 0)) 0 code Hr Hs)
      as (code1 & H1 & Hr1 & Hs1); [lia|].
    destruct (IH code1 Hr1 Hs1) as (fuel2 & code' & Hr' & Hs' & H2).
    exists (S (remaining code bb 0) `max` fuel2)%nat, code'.
    split; [done|]. split; [done|].
    intros fuel Hfuel. simpl.
    rewrite (cssaBlock_fuel_mono bb _ fuel 0 code code1 H1) by lia. simpl.
    apply H2. lia.
Qed.

(** Code that is ready for [toCSSA], has one object per address and no phi
    fed from its own block is brought into conventional form. *)
Corollary toCSSA_establishes order code :
  cssaReady code -> selfFree code -> objIdent code ->
  exists fuel code', toCSSA fuel order code = Ok code' /\
                     conventional (visited code' order).
Proof.
  intros Hr Hs Hid.
  destruct (toCSSA_total order code Hr Hs) as (fuel & code' & _ & _ & H).
  exists fuel, code'. split; [by apply H|].
  apply (toCSSA_conventional_form fuel order code code' Hid). by apply H.
Qed.

Lemma diamond_blocks b :
  (3 < b)%nat -> getBB diamond b = BB_empty.
Proof.
  intros Hb. unfold getBB, diamond. cbn [bbs].
  rewrite !list_to_map_cons, list_to_map_nil. simpl.
  by rewrite !lookup_insert_ne, lookup_empty by lia.
Qed.

(** The diamond meets what [toCSSA_total] asks for. *)
Lemma diamond_cssaReady : cssaReady diamond /\ selfFree diamond.
Proof.
  split; [split|].
  - intros phi k Hphi Hisphi Hk.
    assert (phi = phiInstr 6 [1; 2]%nat [VInstr 4; VInstr 5]) as ->.
    { revert Hphi Hisphi. vm_compute allInstrs.
      rewrite !elem_of_cons, elem_of_nil.
      intros [->|[->|[->|[->|[->|[->|[->|[]]]]]]]]; done. }
    destruct k as [|[|k]]; [exists 1%nat|exists 2%nat|simpl in Hk; lia];
      (split; [done|split; [by eexists|done]]).
  - intros b i. destruct (decide (3 < b)%nat) as [Hb|Hb];
      [by rewrite (diamond_blocks b Hb)|].
    destruct b as [|[|[|[|b]]]]; [| | | |lia].
    + vm_compute. intros _ [= <-]. done.
    + vm_compute. congruence.
    + vm_compute. congruence.
    + vm_compute. intros _ [= <-]. done.
  - intros b phi. destruct (decide (3 < b)%nat) as [Hb|Hb].
    { rewrite (diamond_blocks b Hb). by intros ?%elem_of_nil. }
    destruct b as [|[|[|[|b]]]]; [| | | |lia]; intros H Hphi;
      apply list_elem_of_In in H; vm_compute in H;
      repeat (destruct H as [<-|H];
              [first [by vm_compute in Hphi|vm_compute; reflexivity]|]);
      destruct H.
Qed.

(** The diamond is brought into conventional form, and with fuel 10 the
    pass has returned. *)
Example toCSSA_diamond :
  (exists fuel code', toCSSA fuel diamond_order diamond = Ok code' /\
                      conventional (visited code' diamond_order)) /\
  conventional (visited diamond_cssa diamond_order).
Proof.
  split.
  - apply toCSSA_establishes;
      [apply diamond_cssaReady|apply diamond_cssaReady|apply diamond_objIdent].
  - apply (toCSSA_conventional_form 10 diamond_order diamond);
      [apply diamond_objIdent|vm_compute; reflexivity].
Qed.

End CssaTotal.

Section SlotRange.

Lemma slots_fold (l : list (Value * SlotNumber)) : forall m0,
  Forall (fun a => a.2 = stackSlot \/ a.2 < 4294967296) l ->
  let r := foldl (fun max a =>
                    if negb (a.2 =? stackSlot) && (max <? a.2)
                    then a.2 mod 4294967296 else max) m0 l in
  m0 <= r /\
  (forall a, a ∈ l -> a.2 <> stackSlot -> a.2 <= r) /\
  (r = m0 \/ exists a, a ∈ l /\ a.2 = r /\ r <> stackSlot).
Proof.
  induction l as [|a l IH]; intros m0 Hall; simpl.
  - split; [lia|]. split; [set_solver|by left].
  - apply Forall_cons in Hall as [Ha Hall].
    destruct (N.eqb_spec a.2 stackSlot) as [Hs|Hs]; simpl.
    + destruct (IH m0 Hall) as (H1 & H2 & H3). split; [done|]. split.
      * intros b [->|Hb]%elem_of_cons; [done|by apply H2].
      * destruct H3 as [?|(b & Hb & ?)]; [by left|right].
        exists b. split; [set_solver|done].
    + destruct Ha as [Ha|Ha]; [done|].
      destruct (N.ltb_spec m0 a.2) as [Hlt|Hge].
      * rewrite N.mod_small by done.
        destruct (IH a.2 Hall) as (H1 & H2 & H3). split; [lia|]. split.
        -- intros b [->|Hb]%elem_of_cons; [done|by apply H2].
        -- right. destruct H3 as [Heq|(b & Hb & ?)].
           ++ exists a. split; [set_solver|]. split; [done|]. by rewrite Heq.
           ++ exists b. split; [set_solver|done].
      * destruct (IH m0 Hall) as (H1 & H2 & H3). split; [done|]. split.
        -- intros b [->|Hb]%elem_of_cons; [lia|by apply H2].
        -- destruct H3 as [?|(b & Hb & ?)]; [by left|right].
           exists b. split; [set_solver|done].
Qed.

Lemma slots_ge alloc v s :
  (forall v s, alloc !! v = Some s -> s = stackSlot \/ s < 4294967296) ->
  alloc !! v = Some s -> s <> stackSlot -> s <= slots alloc.
Proof.
  intros Hfit Hv Hs.
  assert (Forall (fun a : Value * SlotNumber =>
                    a.2 = stackSlot \/ a.2 < 4294967296) (map_to_list alloc))
    as Hall.
  { apply Forall_forall. intros [v' s'] Hvs%elem_of_map_to_list. eauto. }
  destruct (slots_fold (map_to_list alloc) 0 Hall) as (_ & Hle & _).
  apply (Hle (v, s)); [by apply elem_of_map_to_list|done].
Qed.

(** X1. [slots()] is the largest numbered slot of the allocation, 0 when
    there is none: when the numbered slots fit an [unsigned], no value holds
    a numbered slot above [slots()], the count is attained unless it is 0,
    and the local index [operator[]] gives for a value with a slot from 1 on
    lies below it. *)
Theorem slots_covers_locals alloc :
  (forall v s, alloc !! v = Some s -> s = stackSlot \/ s < 4294967296) ->
  (forall v s, alloc !! v = Some s -> s <> stackSlot -> s <= slots alloc) /\
  (slots alloc = 0 \/
   exists v, alloc !! v = Some (slots alloc) /\ slots alloc <> stackSlot) /\
  (forall v n, localOf alloc v = Ok n -> alloc !! v <> Some unassignedSlot ->
               n < slots alloc /\ alloc !! v = Some (n + 1)).
Proof.
  intros Hfit.
  assert (Forall (fun a : Value * SlotNumber =>
                    a.2 = stackSlot \/ a.2 < 4294967296) (map_to_list alloc))
    as Hall.
  { apply Forall_forall. intros [v s] Hvs%elem_of_map_to_list. eauto. }
  destruct (slots_fold (map_to_list alloc) 0 Hall) as (_ & _ & Hmax).
  fold (slots alloc) in Hmax.
  split; [intros v s; by apply slots_ge|]. split.
  - destruct Hmax as [?|([v s] & Hvs%elem_of_map_to_list & Heq & ?)]; [by left|].
    right. exists v. simpl in Heq. rewrite <- Heq. split; [done|congruence].
  - intros v n Hloc Hnz. unfold localOf in Hloc.
    apply bind_Ok in Hloc as (s & Hs%at_Ok & Hloc).
    destruct (N.eqb_spec s stackSlot) as [|Hns]; [done|].
    injection Hloc as <-.
    assert (s <> 0) by (intros ->; by apply Hnz).
    destruct (Hfit v s Hs) as [|Hlt]; [done|].
    pose proof (slots_ge alloc v s Hfit Hs Hns) as Hcov.
    replace (s + 18446744073709551615)
      with ((s - 1) + 1 * 18446744073709551616) by lia.
    rewrite N.Div0.mod_add, N.mod_small by lia.
    split; [lia|]. rewrite Hs. f_equal. lia.
Qed.

Lemma loop_allocation_fits v s :
  loop_allocation !! v = Some s -> s = stackSlot \/ s < 4294967296.
Proof.
  intros Hv.
  assert (Forall (fun a : Value * SlotNumber =>
                    a.2 = stackSlot \/ a.2 < 4294967296)
            (map_to_list loop_allocation)) as Hall
    by (apply (bool_decide_unpack _); vm_compute; reflexivity).
  rewrite Forall_forall in Hall.
  apply (Hall (v, s)). by apply elem_of_map_to_list.
Qed.

Lemma slots_covers_locals_witness :
  (forall v s, loop_allocation !! v = Some s -> s <> stackSlot ->
               s <= slots loop_allocation) /\
  (slots loop_allocation = 0 \/
   exists v, loop_allocation !! v = Some (slots loop_allocation) /\
             slots loop_allocation <> stackSlot) /\
  (forall v n, localOf loop_allocation v = Ok n ->
               loop_allocation !! v <> Some unassignedSlot ->
               n < slots loop_allocation /\ loop_allocation !! v = Some (n + 1)).
Proof.
  apply (slots_covers_locals loop_allocation). exact loop_allocation_fits.
Defined.

Example loop_slots : slots loop_allocation = 2.
Proof. vm_compute. reflexivity. Qed.

End SlotRange.

Section SlotSearch.

Lemma findFreeSlotFrom_least fuel li ra i : forall start s,
  findFreeSlotFrom fuel li ra i start = Ok s ->
  N.of_nat fuel + start < 18446744073709551616 ->
  start < s <= start + N.of_nat fuel /\
  slotIsAvailable li ra s i = Ok true /\
  forall s', start < s' < s -> slotIsAvailable li ra s' i = Ok false.
Proof.
  induction fuel as [|fuel IH]; intros start s; [done|].
  cbn [findFreeSlotFrom]. intros H Hb.
  assert (slotIncr start = start + 1) as Hincr.
  { unfold slotIncr. apply N.mod_small. lia. }
  rewrite Hincr in H. apply bind_Ok in H as (b & Hav & H). destruct b.
  - injection H as <-. split; [lia|]. split; [done|]. intros; lia.
  - apply IH in H as (Hlt & Hfree & Hmin); [|lia].
    split; [lia|]. split; [done|]. intros s' Hs'.
    destruct (decide (s' = start + 1)) as [->|]; [done|]. apply Hmin. lia.
Qed.

Lemma findPhiSlot_range fuel li ra p inputs : forall start s,
  findPhiSlot fuel li ra p inputs start = Ok s ->
  N.of_nat fuel + start < 18446744073709551616 ->
  start < s <= start + N.of_nat fuel.
Proof.
  induction fuel as [|fuel IH]; intros start s; [done|].
  cbn [findPhiSlot]. intros H Hb.
  assert (slotIncr start = start + 1) as Hincr.
  { unfold slotIncr. apply N.mod_small. lia. }
  rewrite Hincr in H.
  apply bind_Ok in H as (b & Hp & H). apply bind_Ok in H as (b' & Hin & H).
  destruct b'.
  - injection H as <-. lia.
  - apply IH in H; lia.
Qed.

(** X2. [findFreeSlot] returns and is first fit: with a turn more than
    there are slots in use the search does not run out, with the liveness of
    the instruction and of the values in the slots on record it gives a
    slot, and the slot it gives is the smallest from 1 on that is available
    for the instruction, that is, every smaller slot holds a value that
    interferes with it; no other allocation changes. *)
Theorem findFreeSlot_first_fit fuel li st i :
  N.of_nat fuel < 18446744073709551616 -> (size st.2 < fuel)%nat ->
  findFreeSlot fuel li st i <> OutOfFuel /\
  (livenessKnown li st.2 [val i] ->
   exists st', findFreeSlot fuel li st i = Ok st') /\
  (forall st', findFreeSlot fuel li st i = Ok st' ->
     exists s, 1 <= s /\ st'.1 !! val i = Some s /\
               slotIsAvailable li st.2 s (val i) = Ok true /\
               (forall s', 1 <= s' < s ->
                  slotIsAvailable li st.2 s' (val i) = Ok false) /\
               (forall v, v <> val i -> st'.1 !! v = st.1 !! v) /\
               val i ∈ slotMembers st'.2 s).
Proof.
  intros Hfuel Hsize. unfold findFreeSlot.
  pose proof (findFreeSlotFrom_returns li st.2 (val i) fuel Hfuel Hsize)
    as Hret.
  destruct (findFreeSlotFrom fuel li st.2 (val i) unassignedSlot)
    as [s|f|] eqn:Hs; [|split; [done|split; [|done]]|done].
  - split; [done|]. split; [eauto|]. intros st' [= <-].
    apply findFreeSlotFrom_least in Hs as (Hrange & Hfree & Hmin);
      [|unfold unassignedSlot; lia].
    unfold unassignedSlot in *. exists s.
    split; [lia|]. split; [by cbn; rewrite lookup_insert_eq|].
    split; [done|]. split; [intros s' Hs'; apply Hmin; lia|]. split.
    + intros v Hv. cbn. by rewrite lookup_insert_ne.
    + cbn. apply slotMembers_reverseInsert. by right.
  - intros Hk.
    by apply (findFreeSlotFrom_no_abort li st.2 _ fuel unassignedSlot f) in Hk.
Qed.

Lemma findFreeSlot_first_fit_witness :
  let st := ({[VInstr 2 := 1]} : gmap Value SlotNumber,
             {[1 := [VInstr 2]]} : gmap SlotNumber (list Value)) in
  let i := instr 7 Tag.PirCopy [VInstr 1] in
  findFreeSlot 3 loop_liveness st i <> OutOfFuel /\
  (livenessKnown loop_liveness st.2 [val i] ->
   exists st', findFreeSlot 3 loop_liveness st i = Ok st') /\
  (forall st', findFreeSlot 3 loop_liveness st i = Ok st' ->
     exists s, 1 <= s /\ st'.1 !! val i = Some s /\
               slotIsAvailable loop_liveness st.2 s (val i) = Ok true /\
               (forall s', 1 <= s' < s ->
                  slotIsAvailable loop_liveness st.2 s' (val i) = Ok false) /\
               (forall v, v <> val i -> st'.1 !! v = st.1 !! v) /\
               val i ∈ slotMembers st'.2 s).
Proof.
  intros st i.
  apply (findFreeSlot_first_fit 3 loop_liveness st i);
    [by vm_compute|vm_compute; lia].
Defined.

(** The liveness of the loop is on record for the copy %7 and for the phi
    %2 in slot 1, and the search returns. *)
Example livenessKnown_loop :
  livenessKnown loop_liveness {[1 := [VInstr 2]]} [VInstr 7] /\
  exists st', findFreeSlot 3 loop_liveness
                ({[VInstr 2 := 1]}, {[1 := [VInstr 2]]})
                (instr 7 Tag.PirCopy [VInstr 1]) = Ok st'.
Proof.
  split; [|eexists; vm_compute; reflexivity].
  exists 3%nat. split.
  - intros v ->%list_elem_of_singleton. eexists.
    split; [vm_compute; reflexivity|done].
  - intros s v. unfold slotMembers.
    destruct (decide (s = 1)) as [->|Hne].
    + rewrite lookup_singleton_eq. simpl. intros ->%list_elem_of_singleton.
      eexists. split; [vm_compute; reflexivity|done].
    + rewrite lookup_singleton_ne by done. simpl. by intros ?%elem_of_nil.
Qed.

Example findFreeSlot_skips_taken_slot :
  (getOk (∅, ∅)
     (findFreeSlot 3 loop_liveness
        ({[VInstr 2 := 1]}, {[1 := [VInstr 2]]})
        (instr 7 Tag.PirCopy [VInstr 1]))).1 !! VInstr 7 = Some 2.
Proof. vm_compute. reflexivity. Qed.

(** The slots [computeAllocation] hands out. *)
Lemma slotsWithin_assign bound st s (vs : list Value) :
  slotsWithin bound st.1 -> 1 <= s <= bound ->
  slotsWithin bound (foldl (assignSlot s) st vs).1.
Proof.
  intros Hw Hs v s' Hv. rewrite foldl_assignSlot_alloc in Hv.
  destruct (decide (v ∈ vs)); [injection Hv as <-; by right|by apply (Hw v)].
Qed.

Lemma precolorPhi_within fuel li st i st' :
  N.of_nat fuel < 18446744073709551616 ->
  slotsWithin (N.of_nat fuel) st.1 ->
  precolorPhi fuel li st i = Ok st' -> slotsWithin (N.of_nat fuel) st'.1.
Proof.
  intros Hfuel Hw. unfold precolorPhi.
  destruct (negb (isPhi i) || bool_decide (is_Some (st.1 !! val i)));
    [by intros [= <-]|].
  intros H. apply bind_Ok in H as (s & Hs & [= <-]).
  apply findPhiSlot_range in Hs; [|unfold unassignedSlot; lia].
  unfold unassignedSlot in Hs.
  change (foldl (assignSlot s) (assignSlot s st (val i)) (phiEachArg i).*2)
    with (foldl (assignSlot s) st (val i :: (phiEachArg i).*2)).
  apply slotsWithin_assign; [done|lia].
Qed.

Lemma findFreeSlot_within fuel li st i st' :
  N.of_nat fuel < 18446744073709551616 ->
  slotsWithin (N.of_nat fuel) st.1 ->
  findFreeSlot fuel li st i = Ok st' -> slotsWithin (N.of_nat fuel) st'.1.
Proof.
  intros Hfuel Hw. unfold findFreeSlot. intros H.
  apply bind_Ok in H as (s & Hs & [= <-]).
  apply findFreeSlotFrom_least in Hs as (Hs & _); [|unfold unassignedSlot; lia].
  unfold unassignedSlot in Hs.
  apply (slotsWithin_assign _ st s [val i]); [done|lia].
Qed.

Lemma slotHint_within bound alloc i :
  slotsWithin bound alloc ->
  slotHint alloc i = unassignedSlot \/ slotHint alloc i = stackSlot \/
  1 <= slotHint alloc i <= bound.
Proof.
  intros Hw. unfold slotHint. destruct (0 <? nargs i)%nat; [|by left].
  destruct (args i !! 0%nat) as [[o| | | | |]|]; try by left.
  destruct (alloc !! VInstr o) as [s|] eqn:Ho; [|by left]. simpl.
  destruct (Hw _ _ Ho); auto.
Qed.

Lemma allocateInstr_within fuel li st i st' :
  N.of_nat fuel < 18446744073709551616 ->
  slotsWithin (N.of_nat fuel) st.1 ->
  allocateInstr fuel li st i = Ok st' -> slotsWithin (N.of_nat fuel) st'.1.
Proof.
  intros Hfuel Hw. unfold allocateInstr.
  destruct (negb (bool_decide (is_Some (st.1 !! val i)))
            && bool_decide (is_Some (li !! val i))); [|by intros [= <-]].
  destruct (slotHint_within (N.of_nat fuel) st.1 i Hw) as [Hh|[Hh|Hh]].
  - rewrite Hh. simpl. by apply findFreeSlot_within.
  - rewrite Hh. simpl. by apply findFreeSlot_within.
  - destruct (negb (slotHint st.1 i =? unassignedSlot)
              && negb (slotHint st.1 i =? stackSlot));
      [|by apply findFreeSlot_within].
    intros H. apply bind_Ok in H as (b & _ & H). destruct b.
    + injection H as <-.
      by apply (slotsWithin_assign _ st (slotHint st.1 i) [val i]).
    + by eapply findFreeSlot_within.
Qed.

Lemma computeAllocation_within fuel li code order domOrder alloc st :
  N.of_nat fuel < 18446744073709551616 ->
  slotsWithin (N.of_nat fuel) alloc ->
  computeAllocation fuel li code order domOrder alloc = Ok st ->
  slotsWithin (N.of_nat fuel) st.1.
Proof.
  unfold computeAllocation. intros Hfuel Hw H.
  apply bind_Ok in H as (st1 & H1 & H2).
  eapply (foldM_inv (fun st => slotsWithin (N.of_nat fuel) st.1)) in H2;
    [exact H2| |].
  - intros a b a' _ Ha Hf. by eapply allocateInstr_within.
  - eapply (foldM_inv (fun st => slotsWithin (N.of_nat fuel) st.1)) in H1;
      [exact H1| |done].
    intros a b a' _ Ha Hf. by eapply precolorPhi_within.
Qed.

Lemma slotsWithin_noZero bound alloc : slotsWithin bound alloc -> noZeroSlot alloc.
Proof.
  intros Hw v Hv. destruct (Hw v _ Hv) as [Hs|Hs]; [done|].
  unfold unassignedSlot in Hs. lia.
Qed.

Lemma slotsWithin_stack code order bound :
  slotsWithin bound (computeStackAllocation code order ∅).
Proof.
  intros v s Hv. left.
  destruct (onlyStackAdded_computeStackAllocation code order ∅ v s Hv)
    as [|Hempty]; [done|]. by rewrite lookup_empty in Hempty.
Qed.

(** X3. The allocator never hands out the slot 0 that stands for
    "unassigned": every slot of the allocation the two passes return is the
    stack slot or a number from 1 up to the number of turns a slot search
    may take. *)
Theorem allocate_slot_range fuel li code order domOrder alloc :
  allocate fuel li code order domOrder = Ok alloc ->
  N.of_nat fuel < 18446744073709551616 ->
  slotsWithin (N.of_nat fuel) alloc /\ noZeroSlot alloc.
Proof.
  unfold allocate. intros H Hfuel.
  apply bind_Ok in H as (st & H & [= <-]).
  assert (slotsWithin (N.of_nat fuel) st.1) as Hw.
  { eapply computeAllocation_within; [done| |exact H].
    apply slotsWithin_stack. }
  split; [done|]. by eapply slotsWithin_noZero.
Qed.

Lemma allocate_slot_range_witness :
  slotsWithin 10 loop_allocation /\ noZeroSlot loop_allocation.
Proof.
  apply (allocate_slot_range 10 loop_liveness loop_cssa loop_order loop_order);
    [vm_compute; reflexivity|by vm_compute].
Defined.

End SlotSearch.

Section VerifierWalk.

Lemma touched_refl a : touched a a.
Proof. intros v. by left. Qed.

Lemma touched_trans a b c : touched a b -> touched b c -> touched a c.
Proof.
  intros H1 H2 v. destruct (H2 v) as [Hc|[Hb Hc]], (H1 v) as [Hb'|[Ha Hb']].
  - left. congruence.
  - right. split; congruence.
  - right. split; congruence.
  - congruence.
Qed.

Lemma touched_touch a v : touched a (touch a v).
Proof.
  intros w. unfold touch. destruct (a !! v) eqn:Hv; [by left|].
  destruct (decide (w = v)) as [->|].
  - right. by rewrite lookup_insert_eq.
  - left. by rewrite lookup_insert_ne.
Qed.

Lemma touched_noZero a b :
  touched a b -> (forall v, is_Some (a !! v) -> b !! v = a !! v).
Proof. intros H v [s Hs]. destruct (H v) as [|[? _]]; congruence. Qed.

Lemma verifyPhiArgs_touched phi slot args_ : forall alloc alloc',
  foldM (verifyPhiArg phi slot) alloc args_ = Ok alloc' ->
  touched alloc alloc' /\
  (slot <> unassignedSlot -> alloc' = alloc).
Proof.
  induction args_ as [|x args_ IH]; intros alloc alloc'; simpl.
  - intros [= <-]. split; [apply touched_refl|done].
  - intros H. apply bind_Ok in H as (alloc1 & H1 & H).
    apply IH in H as [Ht Heq].
    assert (touched alloc alloc1 /\ (slot <> unassignedSlot -> alloc1 = alloc))
      as [Ht1 Heq1].
    { unfold verifyPhiArg in H1. destruct (Instruction_Cast x) as [i|].
      - destruct (decide _) as [|Hsl]; [done|]. injection H1 as <-.
        split; [apply touched_touch|]. intros Hnz. unfold touch.
        destruct (alloc !! x) eqn:Hx; [done|]. exfalso. apply Hsl.
        unfold allocOrDefault. rewrite Hx. simpl. congruence.
      - injection H1 as <-. split; [apply touched_refl|done]. }
    split; [by eapply touched_trans|].
    intros Hnz. rewrite (Heq Hnz). by apply Heq1.
Qed.

Lemma verifyInstr_touched st i st' :
  verifyInstr st i = Ok st' ->
  touched st.1.1 st'.1.1 /\
  (noZeroSlot st.1.1 -> st'.1.1 = st.1.1).
Proof.
  destruct st as [[alloc reg] stack]. unfold verifyInstr.
  destruct (isPhi i) eqn:Hphi.
  - intros H. apply bind_Ok in H as (slot & Hslot & H).
    apply bind_Ok in H as (alloc' & Ha & H).
    apply bind_Ok in H as (stack' & _ & H).
    assert (st' = writeResult i (alloc', reg, stack')) as -> by congruence.
    rewrite writeResult_alloc. simpl.
    apply verifyPhiArgs_touched in Ha as [Ht Heq]. split; [done|].
    intros Hnz. apply Heq. apply at_Ok in Hslot. intros ->. by apply (Hnz (val i)).
  - intros H. apply bind_Ok in H as (stack' & _ & H).
    assert (st' = writeResult i (alloc, reg, stack')) as -> by congruence.
    rewrite writeResult_alloc. simpl. split; [apply touched_refl|done].
Qed.

Lemma verifyInstrs_touched ins : forall st st',
  foldM verifyInstr st ins = Ok st' ->
  touched st.1.1 st'.1.1 /\
  (noZeroSlot st.1.1 -> st'.1.1 = st.1.1).
Proof.
  induction ins as [|i ins IH]; intros st st'; simpl.
  - intros [= <-]. split; [apply touched_refl|done].
  - intros H. apply bind_Ok in H as (st1 & H1 & H).
    apply verifyInstr_touched in H1 as [Ht1 Heq1]. apply IH in H as [Ht Heq].
    split; [by eapply touched_trans|].
    intros Hnz. rewrite Heq; [by apply Heq1|]. by rewrite (Heq1 Hnz).
Qed.

Context (code : Code) (alloc0 : gmap Value SlotNumber).

(** What a call of [verifyBB] leaves behind. *)
Lemma verifyBB_walked fuel : forall bb shared reg stack shared',
  verifyBB fuel code bb shared reg stack = Ok shared' ->
  touched alloc0 shared.1 -> (noZeroSlot alloc0 -> shared.1 = alloc0) ->
  touched alloc0 shared'.1 /\ (noZeroSlot alloc0 -> shared'.1 = alloc0) /\
  shared.2 ⊆ shared'.2 /\
  blockWalked code alloc0 bb /\
  (forall n, n ∈ successors code bb -> (bb, n) ∈ shared'.2) /\
  (forall x y, (x, y) ∈ shared'.2 -> (x, y) ∉ shared.2 ->
     rtc (fun x y => y ∈ successors code x) bb x /\ y ∈ successors code x /\
     blockWalked code alloc0 y /\
     forall n, n ∈ successors code y -> (y, n) ∈ shared'.2).
Proof.
  induction fuel as [|fuel IH]; intros bb shared reg stack shared'; [done|].
  cbn [verifyBB]. intros H Hsd Hz.
  apply bind_Ok in H as (st & Hwalk & H).
  apply bind_Ok in H as (u & Hterm & H). destruct u.
  apply bind_Ok in H as (shared1 & Hfirst & Hsecond).
  cbn [fst snd] in Hfirst.
  pose proof (verifyInstrs_touched _ _ _ Hwalk) as [Ht Hkeep].
  simpl in Ht, Hkeep.
  assert (Hsd0 : touched alloc0 st.1.1) by (by eapply touched_trans).
  assert (Hz0 : noZeroSlot alloc0 -> st.1.1 = alloc0).
  { intros Hnz. rewrite Hkeep; [by apply Hz|]. by rewrite (Hz Hnz). }
  assert (Hblock : blockWalked code alloc0 bb).
  { exists shared.1, reg, stack, st. done. }
  assert (Hsucc0 : forall n, next0 (getBB code bb) = Some n ->
                             n ∈ successors code bb).
  { intros n Hn. unfold successors. rewrite Hn. clear. set_solver. }
  assert (Hsucc1 : forall n, next1 (getBB code bb) = Some n ->
                             n ∈ successors code bb).
  { intros n Hn. unfold successors. rewrite Hn. clear. set_solver. }
  (* the first edge *)
  assert (E1 : touched alloc0 shared1.1 /\
               (noZeroSlot alloc0 -> shared1.1 = alloc0) /\
               shared.2 ⊆ shared1.2 /\
               (forall n, next0 (getBB code bb) = Some n -> (bb, n) ∈ shared1.2) /\
               (forall x y, (x, y) ∈ shared1.2 -> (x, y) ∉ shared.2 ->
                  rtc (fun x y => y ∈ successors code x) bb x /\
                  y ∈ successors code x /\ blockWalked code alloc0 y /\
                  forall n, n ∈ successors code y -> (y, n) ∈ shared1.2)).
  { destruct (next0 (getBB code bb)) as [n0|] eqn:Hn0.
    - destruct (bool_decide_reflect ((bb, n0) ∈ shared.2)) as [Hin|Hin].
      + injection Hfirst as <-. simpl.
        split; [done|]. split; [done|]. split; [done|].
        split; [by intros ? [= <-]|]. intros x y Hxy Hn. done.
      + apply IH in Hfirst as (I1 & I1' & I2 & I3 & I3' & I4); [|done|done].
        simpl in *.
        split; [done|]. split; [done|]. split; [clear -I2; set_solver|].
        split; [intros ? [= <-]; clear -I2; set_solver|].
        intros x y Hxy Hn.
        destruct (decide ((x, y) = (bb, n0))) as [[= -> ->]|Hne].
        * split; [apply rtc_refl|]. split; [by apply Hsucc0|]. done.
        * destruct (I4 x y) as (R & ?); [done|clear -Hn Hne; set_solver|].
          split; [|done]. eapply rtc_l; [|exact R]. by apply Hsucc0.
    - injection Hfirst as <-. simpl.
      split; [done|]. split; [done|]. split; [done|]. split; done. }
  destruct E1 as (S1 & K1 & T1 & N1 & X1).
  (* the second edge *)
  assert (E2 : touched alloc0 shared'.1 /\
               (noZeroSlot alloc0 -> shared'.1 = alloc0) /\
               shared1.2 ⊆ shared'.2 /\
               (forall n, next1 (getBB code bb) = Some n -> (bb, n) ∈ shared'.2) /\
               (forall x y, (x, y) ∈ shared'.2 -> (x, y) ∉ shared1.2 ->
                  rtc (fun x y => y ∈ successors code x) bb x /\
                  y ∈ successors code x /\ blockWalked code alloc0 y /\
                  forall n, n ∈ successors code y -> (y, n) ∈ shared'.2)).
  { destruct (next1 (getBB code bb)) as [n1|] eqn:Hn1.
    - destruct (bool_decide_reflect ((bb, n1) ∈ shared1.2)) as [Hin|Hin].
      + injection Hsecond as <-.
        split; [done|]. split; [done|]. split; [done|].
        split; [by intros ? [= <-]|]. intros x y Hxy Hn. done.
      + assert (touched alloc0 st.1.1 /\ (noZeroSlot alloc0 -> st.1.1 = alloc0))
          as [_ _] by done.
        apply IH in Hsecond as (I1 & I1' & I2 & I3 & I3' & I4); [|done|done].
        simpl in *.
        split; [done|]. split; [done|]. split; [clear -I2; set_solver|].
        split; [intros ? [= <-]; clear -I2; set_solver|].
        intros x y Hxy Hn.
        destruct (decide ((x, y) = (bb, n1))) as [[= -> ->]|Hne].
        * split; [apply rtc_refl|]. split; [by apply Hsucc1|]. done.
        * destruct (I4 x y) as (R & ?); [done|clear -Hn Hne; set_solver|].
          split; [|done]. eapply rtc_l; [|exact R]. by apply Hsucc1.
    - injection Hsecond as <-.
      split; [done|]. split; [done|]. split; [done|]. split; done. }
  destruct E2 as (S2 & K2 & T2 & N2 & X2).
  split; [done|]. split; [done|].
  split; [clear -T1 T2; set_solver|]. split; [done|]. split.
  - intros n Hn. unfold successors in Hn.
    apply elem_of_app in Hn as [Hn|Hn].
    + destruct (next0 (getBB code bb)) as [n0|]; simpl in Hn;
        [|by apply elem_of_nil in Hn].
      apply list_elem_of_singleton in Hn as ->. apply T2, N1. done.
    + destruct (next1 (getBB code bb)) as [n1|]; simpl in Hn;
        [|by apply elem_of_nil in Hn].
      apply list_elem_of_singleton in Hn as ->. by apply N2.
  - intros x y Hxy Hn.
    destruct (decide ((x, y) ∈ shared1.2)) as [Hin|Hin].
    + destruct (X1 x y Hin Hn) as (R & Hs & Hw & Hc).
      split; [done|]. split; [done|]. split; [done|].
      intros n Hn'. apply T2. by apply Hc.
    + by apply (X2 x y).
Qed.

End VerifierWalk.

Section VerifierAccepts.

Lemma verifyArgs_allocated alloc reg (l : list Value) : forall stack stack',
  foldM (verifyArg alloc reg) stack l = Ok stack' ->
  forall a j, a ∈ l -> Instruction_Cast a = Some j -> is_Some (alloc !! a).
Proof.
  induction l as [|x l IH]; intros stack stack'; simpl; [set_solver|].
  intros H a j Ha Hj. apply bind_Ok in H as (stack1 & H1 & H).
  apply elem_of_cons in Ha as [->|Ha]; [|by eapply IH].
  unfold verifyArg in H1. rewrite Hj in H1.
  destruct (alloc !! x); [eauto|done].
Qed.

Lemma verifyInstr_coverage alloc reg stack i st' :
  noZeroSlot alloc ->
  verifyInstr (alloc, reg, stack) i = Ok st' ->
  (isPhi i = true ->
     is_Some (alloc !! val i) /\
     forall a j, a ∈ (phiEachArg i).*2 -> Instruction_Cast a = Some j ->
                 alloc !! a = alloc !! val i) /\
  (isPhi i = false ->
     forall a j, a ∈ args i -> Instruction_Cast a = Some j ->
                 is_Some (alloc !! a)).
Proof.
  intros Hnz. unfold verifyInstr. destruct (isPhi i) eqn:Hphi.
  - intros H. apply bind_Ok in H as (slot & Hslot%at_Ok & H).
    apply bind_Ok in H as (alloc' & Ha & _).
    split; [|done]. intros _. split; [eauto|].
    intros a j Hin Hj.
    apply verifyPhiArgs_ok in Ha as [_ Hall].
    specialize (Hall a j Hin Hj). unfold allocOrDefault in Hall.
    rewrite Hslot. destruct (alloc !! a) as [s|] eqn:Hs; simpl in Hall.
    + by rewrite Hall.
    + exfalso. apply (Hnz (val i)). by rewrite Hslot, <- Hall.
  - intros H. apply bind_Ok in H as (stack' & Hargs & _).
    split; [done|]. intros _ a j Hin Hj.
    eapply verifyArgs_allocated; [exact Hargs| |exact Hj].
    unfold eachArgRev. by apply elem_of_reverse.
Qed.

Lemma verifyInstrs_coverage ins : forall alloc reg stack st',
  noZeroSlot alloc ->
  foldM verifyInstr (alloc, reg, stack) ins = Ok st' ->
  forall i, i ∈ ins ->
    (isPhi i = true ->
       is_Some (alloc !! val i) /\
       forall a j, a ∈ (phiEachArg i).*2 -> Instruction_Cast a = Some j ->
                   alloc !! a = alloc !! val i) /\
    (isPhi i = false ->
       forall a j, a ∈ args i -> Instruction_Cast a = Some j ->
                   is_Some (alloc !! a)).
Proof.
  induction ins as [|x ins IH]; intros alloc reg stack st' Hnz;
    [set_solver|].
  cbn [foldM]. intros H i Hi.
  apply bind_Ok in H as ([[alloc1 reg1] stack1] & H1 & H).
  apply elem_of_cons in Hi as [->|Hi]; [by eapply verifyInstr_coverage|].
  pose proof (verifyInstr_touched _ _ _ H1) as [_ Heq]. cbn [fst] in Heq.
  rewrite (Heq Hnz) in H. by eapply IH.
Qed.

(** X4. The verifier reads allocations of phi inputs through [operator[]],
    which inserts a missing key with slot 0. On acceptance nothing else has
    happened to the allocation, and nothing at all when no value is
    allocated to slot 0: the emitter then sees the allocation the allocator
    made. *)
Theorem verify_keeps_allocation fuel code alloc shared :
  verify fuel code alloc = Ok shared ->
  touched alloc shared.1 /\ (noZeroSlot alloc -> shared.1 = alloc).
Proof.
  unfold verify. intros H.
  apply (verifyBB_walked code alloc) in H as (Ht & Hz & _);
    [done|apply touched_refl|done].
Qed.

Lemma verify_keeps_allocation_witness :
  touched loop_allocation
    (getOk (∅, ∅) (verify 10 loop_cssa loop_allocation)).1 /\
  (noZeroSlot loop_allocation ->
   (getOk (∅, ∅) (verify 10 loop_cssa loop_allocation)).1 = loop_allocation).
Proof.
  apply (verify_keeps_allocation 10 loop_cssa loop_allocation).
  vm_compute. reflexivity.
Defined.

Lemma verify_blockWalked fuel code alloc shared b :
  verify fuel code alloc = Ok shared -> reachable code b ->
  blockWalked code alloc b /\
  forall n, n ∈ successors code b -> (b, n) ∈ shared.2.
Proof.
  unfold verify, reachable. intros H Hr.
  apply (verifyBB_walked code alloc) in H
    as (_ & _ & _ & Hentry & Hout & Hnew); [|apply touched_refl|done].
  apply (rtc_ind_r (R := fun x y => y ∈ successors code x)
           (fun b => blockWalked code alloc b /\
                     forall n, n ∈ successors code b -> (b, n) ∈ shared.2)
           (entry code)); [done| |exact Hr].
  intros x y _ Hxy [_ Hc].
  destruct (Hnew x y) as (_ & _ & ? & ?); [by apply Hc|set_solver|done].
Qed.

(** X5. The verifier follows every edge that can be reached from the entry
    once and no other edge: with fuel above the number of edges it does not
    run out, and on acceptance [branchTaken] holds exactly the edges that
    leave reachable blocks, each of which has been walked to its end without
    failure. *)
Theorem verify_exploration fuel code alloc :
  ((size (edges code) < fuel)%nat -> verify fuel code alloc <> OutOfFuel) /\
  (forall shared, verify fuel code alloc = Ok shared ->
     (forall x y, (x, y) ∈ shared.2 <->
                  reachable code x /\ y ∈ successors code x) /\
     (forall b, reachable code b -> blockWalked code alloc b)).
Proof.
  split.
  - intros Hsz. apply verifyBB_terminates. simpl.
    assert (size (edges code ∖ ∅) <= size (edges code))%nat
      by (apply subseteq_size; set_solver). lia.
  - intros shared H. split.
    + intros x y. split.
      * intros Hxy. unfold verify in H.
        apply (verifyBB_walked code alloc) in H
          as (_ & _ & _ & _ & _ & Hnew); [|apply touched_refl|done].
        destruct (Hnew x y Hxy) as (? & ? & _); [set_solver|done].
      * intros [Hr Hy]. by apply (verify_blockWalked fuel code alloc shared x).
    + intros b Hr. by apply (verify_blockWalked fuel code alloc shared b).
Qed.

(** X6. Allocation coverage: when the verifier accepts an allocation without
    slot 0, every phi of a block reachable from the entry has a slot and
    shares it with each of its inputs that is an instruction, and every
    operand of any other instruction there that is an instruction has a
    slot. *)
Theorem verify_allocation_coverage fuel code alloc shared b i :
  verify fuel code alloc = Ok shared -> noZeroSlot alloc ->
  reachable code b -> i ∈ instrs (getBB code b) ->
  (isPhi i = true ->
     is_Some (alloc !! val i) /\
     forall a j, a ∈ (phiEachArg i).*2 -> Instruction_Cast a = Some j ->
                 alloc !! a = alloc !! val i) /\
  (isPhi i = false ->
     forall a j, a ∈ args i -> Instruction_Cast a = Some j ->
                 is_Some (alloc !! a)).
Proof.
  intros H Hnz Hr Hi.
  destruct (verify_blockWalked fuel code alloc shared b H Hr)
    as [(alloc1 & reg & stack & st' & _ & Heq & Hfold & _) _].
  rewrite (Heq Hnz) in Hfold.
  by eapply verifyInstrs_coverage.
Qed.

Lemma loop_noZero : noZeroSlot loop_allocation.
Proof.
  intros v Hv.
  assert (Forall (fun a : Value * SlotNumber => a.2 <> unassignedSlot)
            (map_to_list loop_allocation)) as Hall
    by (apply (bool_decide_unpack _); vm_compute; reflexivity).
  rewrite Forall_forall in Hall.
  by apply (Hall (v, unassignedSlot)); [apply elem_of_map_to_list|].
Qed.

Lemma loop_reachable_1 : reachable loop_cssa 1.
Proof.
  unfold reachable. eapply rtc_l; [|apply rtc_refl].
  vm_compute. by apply list_elem_of_singleton.
Qed.

Lemma verify_allocation_coverage_witness :
  let i := phiInstr 2 [0; 1]%nat [VInstr 7; VInstr 8] in
  (isPhi i = true ->
     is_Some (loop_allocation !! val i) /\
     forall a j, a ∈ (phiEachArg i).*2 -> Instruction_Cast a = Some j ->
                 loop_allocation !! a = loop_allocation !! val i) /\
  (isPhi i = false ->
     forall a j, a ∈ args i -> Instruction_Cast a = Some j ->
                 is_Some (loop_allocation !! a)).
Proof.
  intros i.
  apply (verify_allocation_coverage 10 loop_cssa loop_allocation
           (getOk (∅, ∅) (verify 10 loop_cssa loop_allocation)) 1 i);
    [vm_compute; reflexivity|exact loop_noZero|exact loop_reachable_1|].
  vm_compute. left.
Defined.

(** The loop has three edges and the verifier takes each of them. *)
Example verify_loop_edges :
  (getOk (∅, ∅) (verify 10 loop_cssa loop_allocation)).2
  = {[ (0, 1); (1, 1); (1, 2) ]}%nat.
Proof. vm_compute. reflexivity. Qed.

End VerifierAccepts.

Section CssaStructure.

Lemma copiesAdded_refl code : copiesAdded code code.
Proof.
  split; [done|]. split; [done|]. split; [done|]. split; [done|].
  split; [done|]. intros b i' Hi. right. eauto.
Qed.

Lemma copiesAdded_trans a b c :
  copiesAdded a b -> copiesAdded b c -> copiesAdded a c.
Proof.
  intros (A1 & A2 & A3 & A4 & A5 & A6) (B1 & B2 & B3 & B4 & B5 & B6).
  split; [congruence|]. split; [congruence|]. split.
  { intros x. by rewrite B3. }
  split.
  { intros x. destruct (A4 x), (B4 x). split; congruence. }
  split.
  { intros x. etrans; [apply A5|apply B5]. }
  intros x i' Hi'. destruct (B6 x i' Hi') as [|(i & Hi & Hp & Ht)]; [by left|].
  destruct (A6 x i Hi) as [|(j & Hj & Hpj & Htj)].
  - left. congruence.
  - right. exists j. split; [done|]. split; congruence.
Qed.

Lemma copiesAdded_insert code b pos x :
  is_Some (bbs code !! b) -> tag x = Tag.PirCopy ->
  copiesAdded code (updateBB b (insertAt pos x) code).
Proof.
  intros Hb Hx. split; [done|]. split; [done|]. split.
  { intros b'. simpl. destruct (decide (b' = b)) as [->|Hne].
    - rewrite lookup_alter_eq. by rewrite fmap_is_Some.
    - by rewrite lookup_alter_ne. }
  split.
  { intros b'. unfold getBB, updateBB. simpl.
    destruct (decide (b' = b)) as [->|Hne].
    - rewrite lookup_alter_eq. by destruct (bbs code !! b).
    - by rewrite lookup_alter_ne. }
  split.
  { intros b'. rewrite getBB_updateBB by done.
    destruct (decide (b' = b)); [|done].
    unfold insertAt. rewrite fmap_app, fmap_cons.
    rewrite <- (take_drop pos (instrs (getBB code b'))) at 1.
    rewrite fmap_app. apply sublist_app; [done|]. by apply sublist_cons. }
  intros b' i'. rewrite getBB_updateBB by done.
  destruct (decide (b' = b)); [|right; eauto].
  intros [->|Hi]%elem_of_insertAt; [by left|right; eauto].
Qed.

Lemma copiesAdded_mapInstrs code f :
  (forall j, ptr (f j) = ptr j /\ tag (f j) = tag j) ->
  copiesAdded code (mapInstrs f code).
Proof.
  intros Hf. split; [done|]. split; [done|]. split.
  { intros b. simpl. rewrite lookup_fmap. by rewrite fmap_is_Some. }
  split.
  { intros b. unfold getBB, mapInstrs. simpl. rewrite lookup_fmap.
    by destruct (bbs code !! b). }
  split.
  { intros b. rewrite getBB_mapInstrs, <- list_fmap_compose.
    assert (((fun i => (ptr i, tag i)) ∘ f) <$> instrs (getBB code b)
            = (fun i => (ptr i, tag i)) <$> instrs (getBB code b)) as ->; [|done].
    apply list_fmap_ext. intros _ i _. simpl. by destruct (Hf i) as [-> ->]. }
  intros b i'. rewrite getBB_mapInstrs.
  intros (i & -> & Hi)%list_elem_of_fmap. right. exists i.
  destruct (Hf i) as [-> ->]. done.
Qed.

Lemma insertPhiInput_copiesAdded phi code ka code' :
  insertPhiInput phi code ka = Ok code' -> copiesAdded code code'.
Proof.
  destruct ka as [k a].
  intros (pred & pb & _ & Hpb & -> & _)%insertPhiInput_Ok.
  eapply copiesAdded_trans;
    [|apply copiesAdded_mapInstrs; intros j; apply setArg_ptr_tag].
  apply copiesAdded_insert; [eauto|done].
Qed.

Lemma splitPhi_copiesAdded bb it phi code code' :
  instrs (getBB code bb) !! it = Some phi ->
  splitPhi bb it phi code = Ok code' -> copiesAdded code code'.
Proof.
  intros Hit. unfold splitPhi. intros H.
  apply bind_Ok in H as (code1 & Hloop & H).
  destruct (feedsItself bb phi) eqn:Hself; [done|]. injection H as <-.
  assert (copiesAdded code code1) as H1.
  { eapply (foldM_inv (copiesAdded code)) in Hloop; [exact Hloop| |].
    - intros c ka c' _ Hc Hstep. eapply copiesAdded_trans; [exact Hc|].
      by eapply insertPhiInput_copiesAdded.
    - apply copiesAdded_refl. }
  eapply copiesAdded_trans; [exact H1|].
  eapply copiesAdded_trans;
    [apply copiesAdded_mapInstrs; intros j; apply replace_ptr_tag|].
  apply copiesAdded_insert; [|done].
  apply mapInstrs_is_Some. apply H1. by eapply getBB_is_Some.
Qed.

Lemma cssaBlock_copiesAdded fuel bb : forall it code code',
  cssaBlock fuel bb it code = Ok code' -> copiesAdded code code'.
Proof.
  induction fuel as [|fuel IH]; intros it code code'; [done|]. simpl.
  destruct (instrs (getBB code bb) !! it) as [instr|] eqn:Hit;
    [|intros [= <-]; apply copiesAdded_refl].
  destruct (isPhi instr); [|apply IH].
  intros H. apply bind_Ok in H as (code1 & H1 & H).
  eapply copiesAdded_trans; [by eapply splitPhi_copiesAdded|by eapply IH].
Qed.

Lemma toCSSA_copiesAdded fuel order code code' :
  toCSSA fuel order code = Ok code' -> copiesAdded code code'.
Proof.
  unfold toCSSA. intros H.
  eapply (foldM_inv (copiesAdded code)) in H; [exact H| |apply copiesAdded_refl].
  intros c b c' _ Hc Hstep. eapply copiesAdded_trans; [exact Hc|].
  by eapply cssaBlock_copiesAdded.
Qed.

(** X7. [toCSSA] only adds copies: the code it returns has the same entry
    and the same blocks with the same successors, every block holds the
    instructions it held (the same objects with the same tags) in the same
    order, and every instruction that was not there is a [PirCopy]. *)
Theorem toCSSA_only_adds_copies fuel order code code' :
  toCSSA fuel order code = Ok code' ->
  entry code' = entry code /\ nextBBId code' = nextBBId code /\
  (forall b, is_Some (bbs code' !! b) <-> is_Some (bbs code !! b)) /\
  (forall b, successors code' b = successors code b) /\
  (forall b, (fun i => (ptr i, tag i)) <$> instrs (getBB code b)
             `sublist_of` (fun i => (ptr i, tag i)) <$> instrs (getBB code' b)) /\
  (forall b i', i' ∈ instrs (getBB code' b) ->
     tag i' = Tag.PirCopy \/
     exists i, i ∈ instrs (getBB code b) /\ ptr i = ptr i' /\ tag i = tag i').
Proof.
  intros (H1 & H2 & H3 & H4 & H5 & H6)%toCSSA_copiesAdded.
  split; [done|]. split; [done|]. split; [done|]. split; [|by split].
  intros b. unfold successors. by destruct (H4 b) as [-> ->].
Qed.

Lemma toCSSA_only_adds_copies_witness :
  entry diamond_cssa = entry diamond /\ nextBBId diamond_cssa = nextBBId diamond /\
  (forall b, is_Some (bbs diamond_cssa !! b) <-> is_Some (bbs diamond !! b)) /\
  (forall b, successors diamond_cssa b = successors diamond b) /\
  (forall b, (fun i => (ptr i, tag i)) <$> instrs (getBB diamond b)
             `sublist_of` (fun i => (ptr i, tag i)) <$> instrs (getBB diamond_cssa b)) /\
  (forall b i', i' ∈ instrs (getBB diamond_cssa b) ->
     tag i' = Tag.PirCopy \/
     exists i, i ∈ instrs (getBB diamond b) /\ ptr i = ptr i' /\ tag i = tag i').
Proof.
  apply (toCSSA_only_adds_copies 10 diamond_order diamond diamond_cssa).
  vm_compute. reflexivity.
Defined.

Lemma cssaBlock_no_phi fuel bb code : forall it,
  (forall i, i ∈ instrs (getBB code bb) -> isPhi i = false) ->
  (length (instrs (getBB code bb)) - it < fuel)%nat ->
  cssaBlock fuel bb it code = Ok code.
Proof.
  induction fuel as [|fuel IH]; intros it Hno Hlen; [lia|]. simpl.
  destruct (instrs (getBB code bb) !! it) as [instr|] eqn:Hit; [|done].
  rewrite (Hno instr) by (by eapply list_elem_of_lookup_2).
  apply lookup_lt_Some in Hit. apply IH; [done|lia].
Qed.

(** X8. Code without phis passes [toCSSA] unchanged: when no block the
    visitor runs over holds a phi, and the fuel covers the longest of these
    blocks, the result is the code itself. *)
Theorem toCSSA_without_phis fuel order code :
  (forall b i, b ∈ order -> i ∈ instrs (getBB code b) -> isPhi i = false) ->
  (forall b, b ∈ order -> (length (instrs (getBB code b)) < fuel)%nat) ->
  toCSSA fuel order code = Ok code.
Proof.
  unfold toCSSA. induction order as [|b order IH]; intros Hno Hlen; [done|].
  simpl. rewrite cssaBlock_no_phi.
  - simpl. apply IH; intros; [eapply Hno|apply Hlen]; set_solver.
  - intros i. apply Hno. set_solver.
  - assert (length (instrs (getBB code b)) < fuel)%nat
      by (apply Hlen; set_solver). lia.
Qed.

Lemma toCSSA_without_phis_witness : toCSSA 5 [0%nat] leak = Ok leak.
Proof.
  apply toCSSA_without_phis.
  - intros b i ->%list_elem_of_singleton Hi.
    change (i ∈ [instr 1 Tag.LdArg []; voidInstr 2 Tag.Return [VNil]]) in Hi.
    rewrite !elem_of_cons, elem_of_nil in Hi.
    by destruct Hi as [->|[->|[]]].
  - intros b ->%list_elem_of_singleton. vm_compute. lia.
Defined.

End CssaStructure.

Section Emission.

Context (alloc : gmap Value SlotNumber) (T : nat -> Prop).

Lemma appends_refl cs : appends alloc T cs cs.
Proof. exists []. by rewrite app_nil_r. Qed.

Lemma appends_trans a b c :
  appends alloc T a b -> appends alloc T b c -> appends alloc T a c.
Proof.
  intros (n1 & E1 & F1 & A1 & L1) (n2 & E2 & F2 & A2 & L2).
  exists (n1 ++ n2). rewrite E2, E1, app_assoc.
  split; [done|]. split; [by apply Forall_app|]. split; congruence.
Qed.

Lemma appends_emit cs l :
  Forall (bodyBC alloc T) l -> appends alloc T cs (emit cs l).
Proof. intros Hl. by exists l. Qed.

Lemma loadEnv_appends cs what cs' :
  loadEnv alloc cs what = Ok cs' -> appends alloc T cs cs'.
Proof.
  unfold loadEnv.
  assert (Hgen : (if negb (hasSlot alloc what) then Abort AssertionFailed
                  else s ← onStack alloc what;
                       if negb s then n ← localOf alloc what;
                                      Ok (emit cs [BC.ldloc n])
                       else Ok cs) = Ok cs' -> appends alloc T cs cs').
  { destruct (negb (hasSlot alloc what)); [done|].
    intros H. apply bind_Ok in H as (s & _ & H). destruct s; simpl in H.
    - injection H as <-. apply appends_refl.
    - apply bind_Ok in H as (n & Hn & [= <-]).
      apply appends_emit. repeat constructor. by exists what. }
  destruct what; try exact Hgen.
  - intros [= <-]. apply appends_emit. by repeat constructor.
  - intros [= <-]. apply appends_emit. by repeat constructor.
Qed.

Lemma loadArg_appends i cs what cs' :
  loadArg alloc i cs what = Ok cs' -> appends alloc T cs cs'.
Proof.
  unfold loadArg. destruct (decide (what = VMissing)) as [Hm|Hm].
  - destruct (bool_decide (tag i = Tag.MkArg)); [|done].
    intros [= <-]. apply appends_emit. by repeat constructor.
  - destruct (negb (hasSlot alloc what)); [done|].
    intros H. apply bind_Ok in H as (s & _ & H). destruct s; simpl in H.
    + injection H as <-. apply appends_refl.
    + apply bind_Ok in H as (n & Hn & [= <-]).
      apply appends_emit. repeat constructor. by exists what.
Qed.

Lemma loadAndSetEnv_appends i st st' :
  loadAndSetEnv alloc i st = Ok st' -> appends alloc T st.1 st'.1.
Proof.
  unfold loadAndSetEnv.
  destruct (negb (isPhi i)); [|intros [= <-]; apply appends_refl].
  destruct (hasEnv i && negb (explicitEnvValue i));
    [|intros [= <-]; apply appends_refl].
  destruct (negb (envIsLastArg i)); [done|].
  intros H. apply bind_Ok in H as (e & _ & H).
  destruct (decide (st.2 <> e)) as [Hd|Hd].
  - apply bind_Ok in H as (cs & Hcs & [= <-]). simpl.
    eapply appends_trans; [by eapply loadEnv_appends|].
    apply appends_emit. by repeat constructor.
  - destruct (hasSlot alloc e); [|injection H as <-; apply appends_refl].
    apply bind_Ok in H as (s & _ & [= <-]). simpl.
    destruct s; [|apply appends_refl].
    apply appends_emit. by repeat constructor.
Qed.

Lemma loadRestArg_appends i cs what cs' :
  loadRestArg alloc i cs what = Ok cs' -> appends alloc T cs cs'.
Proof.
  unfold loadRestArg. destruct (hasEnv i); [|apply loadArg_appends].
  intros H. apply bind_Ok in H as (e & _ & H).
  destruct (decide (e = what)) as [He|He]; [|by eapply loadArg_appends].
  destruct (explicitEnvValue i); [by eapply loadEnv_appends|].
  injection H as <-. apply appends_refl.
Qed.

Lemma loadArguments_appends i st st' :
  loadArguments alloc i st = Ok st' -> appends alloc T st.1 st'.1.
Proof.
  unfold loadArguments. intros H. apply bind_Ok in H as (st1 & H1 & H).
  apply loadAndSetEnv_appends in H1.
  destruct (negb (isPhi i)); [|by injection H as <-].
  apply bind_Ok in H as (cs & Hcs & [= <-]). simpl.
  eapply appends_trans; [exact H1|].
  eapply (foldM_inv (appends alloc T st1.1)) in Hcs;
    [exact Hcs| |apply appends_refl].
  intros a b a' _ Ha Hf. eapply appends_trans; [exact Ha|].
  by eapply loadRestArg_appends.
Qed.

Lemma storeResult_appends i cs cs' :
  storeResult alloc i cs = Ok cs' -> appends alloc T cs cs'.
Proof.
  unfold storeResult.
  destruct (negb (voyd i) && negb (isPhi i));
    [|intros [= <-]; apply appends_refl].
  destruct (negb (hasSlot alloc (val i))).
  - intros [= <-]. apply appends_emit. by repeat constructor.
  - intros H. apply bind_Ok in H as (s & _ & H). destruct s; simpl in H.
    + injection H as <-. apply appends_refl.
    + apply bind_Ok in H as (n & Hn & [= <-]).
      apply appends_emit. repeat constructor. by exists (val i).
Qed.

Lemma skipEmpty_nonempty fuel code : forall next n,
  skipEmpty fuel code next = Ok n -> instrs (getBB code n) <> [].
Proof.
  induction fuel as [|fuel IH]; intros [x|] n; simpl; try done.
  - destruct (instrs (getBB code x)) eqn:Hx; [done|].
    intros [= <-]. by rewrite Hx.
  - destruct (instrs (getBB code x)) eqn:Hx; [by apply IH|].
    intros [= <-]. by rewrite Hx.
Qed.

Lemma skipEmpty_closed fuel code (P : nat -> Prop) :
  (forall x y, P x -> next0 (getBB code x) = Some y -> P y) ->
  forall next n, (forall x, next = Some x -> P x) ->
                 skipEmpty fuel code next = Ok n -> P n.
Proof.
  intros Hstep. induction fuel as [|fuel IH]; intros [x|] n Hx; simpl; try done.
  - destruct (instrs (getBB code x)); [done|]. intros [= <-]. by apply Hx.
  - destruct (instrs (getBB code x)); [|intros [= <-]; by apply Hx].
    apply IH. intros y Hy. eapply Hstep; [by apply Hx|done].
Qed.

Lemma forall_pops (l : list Value) :
  Forall (bodyBC alloc T) ((fun _ => BC.pop) <$> l).
Proof. induction l; by constructor. Qed.

Lemma forall_stvars (l : list nat) :
  Forall (bodyBC alloc T) (BC.stvar <$> l).
Proof. induction l; by constructor. Qed.

Context (rec : Lowering) (rt : Runtime) (debug : list DebugFlag) (fuel : nat)
        (code : Code) (bbLabels : gmap nat nat).

Lemma emitOpcode_appends bb i st r :
  (forall o n, o = next0 (getBB code bb) \/ o = next1 (getBB code bb) ->
               skipEmpty fuel code o = Ok n -> T (labelOf bbLabels n)) ->
  emitOpcode rec rt debug fuel code bb bbLabels alloc i st = Ok r ->
  appends alloc T (es_cs st) (es_cs r.1).
Proof.
  intros HT. unfold emitOpcode.
  destruct (tag i) eqn:Ht, (imm i) eqn:Hi; simpl;
    try (intros [= <-]; first [apply appends_refl
                              |apply appends_emit; by repeat constructor]);
    try done.
  all: try (intros H; apply bind_Ok in H as (n0 & Hn0 & H);
            apply bind_Ok in H as (n1 & Hn1 & [= <-]); simpl;
            apply appends_emit;
            repeat constructor; simpl;
            [exact (HT _ _ (or_introl eq_refl) Hn0)
            |exact (HT _ _ (or_intror eq_refl) Hn1)]).
  all: try (intros H; apply bind_Ok in H as (r1 & H1 & [= <-]); simpl;
            first [apply appends_emit; by repeat constructor
                  |apply appends_refl]).
  all: try (destruct (tables (es_world st) !! code0) as [dt|]; [|done];
            intros H; apply bind_Ok in H as (w & Hw & [= <-]); simpl;
            apply appends_emit; by repeat constructor).
  all: try (destruct (0 <? length names)%nat; intros [= <-]; simpl;
            apply appends_emit; [|by repeat constructor];
            repeat constructor; apply Forall_app; split;
            [apply forall_stvars|by repeat constructor]).
  all: try (intros [= <-]; simpl; apply appends_emit; apply Forall_app;
            split; [apply forall_pops|by repeat constructor]).
Qed.

Lemma emitInstr_appends bb i st r :
  (forall o n, o = next0 (getBB code bb) \/ o = next1 (getBB code bb) ->
               skipEmpty fuel code o = Ok n -> T (labelOf bbLabels n)) ->
  emitInstr rec rt debug fuel code bb bbLabels alloc i st = Ok r ->
  appends alloc T (es_cs st) (es_cs r.1).
Proof.
  intros HT. unfold emitInstr. intros H.
  apply bind_Ok in H as (ce & Hce & H). apply bind_Ok in H as (r1 & Hr1 & H).
  apply loadArguments_appends in Hce. apply emitOpcode_appends in Hr1; [|done].
  simpl in Hce, Hr1.
  assert (appends alloc T (es_cs st) (es_cs r1.1)) as H1
    by (by eapply appends_trans).
  destruct (r1.2); [by injection H as <-|].
  apply bind_Ok in H as (cs & Hcs & [= <-]). simpl.
  eapply appends_trans; [exact H1|]. by eapply storeResult_appends.
Qed.

Lemma emitInstrs_appends bb ins : forall st r,
  (forall o n, o = next0 (getBB code bb) \/ o = next1 (getBB code bb) ->
               skipEmpty fuel code o = Ok n -> T (labelOf bbLabels n)) ->
  emitInstrs rec rt debug fuel code bb bbLabels alloc ins st = Ok r ->
  appends alloc T (es_cs st) (es_cs r.1).
Proof.
  induction ins as [|i ins IH]; intros st r HT; simpl.
  - intros [= <-]. apply appends_refl.
  - intros H. apply bind_Ok in H as (r1 & Hr1 & H).
    apply emitInstr_appends in Hr1; [|done].
    destruct (r1.2); [by injection H as <-|].
    eapply appends_trans; [exact Hr1|]. by apply IH.
Qed.

End Emission.

Section EmittedCode.

Lemma labelsOf_app a b : labelsOf (a ++ b) = labelsOf a ++ labelsOf b.
Proof. apply omap_app. Qed.

Lemma jumpsOf_app a b : jumpsOf (a ++ b) = jumpsOf a ++ jumpsOf b.
Proof. apply omap_app. Qed.

Lemma localsOf_app a b : localsOf (a ++ b) = localsOf a ++ localsOf b.
Proof. apply omap_app. Qed.

Lemma bodyBC_streams alloc T new :
  Forall (bodyBC alloc T) new ->
  labelsOf new = [] /\ Forall T (jumpsOf new) /\
  Forall (fun n => exists v, localOf alloc v = Ok n) (localsOf new).
Proof.
  induction 1 as [|b new Hb _ (IH1 & IH2 & IH3)]; [done|].
  destruct b; simpl in *; try done; repeat split; try done; by constructor.
Qed.

Context (rec : Lowering) (rt : Runtime) (debug : list DebugFlag) (fuel : nat)
        (code : Code) (bbLabels : gmap nat nat)
        (alloc : gmap Value SlotNumber) (T : nat -> Prop).

Lemma emitBB_emitted bb st st' :
  (forall o n, o = next0 (getBB code bb) \/ o = next1 (getBB code bb) ->
               skipEmpty fuel code o = Ok n -> T (labelOf bbLabels n)) ->
  emitBB rec rt debug fuel code bbLabels alloc st bb = Ok st' ->
  emitted alloc T code bbLabels [bb] st.1 st'.1.
Proof.
  intros HT. unfold emitBB, emitted, emittedBlocks.
  rewrite filter_cons, filter_nil.
  destruct (instrs (getBB code bb)) as [|i0 ins] eqn:Hins.
  { intros [= <-]. exists []. rewrite app_nil_r.
    rewrite decide_False by (simpl; lia). by repeat split. }
  rewrite decide_True by (simpl; lia).
  intros H. apply bind_Ok in H as (r & Hr & H).
  apply (emitInstrs_appends alloc T) in Hr as (new & Hb & Hall & Ha & Hl);
    [|done].
  simpl in Hb, Ha, Hl.
  destruct (bodyBC_streams _ _ _ Hall) as (L1 & L2 & L3).
  destruct (r.2).
  - injection H as <-. simpl.
    exists (BC.label (labelOf bbLabels bb) :: new).
    rewrite Hb, <- app_assoc. simpl. by rewrite L1.
  - destruct (next0 (getBB code bb)) as [x|] eqn:Hx; [|done].
    apply bind_Ok in H as (nx & Hnx & [= <-]). simpl.
    exists (BC.label (labelOf bbLabels bb) :: new
            ++ [BC.br (labelOf bbLabels nx)]).
    rewrite Hb, <- !app_assoc. simpl.
    rewrite labelsOf_app, jumpsOf_app, localsOf_app, L1. simpl.
    rewrite !app_nil_r. repeat split; try done.
    apply Forall_app. split; [done|]. repeat constructor.
    eapply HT; [|exact Hnx]. by left.
Qed.

Lemma emitted_app b1 b2 a b c :
  emitted alloc T code bbLabels b1 a b ->
  emitted alloc T code bbLabels b2 b c ->
  emitted alloc T code bbLabels (b1 ++ b2) a c.
Proof.
  intros (n1 & E1 & L1 & J1 & V1 & A1 & N1) (n2 & E2 & L2 & J2 & V2 & A2 & N2).
  exists (n1 ++ n2). rewrite E2, E1, app_assoc.
  rewrite labelsOf_app, jumpsOf_app, localsOf_app, L1, L2.
  unfold emittedBlocks. rewrite filter_app, fmap_app.
  repeat split; try done; try (by apply Forall_app); congruence.
Qed.

Lemma emitBBs_emitted order : forall st st',
  (forall bb o n, bb ∈ order ->
     o = next0 (getBB code bb) \/ o = next1 (getBB code bb) ->
     skipEmpty fuel code o = Ok n -> T (labelOf bbLabels n)) ->
  foldM (emitBB rec rt debug fuel code bbLabels alloc) st order = Ok st' ->
  emitted alloc T code bbLabels order st.1 st'.1.
Proof.
  induction order as [|bb order IH]; intros st st' HT; simpl.
  - intros [= <-]. exists []. by rewrite app_nil_r.
  - intros H. apply bind_Ok in H as (st1 & H1 & H).
    apply (emitted_app [bb] order _ st1.1).
    + apply emitBB_emitted; [|done]. intros o n. apply HT. by left.
    + apply IH; [|done]. intros b o n Hb. apply HT. by right.
Qed.

End EmittedCode.

Section Labels.

Context (code : Code).

Lemma mkLabels_other order : forall st x,
  x ∉ order -> (foldl (mkLabels code) st order).2 !! x = st.2 !! x.
Proof.
  induction order as [|b order IH]; intros st x Hx; simpl; [done|].
  apply not_elem_of_cons in Hx as [Hne Hx]. rewrite IH by done.
  unfold mkLabels. destruct (instrs (getBB code b)); [done|].
  simpl. by rewrite lookup_insert_ne.
Qed.

Lemma mkLabels_stream order : forall st,
  bcs (foldl (mkLabels code) st order).1 = bcs st.1 /\
  ast (foldl (mkLabels code) st order).1 = ast st.1 /\
  nextLabel (foldl (mkLabels code) st order).1
  = (nextLabel st.1 + length (emittedBlocks code order))%nat.
Proof.
  unfold emittedBlocks.
  induction order as [|b order IH]; intros st; simpl;
    [by rewrite Nat.add_0_r|].
  destruct (IH (mkLabels code st b)) as (-> & -> & ->).
  rewrite filter_cons. unfold mkLabels.
  destruct (instrs (getBB code b)).
  - rewrite decide_False by (simpl; lia). done.
  - rewrite decide_True by (simpl; lia). simpl. repeat split; lia.
Qed.

Lemma mkLabels_consecutive order : forall st,
  NoDup order ->
  labelOf (foldl (mkLabels code) st order).2 <$> emittedBlocks code order
  = seq (nextLabel st.1) (length (emittedBlocks code order)).
Proof.
  unfold emittedBlocks.
  induction order as [|b order IH]; intros st Hnd; simpl; [done|].
  apply NoDup_cons in Hnd as [Hb Hnd].
  rewrite filter_cons.
  assert (forall st0 : CodeStream * gmap nat nat,
            labelOf (foldl (mkLabels code) st0 order).2
              <$> filter (fun b => (0 < length (instrs (getBB code b)))%nat) order
            = seq (nextLabel st0.1)
                (length (filter (fun b => (0 < length (instrs (getBB code b)))%nat)
                           order))) as IH' by (intros; by apply IH).
  remember (mkLabels code st b) as st1 eqn:E1. unfold mkLabels in E1.
  destruct (instrs (getBB code b)).
  - rewrite decide_False by (simpl; lia). subst st1. apply IH'.
  - rewrite decide_True by (simpl; lia). simpl. f_equal.
    + unfold labelOf. rewrite mkLabels_other by done. subst st1. simpl.
      by rewrite lookup_insert_eq.
    + rewrite IH'. by subst st1.
Qed.

End Labels.

Section CompiledCode.

Context (rec : Lowering) (rt : Runtime) (debug : list DebugFlag) (fuel : nat).

Lemma compileCode_passes r cs pw res :
  compileCode rec rt debug fuel r cs pw = Ok res ->
  exists u code li alloc0 v out,
    getUnit pw.2 r = Ok u /\
    toCSSA fuel (bfsOrder u) (ucode u) = Ok code /\
    computeLiveness fuel (cfgOf code) code = Ok li /\
    allocate fuel li code (visitOrder u) (domOrder u) = Ok alloc0 /\
    verify fuel code alloc0 = Ok v /\
    foldM (emitBB rec rt debug fuel code
             (foldl (mkLabels code) (cs, ∅) (bfsOrder u)).2 v.1)
          ((foldl (mkLabels code) (cs, ∅) (bfsOrder u)).1,
           (pw.1, setCode r code pw.2)) (bfsOrder u) = Ok out /\
    res = (slots v.1, out.1, out.2).
Proof.
  unfold compileCode. intros H.
  apply bind_Ok in H as (u & Hu & H). apply bind_Ok in H as (code & Hc & H).
  apply bind_Ok in H as (li & Hli & H). apply bind_Ok in H as (a0 & Ha & H).
  apply bind_Ok in H as (v & Hv & H). apply bind_Ok in H as (out & Ho & H).
  injection H as <-. by exists u, code, li, a0, v, out.
Qed.

Lemma verify_noZero_same code alloc v :
  verify fuel code alloc = Ok v -> noZeroSlot alloc -> v.1 = alloc.
Proof.
  unfold verify. intros H Hnz.
  apply (verifyBB_walked code alloc) in H as (_ & Hsame & _);
    [by apply Hsame|apply touched_refl|done].
Qed.

Lemma localOf_below bound alloc v k :
  slotsWithin bound alloc -> bound < 4294967296 ->
  localOf alloc v = Ok k -> k < slots alloc.
Proof.
  intros Hw Hb Hloc. unfold localOf in Hloc.
  apply bind_Ok in Hloc as (s & Hs%at_Ok & Hloc).
  destruct (N.eqb_spec s stackSlot) as [|Hns]; [done|].
  injection Hloc as <-.
  destruct (Hw v s Hs) as [|Hrange]; [done|].
  assert (s <= slots alloc) as Hle.
  { apply (slots_ge alloc v); [|done|done].
    intros v' s' Hv'. destruct (Hw v' s' Hv'); [by left|right; lia]. }
  replace (s + 18446744073709551615)
    with ((s - 1) + 1 * 18446744073709551616) by lia.
  rewrite N.Div0.mod_add, N.mod_small by lia. lia.
Qed.

Lemma closedOrder_copiesAdded code code' order :
  copiesAdded code code' -> closedOrder code order -> closedOrder code' order.
Proof.
  intros (_ & _ & _ & Hnext & _) Hc b n Hb Hn. apply (Hc b); [done|].
  unfold successors in *. destruct (Hnext b) as [-> ->] in Hn. done.
Qed.

Lemma skipEmpty_emitted code order o n :
  closedOrder code order ->
  (forall x, o = Some x -> x ∈ order) ->
  skipEmpty fuel code o = Ok n -> n ∈ emittedBlocks code order.
Proof.
  intros Hc Ho H. unfold emittedBlocks. apply list_elem_of_filter. split.
  - apply skipEmpty_nonempty in H.
    destruct (instrs (getBB code n)); [done|simpl; lia].
  - eapply (skipEmpty_closed fuel code (fun x => x ∈ order)); [|exact Ho|exact H].
    intros x y Hx Hy. apply (Hc x); [done|].
    unfold successors. rewrite Hy. simpl. by left.
Qed.

(** X9. The locals count [compileCode] returns covers every local it
    emitted: each [ldloc] and [stloc] written behind the stream carries an
    index below the count. *)
Theorem compileCode_locals_below_count r cs pw n cs' pw' :
  compileCode rec rt debug fuel r cs pw = Ok (n, cs', pw') ->
  N.of_nat fuel < 4294967296 ->
  exists new, bcs cs' = bcs cs ++ new /\ ast cs' = ast cs /\
              Forall (fun k => k < n) (localsOf new).
Proof.
  intros H Hfuel.
  apply compileCode_passes in H
    as (u & code & li & a0 & v & out & _ & _ & _ & Ha & Hv & Ho & Heq).
  injection Heq as -> -> ->.
  assert (slotsWithin (N.of_nat fuel) a0) as Hw.
  { unfold allocate in Ha. apply bind_Ok in Ha as (st & Ha & [= <-]).
    eapply computeAllocation_within; [lia| |exact Ha].
    apply slotsWithin_stack. }
  assert (v.1 = a0) as Hsame.
  { eapply verify_noZero_same; [exact Hv|]. by eapply slotsWithin_noZero. }
  apply (emitBBs_emitted _ _ _ _ _ _ _ (fun _ => True)) in Ho
    as (new & Hb & _ & _ & Hloc & Hast & _); [|done].
  simpl in Hb, Hast.
  destruct (mkLabels_stream code (bfsOrder u) (cs, ∅)) as (Hb0 & Ha0 & _).
  simpl in Hb0, Ha0. rewrite Hb0 in Hb. rewrite Ha0 in Hast.
  exists new. split; [done|]. split; [done|].
  eapply Forall_impl; [exact Hloc|]. intros k [x Hx]. simpl in Hx.
  rewrite Hsame in *. by eapply localOf_below.
Qed.

(** X10. Labels and jumps of the emitted code: when the visitor's order
    names no block twice and holds the successors of its blocks, the labels
    [compileCode] writes are the fresh ones of the stream, one after the
    other, each defined once, and every branch it writes goes to one of
    them. *)
Theorem compileCode_jumps_resolve r cs pw u n cs' pw' :
  getUnit pw.2 r = Ok u ->
  NoDup (bfsOrder u) -> closedOrder (ucode u) (bfsOrder u) ->
  compileCode rec rt debug fuel r cs pw = Ok (n, cs', pw') ->
  exists new, bcs cs' = bcs cs ++ new /\
    (nextLabel cs <= nextLabel cs')%nat /\
    labelsOf new = seq (nextLabel cs) (nextLabel cs' - nextLabel cs) /\
    NoDup (labelsOf new) /\
    forall l, l ∈ jumpsOf new -> l ∈ labelsOf new.
Proof.
  intros Hu Hnd Hclosed H.
  apply compileCode_passes in H
    as (u' & code & li & a0 & v & out & Hu' & Hc & _ & _ & _ & Ho & Heq).
  rewrite Hu in Hu'. injection Hu' as <-. injection Heq as -> -> ->.
  apply toCSSA_copiesAdded in Hc.
  pose proof (closedOrder_copiesAdded _ _ _ Hc Hclosed) as Hclosed'.
  set (lb := foldl (mkLabels code) (cs, ∅) (bfsOrder u)) in *.
  apply (emitBBs_emitted _ _ _ _ _ _ _
           (fun l => l ∈ labelOf lb.2 <$> emittedBlocks code (bfsOrder u)))
    in Ho as (new & Hb & Hlab & Hj & _ & _ & Hnl).
  - destruct (mkLabels_stream code (bfsOrder u) (cs, ∅)) as (Hb0 & _ & Hn0).
    fold lb in Hb0, Hn0. simpl in Hb0, Hn0, Hb, Hnl.
    rewrite Hb0 in Hb. rewrite Hn0 in Hnl.
    assert (labelsOf new
            = seq (nextLabel cs) (nextLabel out.1 - nextLabel cs)) as Hseq.
    { rewrite Hlab. unfold lb.
      rewrite (mkLabels_consecutive code (bfsOrder u) (cs, ∅) Hnd). simpl.
      f_equal. lia. }
    exists new. split; [done|]. split; [lia|]. split; [done|]. split.
    + rewrite Hseq. apply NoDup_seq.
    + intros l Hl. rewrite Hlab.
      by apply (proj1 (Forall_forall _ _) Hj).
  - intros bb o k Hbb Ho' Hk. apply list_elem_of_fmap. exists k.
    split; [done|].
    eapply skipEmpty_emitted; [exact Hclosed'| |exact Hk].
    intros x ->. apply (Hclosed' bb); [done|].
    unfold successors. destruct Ho' as [<-|<-]; simpl.
    + by left.
    + apply elem_of_app. right. by left.
Qed.

End CompiledCode.

Section CompiledDiamond.

Lemma compileCode_locals_below_count_witness :
  exists new, bcs diamond_lowered.1.2 = bcs (newStream 0) ++ new /\
              ast diamond_lowered.1.2 = ast (newStream 0) /\
              Forall (fun k => k < diamond_lowered.1.1) (localsOf new).
Proof.
  apply (compileCode_locals_below_count (lowering 0 plain_runtime [] 20)
           plain_runtime [] 20 (ClosureRef 0) (newStream 0)
           ({| written := []; promIdx := ∅; promNames := ∅ |}, diamond_world)
           diamond_lowered.1.1 diamond_lowered.1.2 diamond_lowered.2);
    [vm_compute; reflexivity|vm_compute; reflexivity].
Defined.

(** The diamond takes one local, for %1; its four blocks get the labels 0
    to 3, the branch of BB0 goes to the labels 1 and 2, and both arms jump
    to label 3. *)
Example diamond_lowered_code :
  diamond_lowered.1.1 = 1 /\
  bcs diamond_lowered.1.2 =
    [BC.label 0; BC.ldarg 0; BC.stloc 0; BC.ldloc 0; BC.asbool;
     BC.brfalse 1; BC.br 2;
     BC.label 1; BC.ldloc 0; BC.inc; BC.br 3;
     BC.label 2; BC.ldloc 0; BC.force; BC.br 3;
     BC.label 3; BC.ret] /\
  labelsOf (bcs diamond_lowered.1.2) = [0; 1; 2; 3]%nat /\
  jumpsOf (bcs diamond_lowered.1.2) = [1; 2; 3; 3]%nat.
Proof. vm_compute. by repeat split. Qed.

Lemma compileCode_jumps_resolve_witness :
  exists new, bcs diamond_lowered.1.2 = bcs (newStream 0) ++ new /\
    (nextLabel (newStream 0) <= nextLabel diamond_lowered.1.2)%nat /\
    labelsOf new = seq (nextLabel (newStream 0))
                     (nextLabel diamond_lowered.1.2 - nextLabel (newStream 0)) /\
    NoDup (labelsOf new) /\
    forall l, l ∈ jumpsOf new -> l ∈ labelsOf new.
Proof.
  apply (compileCode_jumps_resolve (lowering 0 plain_runtime [] 20)
           plain_runtime [] 20 (ClosureRef 0) (newStream 0)
           ({| written := []; promIdx := ∅; promNames := ∅ |}, diamond_world)
           diamond_unit diamond_lowered.1.1 diamond_lowered.1.2 diamond_lowered.2).
  - reflexivity.
  - apply (bool_decide_unpack _). vm_compute. reflexivity.
  - intros b n Hb Hn.
    assert (b = 0 \/ b = 1 \/ b = 2 \/ b = 3)%nat as Hcases
      by set_solver.
    destruct Hcases as [-> | [-> | [-> | ->]]]; vm_compute in Hn; set_solver.
  - vm_compute. reflexivity.
Defined.

End CompiledDiamond.

Section WorldGrowth.

Context (rt : Runtime) (debug : list DebugFlag) (fuel : nat).

Lemma worldGrows_refl w : worldGrows w w.
Proof. by repeat split. Qed.

Lemma worldGrows_trans a b c :
  worldGrows a b -> worldGrows b c -> worldGrows a c.
Proof.
  intros (D1 & A1 & T1) (D2 & A2 & T2).
  split; [set_solver|]. split; [lia|]. intros k. by rewrite T2.
Qed.

Lemma worldGrows_setCode r code w : worldGrows w (setCode r code w).
Proof. destruct r; by repeat split. Qed.

Lemma worldGrows_put f k w :
  worldGrows w (withTables (alter (put 1 f) k) w).
Proof.
  split; [done|]. split; [done|]. intros j. simpl.
  destruct (decide (k = j)) as [->|Hne].
  - rewrite lookup_alter_eq. destruct (tables w !! j) as [t|]; [|done].
    simpl. unfold first, put. simpl. by rewrite lookup_insert_ne.
  - by rewrite lookup_alter_ne.
Qed.

Lemma emitOpcode_grows rec code bb bbLabels alloc i st r :
  growsWorld rec ->
  emitOpcode rec rt debug fuel code bb bbLabels alloc i st = Ok r ->
  worldGrows (es_world st) (es_world r.1).
Proof.
  intros (HP & HC & HS). unfold emitOpcode.
  destruct (tag i) eqn:Ht, (imm i) eqn:Hi; simpl;
    try (intros [= <-]; apply worldGrows_refl); try done;
    try (intros H; repeat (apply bind_Ok in H as (? & ? & H));
         injection H as <-; apply worldGrows_refl).
  - intros H. apply bind_Ok in H as (r1 & H1 & [= <-]). simpl.
    by apply HP in H1.
  - destruct (tables (es_world st) !! code0) as [dt|]; [|done].
    intros H. apply bind_Ok in H as (w & Hw & [= <-]). simpl.
    destruct (_ && _); [|injection Hw as <-; apply worldGrows_refl].
    apply bind_Ok in Hw as (r1 & H1 & Hw). apply HC in H1.
    destruct (negb _); injection Hw as <-; [|done].
    eapply worldGrows_trans; [exact H1|apply worldGrows_put].
  - intros H. apply bind_Ok in H as (w & Hw & [= <-]). simpl.
    by apply HS in Hw.
  - destruct (0 <? length names)%nat; intros [= <-]; apply worldGrows_refl.
Qed.

Lemma emitInstr_grows rec code bb bbLabels alloc i st r :
  growsWorld rec ->
  emitInstr rec rt debug fuel code bb bbLabels alloc i st = Ok r ->
  worldGrows (es_world st) (es_world r.1).
Proof.
  intros Hrec H. unfold emitInstr in H.
  apply bind_Ok in H as (ce & _ & H). apply bind_Ok in H as (r1 & H1 & H).
  apply emitOpcode_grows in H1; [|done]. simpl in H1.
  destruct (r1.2); [by injection H as <-|].
  apply bind_Ok in H as (cs & _ & [= <-]). done.
Qed.

Lemma emitInstrs_grows rec code bb bbLabels alloc ins : forall st r,
  growsWorld rec ->
  emitInstrs rec rt debug fuel code bb bbLabels alloc ins st = Ok r ->
  worldGrows (es_world st) (es_world r.1).
Proof.
  induction ins as [|i ins IH]; intros st r Hrec; simpl.
  - intros [= <-]. apply worldGrows_refl.
  - intros H. apply bind_Ok in H as (r1 & H1 & H).
    apply emitInstr_grows in H1; [|done].
    destruct (r1.2); [by injection H as <-|].
    apply IH in H; [|done]. by eapply worldGrows_trans.
Qed.

Lemma emitBB_grows rec code bbLabels alloc st bb st' :
  growsWorld rec ->
  emitBB rec rt debug fuel code bbLabels alloc st bb = Ok st' ->
  worldGrows st.2.2 st'.2.2.
Proof.
  intros Hrec. unfold emitBB.
  destruct (instrs (getBB code bb)) as [|i0 ins] eqn:Hins;
    [intros [= <-]; apply worldGrows_refl|].
  intros H. apply bind_Ok in H as (r & Hr & H).
  apply emitInstrs_grows in Hr; [|done]. simpl in Hr.
  destruct (r.2); [by injection H as <-|].
  destruct (next0 (getBB code bb)); [|done].
  apply bind_Ok in H as (nx & _ & [= <-]). done.
Qed.

Lemma compileCode_grows rec r cs pw out :
  growsWorld rec ->
  compileCode rec rt debug fuel r cs pw = Ok out ->
  worldGrows pw.2 out.2.2.
Proof.
  intros Hrec H. unfold compileCode in H.
  apply bind_Ok in H as (u & _ & H). apply bind_Ok in H as (code & _ & H).
  apply bind_Ok in H as (li & _ & H). apply bind_Ok in H as (alloc0 & _ & H).
  apply bind_Ok in H as (v & _ & H). apply bind_Ok in H as (o & Ho & [= <-]).
  simpl. eapply (foldM_inv (fun st => worldGrows pw.2 st.2.2)) in Ho;
    [done| |].
  - intros a b a' _ Ha Hf. apply emitBB_grows in Hf; [|done].
    by eapply worldGrows_trans.
  - simpl. apply worldGrows_setCode.
Qed.

Lemma getPromiseIdx_grows rec p pw r :
  growsWorld rec ->
  getPromiseIdx rec rt debug fuel p pw = Ok r ->
  worldGrows pw.2 r.2.2.
Proof.
  intros Hrec. unfold getPromiseIdx.
  destruct (promIdx pw.1 !! p); [intros [= <-]; apply worldGrows_refl|].
  destruct (promises pw.2 !! p); [|done].
  intros H. apply bind_Ok in H as (c & Hc & [= <-]). simpl.
  by apply compileCode_grows in Hc.
Qed.

Lemma finalize_grows rec cls w r :
  growsWorld rec ->
  finalize rec rt debug fuel cls w = Ok r ->
  worldGrows w r.2 /\ (allocated w < allocated r.2)%nat.
Proof.
  intros Hrec. unfold finalize.
  destruct (closures w !! cls) as [cl|]; [|done].
  intros H. apply bind_Ok in H as (d & Hd & H).
  apply bind_Ok in H as (c & Hc & [= <-]). simpl.
  apply compileCode_grows in Hc; [|done].
  eapply (foldM_inv (fun st => worldGrows (withAllocated (S (allocated w)) w)
                                 st.2.2)) in Hd;
    [| |apply worldGrows_refl].
  - assert (worldGrows (withAllocated (S (allocated w)) w) c.2.2)
      as (D & A & T) by (by eapply worldGrows_trans).
    simpl in D, A, T. split; [|lia]. split; [done|]. split; [lia|done].
  - intros a [b|] a' _ Ha; simpl; [|by intros [= <-]].
    intros Hf. apply bind_Ok in Hf as (g & Hg & Hf).
    apply getPromiseIdx_grows in Hg; [|done].
    destruct (argNames cl !! a.1); [|done]. injection Hf as <-. simpl.
    by eapply worldGrows_trans.
Qed.

Lemma compileWith_grows lower cls origin w w' :
  (forall c w r, lower c w = Ok r -> worldGrows w r.2) ->
  compileWith lower rt debug cls origin w = Ok w' ->
  worldGrows w w' /\ cls ∈ done w'.
Proof.
  intros Hl. unfold compileWith.
  destruct (bool_decide_reflect (cls ∈ done w)) as [Hin|Hin];
    [intros [= <-]; split; [apply worldGrows_refl|done]|].
  assert (worldGrows w (withDone ({[cls]} ∪ done w) w)) as H1.
  { split; [simpl; set_solver|]. by split. }
  assert (forall w2, worldGrows (withDone ({[cls]} ∪ done w) w) w2 ->
                     worldGrows w w2 /\ cls ∈ done w2) as Hfin.
  { intros w2 H2. split; [by eapply worldGrows_trans|].
    destruct H2 as (D & _). simpl in D. set_solver. }
  simpl. destruct (tables w !! BODY rt origin) as [table|]; [|done].
  destruct (available table 1);
    [intros [= <-]; apply Hfin, worldGrows_refl|].
  intros H. apply bind_Ok in H as (r & Hr & H). apply Hl in Hr.
  destruct (includes debug DryRun); [injection H as <-; by apply Hfin|].
  destruct (tables r.2 !! BODY rt origin) as [table'|]; [|done].
  destruct (first table'); [|done]. injection H as <-.
  apply Hfin. eapply worldGrows_trans; [exact Hr|apply worldGrows_put].
Qed.

Lemma lowering_growsWorld depth : growsWorld (lowering depth rt debug fuel).
Proof.
  induction depth as [|depth IH]; [by repeat split|].
  split; [|split]; simpl.
  - intros p pw r. by apply getPromiseIdx_grows.
  - intros c w r H. by apply finalize_grows in H as [? _].
  - intros c o w w' H. apply compileWith_grows in H as [? _]; [done|].
    intros c' w1 r Hr. by apply finalize_grows in Hr as [? _].
Qed.

(** X11. What [compile] leaves of the compiler's state: the closure is in
    [done], no closure has left [done], no function object has been given
    back, every dispatch table is still there with its capacity and its
    baseline function, and a second call for the closure, whatever its
    origin, returns at once. *)
Theorem compile_marks_done depth cls origin w w' :
  compile depth rt debug fuel cls origin w = Ok w' ->
  cls ∈ done w' /\ done w ⊆ done w' /\ (allocated w <= allocated w')%nat /\
  (forall k, (fun t => (capacity t, first t)) <$> tables w' !! k
             = (fun t => (capacity t, first t)) <$> tables w !! k) /\
  (forall depth' origin',
     compile depth' rt debug fuel cls origin' w' = Ok w').
Proof.
  unfold compile. cbn [lowering compileClosure]. intros H.
  apply compileWith_grows in H as [(D & A & T) Hin].
  - split; [done|]. split; [done|]. split; [done|]. split; [done|].
    intros depth' origin'. unfold compileWith.
    by rewrite bool_decide_eq_true_2.
  - intros c w1 r Hr. apply finalize_grows in Hr as [? _]; [done|].
    apply lowering_growsWorld.
Qed.

End WorldGrowth.

Section WorldGrowthExample.

Lemma compile_marks_done_witness :
  let w' := getOk diamond_world (compile 3 plain_runtime [] 20 0 100 diamond_world) in
  (0%nat ∈ done w' /\ done diamond_world ⊆ done w' /\
   (allocated diamond_world <= allocated w')%nat /\
   (forall k, (fun t => (capacity t, first t)) <$> tables w' !! k
              = (fun t => (capacity t, first t)) <$> tables diamond_world !! k) /\
   (forall depth' origin',
      compile depth' plain_runtime [] 20 0 origin' w' = Ok w')).
Proof.
  intros w'.
  apply (compile_marks_done plain_runtime [] 20 3 0 100 diamond_world w').
  vm_compute. reflexivity.
Defined.

End WorldGrowthExample.
